(** * A verified model of the AVL tree of [scr/avl_tree.py]

    The Python objects of class [Node] live in an object store (a finite map
    from references to records); the [AVLTree] object contributes its two
    attributes [root] and [__size].  Every method is transcribed as a
    function in a state-and-exception monad over that store, loops carrying
    an explicit fuel; so is the height computation [get_height] of
    [main.py].  The second half of the file relates the store to
    location-annotated binary trees and proves the properties of the
    specification. *)

From Stdlib Require Import ZArith Lia String.
From stdpp Require Import gmap list sorting.

Local Open Scope Z_scope.
Set Warnings "-clear-no-such-hyp".

(** ** Object store *)

Abbreviation loc := positive.

(** [class Node]: the dataclass fields, in declaration order. *)
Record Node := mkNode {
  value : Z;
  parent : option loc;
  left : option loc;
  right : option loc;
  height : Z
}.

(** [Node(value)]: the dataclass defaults. *)
Definition new_Node (v : Z) : Node := mkNode v None None None 0.

Definition with_value (v : Z) (n : Node) : Node :=
  mkNode v (parent n) (left n) (right n) (height n).
Definition with_parent (p : option loc) (n : Node) : Node :=
  mkNode (value n) p (left n) (right n) (height n).
Definition with_left (l : option loc) (n : Node) : Node :=
  mkNode (value n) (parent n) l (right n) (height n).
Definition with_right (r : option loc) (n : Node) : Node :=
  mkNode (value n) (parent n) (left n) r (height n).
Definition with_height (h : Z) (n : Node) : Node :=
  mkNode (value n) (parent n) (left n) (right n) h.

(** [class NodeSearchResult]. *)
Record NodeSearchResult := mkResult {
  searched_node : option loc;
  insert_place : option loc
}.

Definition is_found (r : NodeSearchResult) : bool :=
  match searched_node r with Some _ => true | None => false end.

(** The store of [Node] objects together with the attributes of the one
    [AVLTree] object under study: [root] and [__size]. *)
Record State := mkState {
  heap : gmap loc Node;
  root : option loc;
  size_ : Z
}.

(** Values a caller may pass where the methods expect [int | Node]. *)
Inductive PyValue :=
| PyInt (z : Z)
| PyNode (x : loc)
| PyNone
| PyStr (s : string).

(** ** The monad of the methods *)

Inductive exn := TypeError | RuntimeError | AttributeError.

(** [BadRef] is a read through a reference that is not in the store and
    [OutOfFuel] an exhausted loop budget; neither is a Python exception. *)
Inductive outcome (A : Type) :=
| Ok (a : A)
| Raise (e : exn)
| BadRef
| OutOfFuel.
Arguments Ok {A} a.
Arguments Raise {A} e.
Arguments BadRef {A}.
Arguments OutOfFuel {A}.

Definition M (A : Type) : Type := State -> outcome A * State.

Definition ret {A} (a : A) : M A := fun s => (Ok a, s).

Definition bind {A B} (m : M A) (k : A -> M B) : M B :=
  fun s =>
    match m s with
    | (Ok a, s') => k a s'
    | (Raise e, s') => (Raise e, s')
    | (BadRef, s') => (BadRef, s')
    | (OutOfFuel, s') => (OutOfFuel, s')
    end.

Notation "'let*' x ':=' m 'in' k" := (bind m (fun x => k))
  (at level 10, x name, m at level 100, k at level 200).

Definition raise {A} (e : exn) : M A := fun s => (Raise e, s).
Definition out_of_fuel {A} : M A := fun s => (OutOfFuel, s).

(** Attribute read [x.f] and attribute write [x.f = v]. *)
Definition getf {A} (f : Node -> A) (x : loc) : M A :=
  fun s =>
    match heap s !! x with
    | Some n => (Ok (f n), s)
    | None => (BadRef, s)
    end.

Definition setf (upd : Node -> Node) (x : loc) : M unit :=
  fun s =>
    match heap s !! x with
    | Some n => (Ok tt, mkState (<[x := upd n]> (heap s)) (root s) (size_ s))
    | None => (BadRef, s)
    end.

(** A constructor call: the new object gets a reference nothing uses yet. *)
Definition alloc (n : Node) : M loc :=
  fun s =>
    let x := fresh (dom (heap s)) in
    (Ok x, mkState (<[x := n]> (heap s)) (root s) (size_ s)).

Definition get_root : M (option loc) := fun s => (Ok (root s), s).
Definition set_root (r : option loc) : M unit :=
  fun s => (Ok tt, mkState (heap s) r (size_ s)).
Definition add_size (d : Z) : M unit :=
  fun s => (Ok tt, mkState (heap s) (root s) (size_ s + d)).

(** ** [Node.balance_factor] and [AVLTree.__update_height] *)

Definition height_or_minus1 (o : option loc) : M Z :=
  match o with
  | None => ret (-1)
  | Some c => getf height c
  end.

Definition balance_factor (self : loc) : M Z :=
  let* r := getf right self in
  let* right_child_height := height_or_minus1 r in
  let* l := getf left self in
  let* left_child_height := height_or_minus1 l in
  ret (right_child_height - left_child_height).

Definition update_height (node : loc) : M unit :=
  let* l := getf left node in
  let* left_height := height_or_minus1 l in
  let* r := getf right node in
  let* right_height := height_or_minus1 r in
  setf (with_height (Z.max left_height right_height + 1)) node.

(** ** [AVLTree.__init__], [AVLTree.size] *)

Definition AVLTree_init (objs : gmap loc Node) (r : option loc) : State :=
  mkState objs r (match r with None => 0 | Some _ => 1 end).

Definition size : M Z := fun s => (Ok (size_ s), s).

(** ** [AVLTree.__create_node_from_value] *)

Definition create_node_from_value (v : PyValue) : M loc :=
  match v with
  | PyNode x => ret x
  | PyInt z => alloc (new_Node z)
  | PyNone | PyStr _ => raise TypeError
  end.

(** ** [AVLTree.__search_node]

    [Node] is a dataclass compared by [value] alone, so [==] and [<] on two
    nodes read the [value] attribute of both. *)
Fixpoint search_loop (fuel : nat) (searched : loc) (current : option loc)
    (result : NodeSearchResult) : M NodeSearchResult :=
  match current with
  | None => ret result
  | Some cur =>
    match fuel with
    | O => out_of_fuel
    | S fuel' =>
      let* cv := getf value cur in
      let* sv := getf value searched in
      if cv =? sv then ret (mkResult (Some cur) (insert_place result))
      else
        let* next_node :=
          (if sv <? cv then getf left cur else getf right cur) in
        let result' :=
          match next_node with
          | None => mkResult (searched_node result) (Some cur)
          | Some _ => result
          end in
        search_loop fuel' searched next_node result'
    end
  end.

Definition search_node (fuel : nat) (searched : loc) : M NodeSearchResult :=
  let* current := get_root in
  search_loop fuel searched current (mkResult None None).

(** ** [AVLTree.__bst_insert] *)

Definition bst_insert (fuel : nat) (node : loc) : M bool :=
  let* search_result := search_node fuel node in
  if is_found search_result then ret false
  else
    let* _ :=
      match insert_place search_result with
      | None => set_root (Some node)
      | Some p =>
        let* _ := setf (with_parent (Some p)) node in
        let* nv := getf value node in
        let* pv := getf value p in
        if nv <? pv then setf (with_left (Some node)) p
        else setf (with_right (Some node)) p
      end in
    let* _ := add_size 1 in
    ret true.

(** ** [AVLTree.__rotate_right], [AVLTree.__rotate_left] *)

Definition rotate_right (node : loc) : M unit :=
  let* left_child := getf left node in
  match left_child with
  | None => raise TypeError
  | Some left_child =>
    let* right_grandchild := getf right left_child in
    let* _ := setf (with_right (Some node)) left_child in
    let* _ := setf (with_left right_grandchild) node in
    let* np := getf parent node in
    let* _ := setf (with_parent np) left_child in
    let* _ := setf (with_parent (Some left_child)) node in
    let* _ :=
      match right_grandchild with
      | Some g => setf (with_parent (Some node)) g
      | None => ret tt
      end in
    let* lp := getf parent left_child in
    let* _ :=
      match lp with
      | None => set_root (Some left_child)
      | Some p =>
        let* pl := getf left p in
        if decide (pl = Some node) then setf (with_left (Some left_child)) p
        else setf (with_right (Some left_child)) p
      end in
    let* _ := update_height node in
    update_height left_child
  end.

Definition rotate_left (node : loc) : M unit :=
  let* right_child := getf right node in
  match right_child with
  | None => raise TypeError
  | Some right_child =>
    let* left_grandchild := getf left right_child in
    let* _ := setf (with_left (Some node)) right_child in
    let* _ := setf (with_right left_grandchild) node in
    let* np := getf parent node in
    let* _ := setf (with_parent np) right_child in
    let* _ := setf (with_parent (Some right_child)) node in
    let* _ :=
      match left_grandchild with
      | Some g => setf (with_parent (Some node)) g
      | None => ret tt
      end in
    let* rp := getf parent right_child in
    let* _ :=
      match rp with
      | None => set_root (Some right_child)
      | Some p =>
        let* pl := getf left p in
        if decide (pl = Some node) then setf (with_left (Some right_child)) p
        else setf (with_right (Some right_child)) p
      end in
    let* _ := update_height node in
    update_height right_child
  end.

(** ** [AVLTree.__balance] *)

Fixpoint balance_loop (fuel : nat) (current : option loc) : M unit :=
  match current with
  | None => ret tt
  | Some cur =>
    match fuel with
    | O => out_of_fuel
    | S fuel' =>
      let* _ := update_height cur in
      let* bf := balance_factor cur in
      let* _ :=
        (if bf <? -1 then
           let* l := getf left cur in
           let* _ :=
             match l with
             | None => ret tt
             | Some lc =>
               let* lbf := balance_factor lc in
               if 0 <? lbf then rotate_left lc else ret tt
             end in
           rotate_right cur
         else if 1 <? bf then
           let* r := getf right cur in
           let* _ :=
             match r with
             | None => ret tt
             | Some rc =>
               let* rbf := balance_factor rc in
               if rbf <? 0 then rotate_right rc else ret tt
             end in
           rotate_left cur
         else ret tt) in
      let* p := getf parent cur in
      balance_loop fuel' p
    end
  end.

Definition balance (fuel : nat) (node : loc) : M unit :=
  balance_loop fuel (Some node).

(** ** The three removal cases *)

Definition bst_remove_leaf (node : loc) : M (option loc) :=
  let* l := getf left node in
  let* r := getf right node in
  match l, r with
  | None, None =>
    let* p := getf parent node in
    let* _ :=
      match p with
      | None => set_root None
      | Some p =>
        let* pl := getf left p in
        if decide (pl = Some node) then setf (with_left None) p
        else setf (with_right None) p
      end in
    let* _ := add_size (-1) in
    ret (Some node)
  | _, _ => ret None
  end.

Definition bst_remove_one_child_node (node : loc) : M (option loc) :=
  let* l := getf left node in
  let* r := getf right node in
  if bool_decide ((l = None) <-> (r = None)) then ret None
  else
    let child := match r with None => l | Some _ => r end in
    match child with
    | None => raise AttributeError
    | Some c =>
      let* p := getf parent node in
      let* _ :=
        match p with
        | None =>
          let* _ := set_root (Some c) in
          setf (with_parent None) c
        | Some p =>
          let* pl := getf left p in
          if decide (pl = Some node) then
            let* _ := setf (with_left (Some c)) p in
            let* np := getf parent node in
            setf (with_parent np) c
          else
            let* _ := setf (with_right (Some c)) p in
            let* np := getf parent node in
            setf (with_parent np) c
        end in
      let* _ := add_size (-1) in
      ret (Some node)
    end.

Fixpoint successor_loop (fuel : nat) (successor : loc) : M loc :=
  let* l := getf left successor in
  match l with
  | None => ret successor
  | Some l' =>
    match fuel with
    | O => out_of_fuel
    | S fuel' => successor_loop fuel' l'
    end
  end.

Definition bst_remove_two_child_node (fuel : nat) (node : loc)
    : M (option loc) :=
  let* l := getf left node in
  let* r := getf right node in
  match l, r with
  | Some _, Some r0 =>
    let* successor := successor_loop fuel r0 in
    let* sv := getf value successor in
    let* _ := setf (with_value sv) node in
    let* deleted_node := bst_remove_one_child_node successor in
    let* _ :=
      match deleted_node with
      | Some _ => ret tt
      | None => let* _ := bst_remove_leaf successor in ret tt
      end in
    ret (Some successor)
  | _, _ => ret None
  end.

(** ** [AVLTree.__bst_remove] *)

Definition bst_remove (fuel : nat) (node : loc) : M (option loc) :=
  let* search_result := search_node fuel node in
  match searched_node search_result with
  | None => ret None
  | Some node_to_remove =>
    let* d1 := bst_remove_leaf node_to_remove in
    match d1 with
    | Some d => ret (Some d)
    | None =>
      let* d2 := bst_remove_one_child_node node_to_remove in
      match d2 with
      | Some d => ret (Some d)
      | None =>
        let* d3 := bst_remove_two_child_node fuel node_to_remove in
        match d3 with
        | Some d => ret (Some d)
        | None => raise RuntimeError
        end
      end
    end
  end.

(** ** The public methods [find], [insert], [remove] *)

Definition find (fuel : nat) (v : PyValue) : M (option loc) :=
  let* node := create_node_from_value v in
  let* search_result := search_node fuel node in
  ret (if is_found search_result then searched_node search_result else None).

Definition insert (fuel : nat) (v : PyValue) : M bool :=
  let* new_node := create_node_from_value v in
  let* is_inserted := bst_insert fuel new_node in
  if negb is_inserted then ret false
  else
    let* _ := balance fuel new_node in
    ret true.

Definition remove (fuel : nat) (v : PyValue) : M bool :=
  let* node := create_node_from_value v in
  let* deleted_node := bst_remove fuel node in
  match deleted_node with
  | None => ret false
  | Some d =>
    let* dp := getf parent d in
    let* _ :=
      match dp with
      | Some p => balance fuel p
      | None => ret tt
      end in
    ret true
  end.

(** [AVLTree()] over an empty store. *)
Definition empty_tree : State := AVLTree_init ∅ None.

(** ** Sequences of public calls *)

Inductive op := Insert (k : Z) | Remove (k : Z).

Definition run_op (fuel : nat) (o : op) : M bool :=
  match o with
  | Insert k => insert fuel (PyInt k)
  | Remove k => remove fuel (PyInt k)
  end.

Fixpoint run_ops (fuel : nat) (ops : list op) : M (list bool) :=
  match ops with
  | [] => ret []
  | o :: ops' =>
    let* b := run_op fuel o in
    let* bs := run_ops fuel ops' in
    ret (b :: bs)
  end.

(** Read-only traversal of the store from a reference: the in-order list of
    values, as a visiting caller would collect it. *)
Fixpoint inorder_from (fuel : nat) (h : gmap loc Node) (o : option loc)
    : list Z :=
  match fuel, o with
  | S fuel', Some x =>
    match h !! x with
    | Some n =>
      inorder_from fuel' h (left n) ++ value n :: inorder_from fuel' h (right n)
    | None => []
    end
  | _, _ => []
  end.

Definition root_value (s : State) : option Z :=
  match root s with
  | Some x => value <$> heap s !! x
  | None => None
  end.

Definition root_height (s : State) : option Z :=
  match root s with
  | Some x => height <$> heap s !! x
  | None => None
  end.

(** The concrete scenarios B and C of the specification. *)
Definition scenario_B_ops : list op := map Insert [1; 2; 3; 4; 5; 6; 7].

Definition scenario_C_ops : list op := map Insert [10; 5; 15; 3; 7; 12; 18].

Definition scenario_B_state : State :=
  snd (run_ops 15 scenario_B_ops empty_tree).

Definition scenario_C_state : State :=
  snd (run_ops 15 scenario_C_ops empty_tree).

Definition scenario_C_removed : State :=
  snd (remove 15 (PyInt 10) scenario_C_state).

(** ** Location-annotated trees

    The shape the store is meant to hold: each node carries the reference of
    the object that represents it, its value and its cached height. *)

Inductive tree :=
| E
| T (l : tree) (x : loc) (v : Z) (h : Z) (r : tree).

Definition rootof (t : tree) : option loc :=
  match t with
  | E => None
  | T _ x _ _ _ => Some x
  end.

(** Cached height of a possibly absent child. *)
Definition ht (t : tree) : Z :=
  match t with
  | E => -1
  | T _ _ _ h _ => h
  end.

Definition bf (t : tree) : Z :=
  match t with
  | E => 0
  | T l _ _ _ r => ht r - ht l
  end.

Fixpoint locs (t : tree) : list loc :=
  match t with
  | E => []
  | T l x _ _ r => locs l ++ x :: locs r
  end.

Fixpoint keys (t : tree) : list Z :=
  match t with
  | E => []
  | T l _ v _ r => keys l ++ v :: keys r
  end.

(** [repr h p t]: the store [h] holds [t], whose root has [p] as parent. *)
Fixpoint repr (h : gmap loc Node) (p : option loc) (t : tree) : Prop :=
  match t with
  | E => True
  | T l x v ht_ r =>
    h !! x = Some (mkNode v p (rootof l) (rootof r) ht_)
    /\ repr h (Some x) l /\ repr h (Some x) r
  end.

(** The state holds the tree [t] (and possibly unreachable objects). *)
Definition srepr (s : State) (t : tree) : Prop :=
  root s = rootof t /\ repr (heap s) None t /\ NoDup (locs t).

(** One step of a path from a subtree up to the root. *)
Inductive frame :=
| InL (x : loc) (v h : Z) (r : tree)
| InR (l : tree) (x : loc) (v h : Z).

Definition fill (f : frame) (t : tree) : tree :=
  match f with
  | InL x v h r => T t x v h r
  | InR l x v h => T l x v h t
  end.

Definition floc (f : frame) : loc :=
  match f with
  | InL x _ _ _ => x
  | InR _ x _ _ => x
  end.

(** A context lists the frames from the hole upwards. *)
Fixpoint plug (c : list frame) (t : tree) : tree :=
  match c with
  | [] => t
  | f :: c' => plug c' (fill f t)
  end.

Definition ctx_parent (c : list frame) : option loc :=
  match c with
  | [] => None
  | f :: _ => Some (floc f)
  end.

Definition lkeys_frame (f : frame) : list Z :=
  match f with
  | InL _ _ _ _ => []
  | InR l _ v _ => keys l ++ [v]
  end.

Definition rkeys_frame (f : frame) : list Z :=
  match f with
  | InL _ v _ r => v :: keys r
  | InR _ _ _ _ => []
  end.

(** Keys to the left and to the right of the hole. *)
Fixpoint lkeys (c : list frame) : list Z :=
  match c with
  | [] => []
  | f :: c' => lkeys c' ++ lkeys_frame f
  end.

Fixpoint rkeys (c : list frame) : list Z :=
  match c with
  | [] => []
  | f :: c' => rkeys_frame f ++ rkeys c'
  end.

Definition llocs_frame (f : frame) : list loc :=
  match f with
  | InL _ _ _ _ => []
  | InR l x _ _ => locs l ++ [x]
  end.

Definition rlocs_frame (f : frame) : list loc :=
  match f with
  | InL x _ _ r => x :: locs r
  | InR _ _ _ _ => []
  end.

Fixpoint llocs (c : list frame) : list loc :=
  match c with
  | [] => []
  | f :: c' => llocs c' ++ llocs_frame f
  end.

Fixpoint rlocs (c : list frame) : list loc :=
  match c with
  | [] => []
  | f :: c' => rlocs_frame f ++ rlocs c'
  end.

(** The store holds the context [c] around a hole whose slot contains [o]. *)
Fixpoint repr_ctx (h : gmap loc Node) (c : list frame) (o : option loc)
    : Prop :=
  match c with
  | [] => True
  | InL x v ht_ r :: c' =>
    h !! x = Some (mkNode v (ctx_parent c') o (rootof r) ht_)
    /\ repr h (Some x) r /\ repr_ctx h c' (Some x)
  | InR l x v ht_ :: c' =>
    h !! x = Some (mkNode v (ctx_parent c') (rootof l) o ht_)
    /\ repr h (Some x) l /\ repr_ctx h c' (Some x)
  end.

(** Reference held by [self.root] when the hole holds [o]. *)
Fixpoint ctx_root (c : list frame) (o : option loc) : option loc :=
  match c with
  | [] => o
  | f :: c' => ctx_root c' (Some (floc f))
  end.

(** ** The invariants on trees *)

(** Strictly increasing lists of keys. *)
Fixpoint sorted (l : list Z) : Prop :=
  match l with
  | [] => True
  | a :: l' => Forall (fun k => a < k) l' /\ sorted l'
  end.

Definition bst (t : tree) : Prop := sorted (keys t).

(** Cached heights are right and every balance factor is in [-1..1]. *)
Fixpoint avl (t : tree) : Prop :=
  match t with
  | E => True
  | T l _ _ h r =>
    avl l /\ avl r /\ h = Z.max (ht l) (ht r) + 1 /\ -1 <= ht r - ht l <= 1
  end.

(** ** The methods on trees *)

Definition rotR (t : tree) : tree :=
  match t with
  | T (T a y vy _ b) x v _ c =>
    let n := T b x v (Z.max (ht b) (ht c) + 1) c in
    T a y vy (Z.max (ht a) (ht n) + 1) n
  | _ => t
  end.

Definition rotL (t : tree) : tree :=
  match t with
  | T a x v _ (T b y vy _ c) =>
    let n := T a x v (Z.max (ht a) (ht b) + 1) b in
    T n y vy (Z.max (ht n) (ht c) + 1) c
  | _ => t
  end.

Definition upd_height (t : tree) : tree :=
  match t with
  | E => E
  | T l x v _ r => T l x v (Z.max (ht l) (ht r) + 1) r
  end.

(** One iteration of [__balance] at the root of [t]. *)
Definition rebal (t : tree) : tree :=
  match t with
  | E => E
  | T l x v _ r =>
    let h1 := Z.max (ht l) (ht r) + 1 in
    if ht r - ht l <? -1 then
      rotR (T (if 0 <? bf l then rotL l else l) x v h1 r)
    else if 1 <? ht r - ht l then
      rotL (T l x v h1 (if bf r <? 0 then rotR r else r))
    else T l x v h1 r
  end.

(** The whole walk, from the subtree [t] in context [c] up to the root. *)
Fixpoint walk (c : list frame) (t : tree) : tree :=
  match c with
  | [] => rebal t
  | f :: c' => walk c' (fill f (rebal t))
  end.

(** The walk started at the parent of the hole (none when the hole is the
    root). *)
Definition walk_up (c : list frame) (t : tree) : tree :=
  match c with
  | [] => t
  | f :: c' => walk c' (fill f t)
  end.

(** The search path for [k]: where it stops and what it finds there. *)
Fixpoint descend (k : Z) (c : list frame) (t : tree) : list frame * tree :=
  match t with
  | E => (c, E)
  | T l x v h r =>
    if v =? k then (c, t)
    else if k <? v then descend k (InL x v h r :: c) l
    else descend k (InR l x v h :: c) r
  end.

(** The leftmost node below [T l x v h r], with the path that leads to it. *)
Fixpoint spine (c : list frame) (l : tree) (x : loc) (v h : Z) (r : tree)
    : list frame * (loc * Z * Z * tree) :=
  match l with
  | E => (c, (x, v, h, r))
  | T ll lx lv lh lr => spine (InL x v h r :: c) ll lx lv lh lr
  end.

Definition insert_tree (x : loc) (k : Z) (t : tree) : option tree :=
  match descend k [] t with
  | (c, E) => Some (walk c (T E x k 0 E))
  | (_, T _ _ _ _ _) => None
  end.

(** The tree after [__bst_remove] of a found node, with the context in which
    the walk starts and the subtree left in the vacated slot. *)
Definition unlink (c : list frame) (l : tree) (x : loc) (h : Z) (r : tree)
    : list frame * tree :=
  match l, r with
  | E, _ => (c, r)
  | _, E => (c, l)
  | T _ _ _ _ _, T rl rx rv rh rr =>
    let '(sc, (_, sv, _, sr)) := spine [] rl rx rv rh rr in
    (sc ++ InR l x sv h :: c, sr)
  end.

Definition remove_tree (k : Z) (t : tree) : option tree :=
  match descend k [] t with
  | (_, E) => None
  | (c, T l x _ h r) =>
    let '(c', t') := unlink c l x h r in Some (walk_up c' t')
  end.

(** What a context demands of the subtree in its hole, whose cached height
    was [ho] when the cached heights along the context were computed. *)
Fixpoint avl_ctx (c : list frame) (ho : Z) : Prop :=
  match c with
  | [] => True
  | InL _ _ h r :: c' =>
    avl r /\ h = Z.max ho (ht r) + 1 /\ -1 <= ht r - ho <= 1 /\ avl_ctx c' h
  | InR l _ _ h :: c' =>
    avl l /\ h = Z.max (ht l) ho + 1 /\ -1 <= ho - ht l <= 1 /\ avl_ctx c' h
  end.

(** Number of nodes on the longest path from the root down. *)
Fixpoint depth (t : tree) : nat :=
  match t with
  | E => 0%nat
  | T l _ _ _ r => S (Nat.max (depth l) (depth r))
  end.

(** What [__search_node] reports for a search path. *)
Definition result_of (d : list frame * tree) : NodeSearchResult :=
  match d with
  | (c, E) => mkResult None (ctx_parent c)
  | (_, T _ x _ _ _) => mkResult (Some x) None
  end.

(** The comparison that sent the search through a frame. *)
Definition dir_ok (k : Z) (f : frame) : Prop :=
  match f with
  | InL _ v _ _ => k < v
  | InR _ _ v _ => v < k
  end.

(** The single child of a node that has exactly one. *)
Definition one_child (l r : tree) : option tree :=
  match l, r with
  | E, T _ _ _ _ _ => Some r
  | T _ _ _ _ _, E => Some l
  | _, _ => None
  end.

(** The node that [__bst_remove] physically unlinks: the found node, or its
    in-order successor when it has two children. *)
Definition victim (l : tree) (x : loc) (r : tree) : loc :=
  match l, r with
  | T _ _ _ _ _, T rl rx rv rh rr =>
    let '(_, (sx, _, _, _)) := spine [] rl rx rv rh rr in sx
  | _, _ => x
  end.

(** In-order list of the nodes with their keys. *)
Fixpoint cells (t : tree) : list (loc * Z) :=
  match t with
  | E => []
  | T l x v _ r => cells l ++ (x, v) :: cells r
  end.

(** The state holds a well-formed AVL tree. *)
Definition wf (s : State) (t : tree) : Prop :=
  srepr s t /\ bst t /\ avl t.

(** ** The invariants of the data model, read off the store *)

(** [below h o y]: the object [y] is in the subtree that hangs from the
    reference [o], following [left] and [right] attributes. *)
Inductive below (h : gmap loc Node) : option loc -> loc -> Prop :=
| below_here x : below h (Some x) x
| below_left x n y :
    h !! x = Some n -> below h (left n) y -> below h (Some x) y
| below_right x n y :
    h !! x = Some n -> below h (right n) y -> below h (Some x) y.

Definition reachable (s : State) (x : loc) : Prop :=
  below (heap s) (root s) x.

(** A key is present when a node reachable from the root holds it. *)
Definition present (s : State) (k : Z) : Prop :=
  exists x n, reachable s x /\ heap s !! x = Some n /\ value n = k.

(** 1. BST order. *)
Definition bst_order (s : State) : Prop :=
  forall x n, reachable s x -> heap s !! x = Some n ->
    (forall y m, below (heap s) (left n) y -> heap s !! y = Some m ->
       value m < value n)
    /\ (forall y m, below (heap s) (right n) y -> heap s !! y = Some m ->
         value n < value m).

(** 2. AVL balance, with the balance factor computed by the property of the
    source. *)
Definition avl_balance (s : State) : Prop :=
  forall x, reachable s x ->
    exists b, balance_factor x s = (Ok b, s) /\ -1 <= b <= 1.

(** 3. Height correctness. *)
Definition height_correct_at (s : State) (x : loc) : Prop :=
  exists n hl hr,
    heap s !! x = Some n
    /\ height_or_minus1 (left n) s = (Ok hl, s)
    /\ height_or_minus1 (right n) s = (Ok hr, s)
    /\ height n = 1 + Z.max hl hr.

Definition height_correct (s : State) : Prop :=
  forall x, reachable s x -> height_correct_at s x.

(** 4. Parent consistency: the root has no parent, every other node sits in
    exactly one child slot of its parent, and children point back. *)
Definition parent_consistent (s : State) : Prop :=
  (forall x n, root s = Some x -> heap s !! x = Some n -> parent n = None)
  /\ (forall x n p, reachable s x -> heap s !! x = Some n ->
        parent n = Some p ->
        exists pn, reachable s p /\ heap s !! p = Some pn
          /\ ((left pn = Some x /\ right pn <> Some x)
              \/ (left pn <> Some x /\ right pn = Some x)))
  /\ (forall x n y, reachable s x -> heap s !! x = Some n ->
        left n = Some y \/ right n = Some y ->
        exists m, heap s !! y = Some m /\ parent m = Some x).

(** 5. Uniqueness of keys. *)
Definition unique_keys (s : State) : Prop :=
  forall x y n m, reachable s x -> reachable s y ->
    heap s !! x = Some n -> heap s !! y = Some m ->
    value n = value m -> x = y.

Definition invariants (s : State) : Prop :=
  bst_order s /\ avl_balance s /\ height_correct s
  /\ parent_consistent s /\ unique_keys s.

(** Nothing of the tree was touched: same root, same size, and every object
    that was in the store is still there with the same attributes. *)
Definition unchanged (s s' : State) : Prop :=
  root s' = root s /\ size_ s' = size_ s /\ heap s ⊆ heap s'.

(** ** The set of keys a sequence of calls leaves behind *)

Definition model_op (o : op) (K : gset Z) : gset Z :=
  match o with
  | Insert k => {[k]} ∪ K
  | Remove k => K ∖ {[k]}
  end.

Definition model_result (o : op) (K : gset Z) : bool :=
  match o with
  | Insert k => bool_decide (k ∉ K)
  | Remove k => bool_decide (k ∈ K)
  end.

Fixpoint model (ops : list op) (K : gset Z) : gset Z :=
  match ops with
  | [] => K
  | o :: ops' => model ops' (model_op o K)
  end.

Fixpoint model_results (ops : list op) (K : gset Z) : list bool :=
  match ops with
  | [] => []
  | o :: ops' => model_result o K :: model_results ops' (model_op o K)
  end.

Definition keyset (t : tree) : gset Z := list_to_set (keys t).

(** The height of the subtree hanging from a reference, measured by a
    traversal rather than read from the cache. *)
Fixpoint measured_height (fuel : nat) (h : gmap loc Node) (o : option loc)
    : Z :=
  match fuel, o with
  | S fuel', Some x =>
    match h !! x with
    | Some n =>
      1 + Z.max (measured_height fuel' h (left n))
                (measured_height fuel' h (right n))
    | None => -1
    end
  | _, _ => -1
  end.

Definition is_int_or_node (v : PyValue) : bool :=
  match v with
  | PyInt _ | PyNode _ => true
  | PyNone | PyStr _ => false
  end.

(** A removal case applies when it returns the node it unlinked, and
    declines when it returns [None] and leaves the state alone. *)
Definition applies (r : outcome (option loc) * State) : Prop :=
  exists d s', r = (Ok (Some d), s').

Definition declines (s : State) (r : outcome (option loc) * State) : Prop :=
  r = (Ok None, s).

Definition exactly_one_case (fuel : nat) (x : loc) (s : State) : Prop :=
  let r1 := bst_remove_leaf x s in
  let r2 := bst_remove_one_child_node x s in
  let r3 := bst_remove_two_child_node fuel x s in
  (applies r1 /\ declines s r2 /\ declines s r3)
  \/ (declines s r1 /\ applies r2 /\ declines s r3)
  \/ (declines s r1 /\ declines s r2 /\ applies r3).

(** A small tree to try things on: the keys 2, 1, 3 inserted in that
    order. *)
Definition sample_state : State :=
  snd (run_ops 7 [Insert 2; Insert 1; Insert 3] empty_tree).

Definition sample_tree : tree :=
  T (T E 2%positive 1 0 E) 1%positive 2 1 (T E 3%positive 3 0 E).

(** Scenario C of the specification, on the store: the keys
    10, 5, 15, 3, 7, 12, 18 inserted in that order. *)
Definition scenario_C_tree : tree :=
  T (T (T E 4%positive 3 0 E) 2%positive 5 1 (T E 5%positive 7 0 E))
    1%positive 10 2
    (T (T E 6%positive 12 0 E) 3%positive 15 1 (T E 7%positive 18 0 E)).

(** [create_node_from_value] of an integer on [s]: the probe node and the
    state that holds it. *)
Definition probe (s : State) : loc := fresh (dom (heap s)).

Definition with_probe (k : Z) (s : State) : State :=
  mkState (<[probe s := new_Node k]> (heap s)) (root s) (size_ s).

(** A fuel-indexed computation whose normal results do not depend on how
    much more fuel it is given. *)
Definition mono {A} (f : nat -> M A) : Prop :=
  forall fuel fuel' s a s',
    (fuel <= fuel')%nat -> f fuel s = (Ok a, s') -> f fuel' s = (Ok a, s').

(** All the locations of a context. *)
Definition clocs (c : list frame) : list loc := llocs c ++ rlocs c.

(** Number of occurrences of a location in a list. *)
Fixpoint cnt (z : loc) (l : list loc) : nat :=
  match l with
  | [] => 0%nat
  | w :: l' => ((if decide (w = z) then 1 else 0) + cnt z l')%nat
  end.

(** ** [get_height] of [main.py]

    The helper nested in [print_tree]: the number of levels below a
    reference, by recursion on both children ([not node] holds for [None]
    only, a [Node] being always true). *)
Fixpoint get_height (fuel : nat) (node : option loc) : M Z :=
  match node with
  | None => ret 0
  | Some x =>
    match fuel with
    | O => out_of_fuel
    | S fuel' =>
      let* l := getf left x in
      let* hl := get_height fuel' l in
      let* r := getf right x in
      let* hr := get_height fuel' r in
      ret (1 + Z.max hl hr)
    end
  end.

(** The Fibonacci numbers, which bound the size of a balanced tree from
    below. *)
Fixpoint fib (n : nat) : nat :=
  match n with
  | O => 0%nat
  | S m =>
    match m with
    | O => 1%nat
    | S k => (fib k + fib m)%nat
    end
  end.

(** A computation that leaves the state as it found it, whatever it
    returns. *)
Definition readonly {A} (m : M A) : Prop :=
  forall s, snd (m s) = s.

(** * Proofs *)

(** ** Sorted lists *)

Lemma sorted_app (l1 l2 : list Z) :
  sorted (l1 ++ l2) <->
  sorted l1 /\ sorted l2 /\ Forall (fun a => Forall (fun b => a < b) l2) l1.
Proof.
  induction l1 as [|a l1 IH]; simpl.
  - intuition auto.
  - rewrite Forall_app, IH, Forall_cons. intuition auto.
Qed.

Lemma sorted_NoDup (l : list Z) : sorted l -> NoDup l.
Proof.
  induction l as [|a l IH]; simpl; [constructor|].
  intros [Hlt Hs]. constructor; [|auto].
  intros Hin. rewrite Forall_forall in Hlt. specialize (Hlt _ Hin). lia.
Qed.

(** ** Keys and locations of plugged and rotated trees *)

Lemma keys_plug c t : keys (plug c t) = lkeys c ++ keys t ++ rkeys c.
Proof.
  revert t. induction c as [|f c IH]; intros t; simpl.
  - by rewrite app_nil_r.
  - rewrite IH. destruct f; simpl; by rewrite <- ?app_assoc.
Qed.

Lemma locs_plug c t : locs (plug c t) = llocs c ++ locs t ++ rlocs c.
Proof.
  revert t. induction c as [|f c IH]; intros t; simpl.
  - by rewrite app_nil_r.
  - rewrite IH. destruct f; simpl; by rewrite <- ?app_assoc.
Qed.

Lemma plug_app c1 c2 t : plug (c1 ++ c2) t = plug c2 (plug c1 t).
Proof. revert t. induction c1 as [|f c1 IH]; intros t; simpl; auto. Qed.

Lemma rootof_plug c t : rootof (plug c t) = ctx_root c (rootof t).
Proof.
  revert t. induction c as [|f c IH]; intros t; simpl; [done|].
  rewrite IH. by destruct f.
Qed.

Lemma keys_rotR t : keys (rotR t) = keys t.
Proof.
  destruct t as [|[|a y vy hy b] x v h c]; simpl; auto.
  by rewrite <- app_assoc.
Qed.

Lemma keys_rotL t : keys (rotL t) = keys t.
Proof.
  destruct t as [|a x v h [|b y vy hy c]]; simpl; auto.
  by rewrite <- app_assoc.
Qed.

Lemma locs_rotR t : locs (rotR t) = locs t.
Proof.
  destruct t as [|[|a y vy hy b] x v h c]; simpl; auto.
  by rewrite <- app_assoc.
Qed.

Lemma locs_rotL t : locs (rotL t) = locs t.
Proof.
  destruct t as [|a x v h [|b y vy hy c]]; simpl; auto.
  by rewrite <- app_assoc.
Qed.

Lemma keys_rebal t : keys (rebal t) = keys t.
Proof.
  destruct t as [|l x v h r]; [done|]. unfold rebal.
  destruct (_ <? -1); [|destruct (1 <? _)];
    rewrite ?keys_rotR, ?keys_rotL; simpl; [| |done];
    case_match; by rewrite ?keys_rotR, ?keys_rotL.
Qed.

Lemma locs_rebal t : locs (rebal t) = locs t.
Proof.
  destruct t as [|l x v h r]; [done|]. unfold rebal.
  destruct (_ <? -1); [|destruct (1 <? _)];
    rewrite ?locs_rotR, ?locs_rotL; simpl; [| |done];
    case_match; by rewrite ?locs_rotR, ?locs_rotL.
Qed.

Lemma walk_walk_up c t : walk c t = walk_up c (rebal t).
Proof. by destruct c. Qed.

Lemma keys_walk_up c t : keys (walk_up c t) = keys (plug c t).
Proof.
  revert t. induction c as [|f c IH]; intros t; simpl; [done|].
  rewrite walk_walk_up, IH, !keys_plug, keys_rebal. done.
Qed.

Lemma locs_walk_up c t : locs (walk_up c t) = locs (plug c t).
Proof.
  revert t. induction c as [|f c IH]; intros t; simpl; [done|].
  rewrite walk_walk_up, IH, !locs_plug, locs_rebal. done.
Qed.

Lemma keys_walk c t : keys (walk c t) = keys (plug c t).
Proof. by rewrite walk_walk_up, keys_walk_up, !keys_plug, keys_rebal. Qed.

Lemma locs_walk c t : locs (walk c t) = locs (plug c t).
Proof. by rewrite walk_walk_up, locs_walk_up, !locs_plug, locs_rebal. Qed.

(** ** Balance *)

Lemma avl_ht t : avl t -> -1 <= ht t.
Proof.
  induction t as [|l IHl x v h r IHr]; simpl; [lia|].
  intros (Hl & Hr & -> & _). specialize (IHl Hl). lia.
Qed.

Lemma avl_ht_node l x v h r : avl (T l x v h r) -> 0 <= h.
Proof.
  simpl. intros (Hl & Hr & -> & _). apply avl_ht in Hl. lia.
Qed.

Lemma rebal_avl l x v h r :
  avl l -> avl r -> -2 <= ht r - ht l <= 2 ->
  avl (rebal (T l x v h r))
  /\ (-1 <= ht r - ht l <= 1 ->
      ht (rebal (T l x v h r)) = Z.max (ht l) (ht r) + 1)
  /\ Z.max (ht l) (ht r) <= ht (rebal (T l x v h r))
     <= Z.max (ht l) (ht r) + 1.
Proof.
  intros Hl Hr Hd. unfold rebal.
  pose proof (avl_ht _ Hl) as Hhl. pose proof (avl_ht _ Hr) as Hhr.
  destruct (Z.ltb_spec (ht r - ht l) (-1)) as [H1|H1].
  - destruct l as [|a y vy hy b]; [simpl in *; lia|].
    destruct (Z.ltb_spec 0 (bf (T a y vy hy b))) as [H2|H2].
    + simpl in H2. destruct b as [|b1 z vz hz b2].
      { simpl in Hl. destruct Hl as (Ha & _ & -> & ?).
        apply avl_ht in Ha. simpl in *. lia. }
      simpl in Hl. destruct Hl as (Ha & (Hb1 & Hb2 & -> & ?) & -> & ?).
      apply avl_ht in Hb1 as ?. apply avl_ht in Hb2 as ?.
      apply avl_ht in Ha as ?.
      simpl in *. repeat split; auto; lia.
    + simpl in Hl. destruct Hl as (Ha & Hb & -> & ?).
      apply avl_ht in Ha as ?. apply avl_ht in Hb as ?.
      simpl in *. repeat split; auto; lia.
  - destruct (Z.ltb_spec 1 (ht r - ht l)) as [H3|H3].
    + destruct r as [|b y vy hy c]; [simpl in *; lia|].
      destruct (Z.ltb_spec (bf (T b y vy hy c)) 0) as [H2|H2].
      * simpl in H2. destruct b as [|b1 z vz hz b2].
        { simpl in Hr. destruct Hr as (_ & Hc & -> & ?).
          apply avl_ht in Hc. simpl in *. lia. }
        simpl in Hr. destruct Hr as ((Hb1 & Hb2 & -> & ?) & Hc & -> & ?).
        apply avl_ht in Hb1 as ?. apply avl_ht in Hb2 as ?.
        apply avl_ht in Hc as ?.
        simpl in *. repeat split; auto; lia.
      * simpl in Hr. destruct Hr as (Hb & Hc & -> & ?).
        apply avl_ht in Hb as ?. apply avl_ht in Hc as ?.
        simpl in *. repeat split; auto; lia.
    + simpl. repeat split; auto; lia.
Qed.

Lemma rebal_avl_id t : avl t -> rebal t = t.
Proof.
  destruct t as [|l x v h r]; simpl; [done|].
  intros (_ & _ & -> & ?).
  destruct (Z.ltb_spec (ht r - ht l) (-1)); [lia|].
  destruct (Z.ltb_spec 1 (ht r - ht l)); [lia|]. done.
Qed.

Arguments rebal : simpl never.

Lemma walk_up_avl c t ho :
  avl_ctx c ho -> avl t -> -1 <= ht t - ho <= 1 -> avl (walk_up c t).
Proof.
  revert t ho. induction c as [|f c IH]; intros t ho Hc Ht Hd; simpl; [done|].
  rewrite walk_walk_up.
  pose proof (avl_ht _ Ht) as Hht.
  destruct f as [x v h r|l x v h]; simpl in Hc |- *;
    destruct Hc as (Hs & -> & Hb & Hc).
  - destruct (rebal_avl t x v (Z.max ho (ht r) + 1) r Ht Hs ltac:(lia))
      as (Ha & He & Hr).
    eapply IH; [exact Hc|exact Ha|].
    destruct (decide (-1 <= ht r - ht t <= 1)) as [Hin|Hout];
      [rewrite (He Hin)|]; lia.
  - destruct (rebal_avl l x v (Z.max (ht l) ho + 1) t Hs Ht ltac:(lia))
      as (Ha & He & Hr).
    eapply IH; [exact Hc|exact Ha|].
    destruct (decide (-1 <= ht t - ht l <= 1)) as [Hin|Hout];
      [rewrite (He Hin)|]; lia.
Qed.

Lemma avl_plug_inv c t : avl (plug c t) -> avl t /\ avl_ctx c (ht t).
Proof.
  revert t. induction c as [|f c IH]; intros t; simpl; [done|].
  intros H. apply IH in H as [Hf Hc].
  destruct f as [x v h r|l x v h]; simpl in *;
    destruct Hf as (? & ? & ? & ?); repeat split; auto; lia.
Qed.

Lemma avl_plug c t ho : avl_ctx c ho -> avl t -> ht t = ho -> avl (plug c t).
Proof.
  revert t ho. induction c as [|f c IH]; intros t ho Hc Ht <-; simpl; [done|].
  destruct f as [x v h r|l x v h]; simpl in *;
    destruct Hc as (? & ? & ? & ?); eapply IH; eauto; simpl;
    repeat split; auto; lia.
Qed.

(** ** The store and the trees it holds *)

Lemma repr_frame h h' p t :
  (forall z, z ∈ locs t -> h' !! z = h !! z) -> repr h p t -> repr h' p t.
Proof.
  revert p. induction t as [|l IHl x v ht_ r IHr]; intros p Hag; simpl; [done|].
  intros (Hx & Hl & Hr). split_and!.
  - rewrite Hag; [done|]. simpl. set_solver.
  - apply IHl; [|done]. intros z Hz. apply Hag. simpl. set_solver.
  - apply IHr; [|done]. intros z Hz. apply Hag. simpl. set_solver.
Qed.

Lemma repr_ctx_frame h h' c o :
  (forall z, z ∈ clocs c -> h' !! z = h !! z) ->
  repr_ctx h c o -> repr_ctx h' c o.
Proof.
  revert o. induction c as [|f c IH]; intros o Hag; simpl; [done|].
  unfold clocs in *.
  destruct f as [x v ht_ r|l x v ht_]; simpl in *; intros (Hx & Hs & Hc).
  - split_and!.
    + rewrite Hag; [done|]. set_solver.
    + eapply repr_frame; [|done]. intros z Hz. apply Hag. set_solver.
    + apply IH; [|done]. intros z Hz. apply Hag. set_solver.
  - split_and!.
    + rewrite Hag; [done|]. set_solver.
    + eapply repr_frame; [|done]. intros z Hz. apply Hag. set_solver.
    + apply IH; [|done]. intros z Hz. apply Hag. set_solver.
Qed.

Lemma repr_plug h c t :
  repr h None (plug c t) <-> repr_ctx h c (rootof t) /\ repr h (ctx_parent c) t.
Proof.
  revert t. induction c as [|f c IH]; intros t; simpl; [tauto|].
  rewrite IH. destruct f as [x v ht_ r|l x v ht_]; simpl; tauto.
Qed.

Lemma repr_lookup h p t z :
  repr h p t -> z ∈ locs t -> is_Some (h !! z).
Proof.
  revert p. induction t as [|l IHl x v ht_ r IHr]; intros p; simpl.
  - intros _ Hz. by apply elem_of_nil in Hz.
  - intros (Hx & Hl & Hr) Hz.
    apply elem_of_app in Hz as [Hz|Hz]; [by eapply IHl|].
    apply elem_of_cons in Hz as [->|Hz]; [by eexists|by eapply IHr].
Qed.

Lemma rootof_locs t x : rootof t = Some x -> x ∈ locs t.
Proof. destruct t; simpl; [done|]. intros [= ->]. set_solver. Qed.

(** Moving a represented subtree under another parent touches its root
    object only. *)
Lemma repr_reparent h h' p p' t :
  NoDup (locs t) ->
  (forall x n, rootof t = Some x -> h !! x = Some n ->
     h' !! x = Some (with_parent p' n)) ->
  (forall z, z ∈ locs t -> rootof t <> Some z -> h' !! z = h !! z) ->
  repr h p t -> repr h' p' t.
Proof.
  destruct t as [|l x v ht_ r]; simpl; [done|].
  intros Hnd Hroot Hag (Hx & Hl & Hr).
  apply NoDup_app in Hnd as (_ & Hlx & Hnd).
  apply NoDup_cons in Hnd as (Hxr & _).
  split_and!.
  - by rewrite (Hroot x _ eq_refl Hx).
  - eapply repr_frame; [|done]. intros z Hz. apply Hag; [set_solver|].
    intros [= ->]. set_solver.
  - eapply repr_frame; [|done]. intros z Hz. apply Hag; [set_solver|].
    intros [= ->]. set_solver.
Qed.

(** ** Counting occurrences: disjointness by arithmetic *)

Lemma cnt_app z l1 l2 : cnt z (l1 ++ l2) = (cnt z l1 + cnt z l2)%nat.
Proof. induction l1 as [|w l1 IH]; simpl; [done|]. rewrite IH. lia. Qed.

Lemma cnt_elem z l : z ∈ l <-> (1 <= cnt z l)%nat.
Proof.
  induction l as [|w l IH]; simpl.
  - split; [intros H; by apply elem_of_nil in H|lia].
  - rewrite elem_of_cons, IH. case_decide; subst.
    + split; [lia|auto].
    + split; [intros [->|?]; [done|lia]|intros; right; lia].
Qed.

Lemma NoDup_cnt l : NoDup l <-> forall z, (cnt z l <= 1)%nat.
Proof.
  induction l as [|w l IH]; simpl.
  - split; [intros _ z; lia|constructor].
  - rewrite NoDup_cons, IH. split.
    + intros [Hw H] z. specialize (H z). case_decide; [subst|lia].
      rewrite cnt_elem in Hw. lia.
    + intros H. split.
      * rewrite cnt_elem. specialize (H w). rewrite decide_True in H by done.
        lia.
      * intros z. specialize (H z). lia.
Qed.

Lemma dec_refl (z : loc) : (if decide (z = z) then 1 else 0)%nat = 1%nat.
Proof. by rewrite decide_True. Qed.

Ltac learn H :=
  let T := type of H in
  lazymatch goal with
  | _ : T |- _ => fail
  | _ => pose proof H
  end.

Lemma cnt_cons z w l :
  cnt z (w :: l) = ((if decide (w = z) then 1 else 0) + cnt z l)%nat.
Proof. done. Qed.

Lemma cnt_nil z : cnt z [] = 0%nat.
Proof. done. Qed.

Ltac cnt_norm :=
  repeat match goal with
  | H : context [cnt _ (_ ++ _)] |- _ => rewrite cnt_app in H
  | H : context [cnt _ (_ :: _)] |- _ => rewrite cnt_cons in H
  | H : context [cnt _ []] |- _ => rewrite cnt_nil in H
  | H : context [decide (?z = ?z)] |- _ => rewrite (dec_refl z) in H
  end.

(** Closes goals of the shapes [a <> b], [a ∉ l], [a ∈ l] and [False] from
    the [NoDup] and membership hypotheses at hand. *)
Ltac disj :=
  intros;
  try lazymatch goal with
      | |- _ <> _ => intros ?
      | |- _ ∉ _ => intros ?
      end;
  subst;
  try lazymatch goal with
      | |- _ ∈ _ => apply cnt_elem
      end;
  repeat match goal with
  | H : _ ∈ _ |- _ => apply cnt_elem in H
  | H : _ ∉ _ |- _ => rewrite cnt_elem in H
  end;
  repeat match goal with
  | H : NoDup ?l, z : positive |- _ =>
    learn (proj1 (NoDup_cnt l) H z)
  end;
  repeat first [rewrite cnt_app | rewrite cnt_cons | rewrite cnt_nil
               | rewrite dec_refl];
  cnt_norm; lia.

(** ** Running the primitives *)

Lemma bind_getf {A B} (f : Node -> A) x (k : A -> M B) s n :
  heap s !! x = Some n -> bind (getf f x) k s = k (f n) s.
Proof. intros H. unfold bind, getf. by rewrite H. Qed.

Lemma bind_setf {B} u x (k : unit -> M B) s n :
  heap s !! x = Some n ->
  bind (setf u x) k s = k tt (mkState (<[x := u n]> (heap s)) (root s) (size_ s)).
Proof. intros H. unfold bind, setf. by rewrite H. Qed.

Lemma setf_run u x s n :
  heap s !! x = Some n ->
  setf u x s = (Ok tt, mkState (<[x := u n]> (heap s)) (root s) (size_ s)).
Proof. intros H. unfold setf. by rewrite H. Qed.

Lemma getf_run {A} (f : Node -> A) x s n :
  heap s !! x = Some n -> getf f x s = (Ok (f n), s).
Proof. intros H. unfold getf. by rewrite H. Qed.

Lemma bind_ret {A B} (a : A) (k : A -> M B) s : bind (ret a) k s = k a s.
Proof. done. Qed.

Lemma bind_run {A B} (m : M A) (k : A -> M B) s a s' :
  m s = (Ok a, s') -> bind m k s = k a s'.
Proof. intros H. unfold bind. by rewrite H. Qed.

Lemma bind_assoc {A B C} (m : M A) (k : A -> M B) (k' : B -> M C) s :
  bind (bind m k) k' s = bind m (fun a => bind (k a) k') s.
Proof. unfold bind. destruct (m s) as [[a| | |] s']; done. Qed.

Ltac solve_lookup :=
  cbn [heap root size_];
  repeat first [ rewrite lookup_insert_eq
               | rewrite lookup_insert_ne by (done || disj) ];
  first [ reflexivity | eassumption ].

Lemma bind_set_root {B} r (k : unit -> M B) s :
  bind (set_root r) k s = k tt (mkState (heap s) r (size_ s)).
Proof. done. Qed.

Lemma bind_get_root {B} (k : option loc -> M B) s :
  bind get_root k s = k (root s) s.
Proof. done. Qed.

Lemma bind_add_size {B} d (k : unit -> M B) s :
  bind (add_size d) k s = k tt (mkState (heap s) (root s) (size_ s + d)).
Proof. done. Qed.

Lemma bind_hom1 {B} t p (k : Z -> M B) s h0 :
  repr h0 p t ->
  (forall z, rootof t = Some z -> heap s !! z = h0 !! z) ->
  bind (height_or_minus1 (rootof t)) k s = k (ht t) s.
Proof.
  destruct t as [|l x v ht_ r]; simpl; [done|].
  intros (Hx & _) Hag. rewrite <- (Hag x eq_refl) in Hx.
  by rewrite (bind_getf _ _ _ _ _ Hx).
Qed.

Ltac mnorm :=
  unfold with_value, with_parent, with_left, with_right, with_height;
  cbn [value parent left right height heap root size_ rootof ctx_parent floc
       ht height_or_minus1].

Ltac solve_agree :=
  let z := fresh "z" in let Hz := fresh "Hz" in
  intros z Hz; try apply rootof_locs in Hz; cbn [heap];
  rewrite ?lookup_insert_ne by disj; reflexivity.

Ltac mstep :=
  cbn [heap root size_];
  first
    [ match goal with
      | |- context [bind (bind ?m ?k) ?k'] => rewrite (bind_assoc m k k')
      end
    | rewrite bind_ret
    | rewrite bind_set_root
    | rewrite bind_get_root
    | rewrite bind_add_size
    | match goal with
      | |- context [bind (height_or_minus1 (rootof ?t)) _ _] =>
        erewrite (bind_hom1 t) by (first [eassumption | solve_agree])
      end
    | rewrite decide_True by reflexivity
    | rewrite decide_False by
        (let Hr := fresh in intros Hr; first [discriminate Hr | apply rootof_locs in Hr; disj])
    | erewrite bind_getf by solve_lookup
    | erewrite bind_setf by solve_lookup
    | erewrite setf_run by solve_lookup
    | erewrite getf_run by solve_lookup ];
  mnorm.

Ltac msteps := repeat mstep.

Ltac solve_agree_ctx :=
  let z := fresh "z" in let Hz := fresh "Hz" in
  intros z Hz; unfold clocs in Hz; cbn [heap];
  rewrite ?lookup_insert_ne by disj; reflexivity.

Ltac solve_repr :=
  repeat match goal with
  | |- _ /\ _ => split
  | |- True => exact I
  | |- repr _ _ (T _ _ _ _ _) => cbn [repr rootof ht]
  | |- repr _ _ E => exact I
  | |- repr_ctx _ [] _ => exact I
  | |- repr_ctx _ (_ :: _) _ => cbn [repr_ctx rootof ctx_parent floc]
  | |- repr _ _ _ => eapply repr_frame; [solve_agree | eassumption]
  | |- repr_ctx _ _ _ => eapply repr_ctx_frame; [solve_agree_ctx | eassumption]
  | |- _ !! _ = Some _ => solve_lookup
  end.

Lemma height_or_minus1_run h r z t p :
  repr h p t ->
  height_or_minus1 (rootof t) (mkState h r z) = (Ok (ht t), mkState h r z).
Proof.
  destruct t as [|l x v ht_ rr]; simpl; [done|].
  intros (Hx & _). by erewrite getf_run by eassumption.
Qed.

Lemma rotate_right_spec s c a y vy hy b x v h cc :
  srepr s (plug c (T (T a y vy hy b) x v h cc)) ->
  exists s', rotate_right x s = (Ok tt, s')
    /\ srepr s' (plug c (rotR (T (T a y vy hy b) x v h cc)))
    /\ size_ s' = size_ s.
Proof.
  destruct s as [hp rt sz]. intros (Hroot & Hrepr & Hnd).
  rewrite rootof_plug in Hroot. rewrite locs_plug in Hnd.
  apply repr_plug in Hrepr as (Hctx & Hx). 
  simpl in Hroot, Hx, Hnd. destruct Hx as (Hx & (Hy & Ha & Hb) & Hcc).
  unfold rotate_right, update_height.
  destruct b as [|bl g vg hg br]; destruct c as [|[p vp hp_ sib|sib p vp hp_] c'];
    cbn [repr repr_ctx rootof ctx_parent ctx_root floc] in *;
    cbn [locs llocs rlocs llocs_frame rlocs_frame] in Hnd;
    destruct_and?; msteps;
    (eexists; split; [reflexivity|]; split; [|done]);
    (split; [by rewrite rootof_plug|
      split; [|by rewrite locs_plug, locs_rotR]]).
  all: apply repr_plug; cbn [rotR rootof ctx_parent floc]; solve_repr.
Qed.

Lemma rotate_left_spec s c a y vy hy b x v h cc :
  srepr s (plug c (T a x v h (T b y vy hy cc))) ->
  exists s', rotate_left x s = (Ok tt, s')
    /\ srepr s' (plug c (rotL (T a x v h (T b y vy hy cc))))
    /\ size_ s' = size_ s.
Proof.
  destruct s as [hp rt sz]. intros (Hroot & Hrepr & Hnd).
  rewrite rootof_plug in Hroot. rewrite locs_plug in Hnd.
  apply repr_plug in Hrepr as (Hctx & Hx). 
  simpl in Hroot, Hx, Hnd. destruct Hx as (Hx & Ha & (Hy & Hb & Hcc)).
  unfold rotate_left, update_height.
  destruct b as [|bl g vg hg br]; destruct c as [|[p vp hp_ sib|sib p vp hp_] c'];
    cbn [repr repr_ctx rootof ctx_parent ctx_root floc] in *;
    cbn [locs llocs rlocs llocs_frame rlocs_frame] in Hnd;
    destruct_and?; msteps;
    (eexists; split; [reflexivity|]; split; [|done]);
    (split; [by rewrite rootof_plug|
      split; [|by rewrite locs_plug, locs_rotL]]).
  all: apply repr_plug; cbn [rotL rootof ctx_parent floc]; solve_repr.
Qed.
Lemma srepr_focus s c l x v h r :
  srepr s (plug c (T l x v h r)) ->
  heap s !! x = Some (mkNode v (ctx_parent c) (rootof l) (rootof r) h)
  /\ repr (heap s) (Some x) l /\ repr (heap s) (Some x) r.
Proof.
  intros (_ & Hr & _). apply repr_plug in Hr as (_ & Hr). exact Hr.
Qed.

Lemma update_height_spec s c l x v h r :
  srepr s (plug c (T l x v h r)) ->
  exists s', update_height x s = (Ok tt, s')
    /\ srepr s' (plug c (T l x v (Z.max (ht l) (ht r) + 1) r))
    /\ size_ s' = size_ s.
Proof.
  destruct s as [hp rt sz]. intros (Hroot & Hrepr & Hnd).
  rewrite rootof_plug in Hroot. rewrite locs_plug in Hnd.
  apply repr_plug in Hrepr as (Hctx & Hx).
  cbn [repr rootof locs] in *. destruct Hx as (Hx & Hl & Hr).
  unfold update_height. msteps.
  eexists; split; [reflexivity|]; split; [|done].
  split; [by rewrite rootof_plug|split; [|by rewrite locs_plug]].
  apply repr_plug. solve_repr.
Qed.

Lemma balance_factor_spec s c l x v h r :
  srepr s (plug c (T l x v h r)) ->
  balance_factor x s = (Ok (ht r - ht l), s).
Proof.
  destruct s as [hp rt sz]. intros Hs.
  apply srepr_focus in Hs as (Hx & Hl & Hr). cbn [heap] in *.
  unfold balance_factor. msteps. done.
Qed.
Lemma getf_focus {A B} (f : Node -> A) (k : A -> M B) s c l x v h r :
  srepr s (plug c (T l x v h r)) ->
  bind (getf f x) k s
  = k (f (mkNode v (ctx_parent c) (rootof l) (rootof r) h)) s.
Proof. intros Hs. apply srepr_focus in Hs as (Hx & _). by erewrite bind_getf. Qed.

Lemma balance_iter s c l x v h r :
  srepr s (plug c (T l x v h r)) -> avl l -> avl r ->
  -2 <= ht r - ht l <= 2 ->
  exists s' q,
    (forall fuel, balance_loop (S fuel) (Some x) s = balance_loop fuel q s')
    /\ srepr s' (plug c (rebal (T l x v h r)))
    /\ size_ s' = size_ s
    /\ ((-1 <= ht r - ht l <= 1 /\ q = ctx_parent c)
        \/ (~ (-1 <= ht r - ht l <= 1)
            /\ q = rootof (rebal (T l x v h r)))).
Proof.
  intros Hs Hl Hr Hd.
  destruct (update_height_spec _ _ _ _ _ _ _ Hs) as (s1 & Hupd & Hs1 & Hz1).
  pose proof (balance_factor_spec _ _ _ _ _ _ _ Hs1) as Hbf.
  pose proof (avl_ht _ Hl) as Hhl. pose proof (avl_ht _ Hr) as Hhr.
  unfold rebal. set (h1 := Z.max (ht l) (ht r) + 1) in *.
  destruct (Z.ltb_spec (ht r - ht l) (-1)) as [H1|H1].
  - destruct l as [|a y vy hy b]; [simpl in *; lia|].
    pose proof (balance_factor_spec s1 (InL x v h1 r :: c) _ _ _ _ _ Hs1) as Hbfl.
    destruct (Z.ltb_spec 0 (bf (T a y vy hy b))) as [H2|H2].
    + simpl in H2. destruct b as [|b1 z vz hz b2].
      { simpl in Hl. destruct Hl as (Ha & _ & -> & ?).
        apply avl_ht in Ha. simpl in *. lia. }
      destruct (rotate_left_spec s1 (InL x v h1 r :: c) _ _ _ _ _ _ _ _ _ Hs1)
        as (s2 & Hrl & Hs2 & Hz2).
      cbn [plug fill rotL] in Hs2.
      destruct (rotate_right_spec s2 c _ _ _ _ _ _ _ _ _ Hs2)
        as (s3 & Hrr & Hs3 & Hz3).
      exists s3, (Some z). split_and!.
      * intros fuel. cbn [balance_loop].
        rewrite (bind_run _ _ _ _ _ Hupd), (bind_run _ _ _ _ _ Hbf).
        apply Z.ltb_lt in H1 as H1'. rewrite H1'.
        rewrite !bind_assoc.
        rewrite (getf_focus _ _ _ _ _ _ _ _ _ Hs1). cbn [left rootof].
        rewrite !bind_assoc, (bind_run _ _ _ _ _ Hbfl).
        apply Z.ltb_lt in H2 as H2'. rewrite H2'.
        rewrite (bind_run _ _ _ _ _ Hrl), (bind_run _ _ _ _ _ Hrr).
        cbn [rotR] in Hs3.
        erewrite (getf_focus _ _ s3 (InR _ _ _ _ :: c)) by exact Hs3.
        done.
      * exact Hs3.
      * congruence.
      * right. split; [lia|done].
    + destruct (rotate_right_spec s1 c _ _ _ _ _ _ _ _ _ Hs1)
        as (s3 & Hrr & Hs3 & Hz3).
      exists s3, (Some y). split_and!.
      * intros fuel. cbn [balance_loop].
        rewrite (bind_run _ _ _ _ _ Hupd), (bind_run _ _ _ _ _ Hbf).
        apply Z.ltb_lt in H1 as H1'. rewrite H1'.
        rewrite !bind_assoc.
        rewrite (getf_focus _ _ _ _ _ _ _ _ _ Hs1). cbn [left rootof].
        rewrite !bind_assoc, (bind_run _ _ _ _ _ Hbfl).
        cbn [bf] in H2. apply Z.ltb_ge in H2 as H2'. rewrite H2'.
        rewrite bind_ret, (bind_run _ _ _ _ _ Hrr).
        cbn [rotR] in Hs3.
        erewrite (getf_focus _ _ s3 (InR _ _ _ _ :: c)) by exact Hs3.
        done.
      * exact Hs3.
      * congruence.
      * right. split; [lia|done].
  - destruct (Z.ltb_spec 1 (ht r - ht l)) as [H3|H3].
    + destruct r as [|b y vy hy cc]; [simpl in *; lia|].
      pose proof (balance_factor_spec s1 (InR l x v h1 :: c) _ _ _ _ _ Hs1) as Hbfr.
      destruct (Z.ltb_spec (bf (T b y vy hy cc)) 0) as [H2|H2].
      * simpl in H2. destruct b as [|b1 z vz hz b2].
        { simpl in Hr. destruct Hr as (_ & Hc & -> & ?).
          apply avl_ht in Hc. simpl in *. lia. }
        destruct (rotate_right_spec s1 (InR l x v h1 :: c) _ _ _ _ _ _ _ _ _ Hs1)
          as (s2 & Hrl & Hs2 & Hz2).
        cbn [plug fill rotR] in Hs2.
        destruct (rotate_left_spec s2 c _ _ _ _ _ _ _ _ _ Hs2)
          as (s3 & Hrr & Hs3 & Hz3).
        exists s3, (Some z). split_and!.
        -- intros fuel. cbn [balance_loop].
           rewrite (bind_run _ _ _ _ _ Hupd), (bind_run _ _ _ _ _ Hbf).
           apply Z.ltb_ge in H1 as H1'. rewrite H1'.
           apply Z.ltb_lt in H3 as H3'. rewrite H3'.
           rewrite !bind_assoc.
           rewrite (getf_focus _ _ _ _ _ _ _ _ _ Hs1). cbn [right rootof].
           rewrite !bind_assoc, (bind_run _ _ _ _ _ Hbfr).
           apply Z.ltb_lt in H2 as H2'. rewrite H2'.
           rewrite (bind_run _ _ _ _ _ Hrl), (bind_run _ _ _ _ _ Hrr).
           cbn [rotL] in Hs3.
           erewrite (getf_focus _ _ s3 (InL _ _ _ _ :: c)) by exact Hs3.
           done.
        -- exact Hs3.
        -- congruence.
        -- right. split; [lia|done].
      * destruct (rotate_left_spec s1 c _ _ _ _ _ _ _ _ _ Hs1)
          as (s3 & Hrr & Hs3 & Hz3).
        exists s3, (Some y). split_and!.
        -- intros fuel. cbn [balance_loop].
           rewrite (bind_run _ _ _ _ _ Hupd), (bind_run _ _ _ _ _ Hbf).
           apply Z.ltb_ge in H1 as H1'. rewrite H1'.
           apply Z.ltb_lt in H3 as H3'. rewrite H3'.
           rewrite !bind_assoc.
           rewrite (getf_focus _ _ _ _ _ _ _ _ _ Hs1). cbn [right rootof].
           rewrite !bind_assoc, (bind_run _ _ _ _ _ Hbfr).
           cbn [bf] in H2. apply Z.ltb_ge in H2 as H2'. rewrite H2'.
           rewrite bind_ret, (bind_run _ _ _ _ _ Hrr).
           cbn [rotL] in Hs3.
           erewrite (getf_focus _ _ s3 (InL _ _ _ _ :: c)) by exact Hs3.
           done.
        -- exact Hs3.
        -- congruence.
        -- right. split; [lia|done].
    + exists s1, (ctx_parent c). split_and!.
      * intros fuel. cbn [balance_loop].
        rewrite (bind_run _ _ _ _ _ Hupd), (bind_run _ _ _ _ _ Hbf).
        apply Z.ltb_ge in H1 as H1'. rewrite H1'.
        apply Z.ltb_ge in H3 as H3'. rewrite H3'.
        rewrite bind_ret. by rewrite (getf_focus _ _ _ _ _ _ _ _ _ Hs1).
      * exact Hs1.
      * done.
      * left. split; [lia|done].
Qed.
Lemma rebal_node l x v h r :
  exists l' x' v' h' r', rebal (T l x v h r) = T l' x' v' h' r'.
Proof.
  unfold rebal.
  destruct (_ <? -1).
  - destruct (0 <? bf l); [destruct l as [|a y vy hy [|? ? ? ? ?]]|destruct l];
      simpl; eauto 10.
  - destruct (1 <? _); [|eauto 10].
    destruct (bf r <? 0); [destruct r as [|[|? ? ? ? ?] y vy hy cc]|destruct r];
      simpl; eauto 10.
Qed.

Lemma balance_loop_None fuel s : balance_loop fuel None s = (Ok tt, s).
Proof. by destruct fuel. Qed.

Lemma balance_loop_tail c : forall t ho s fuel,
  srepr s (plug c t) -> avl_ctx c ho -> avl t -> -1 <= ht t - ho <= 1 ->
  (2 * length c <= fuel)%nat ->
  exists s', balance_loop fuel (ctx_parent c) s = (Ok tt, s')
    /\ srepr s' (walk_up c t) /\ size_ s' = size_ s.
Proof.
  induction c as [|f c IH]; intros t ho s fuel Hs Hc Ht Hd Hfuel.
  { exists s. by rewrite balance_loop_None. }
  cbn [length] in Hfuel.
  destruct fuel as [|[|fuel]]; [lia..|].
  pose proof (avl_ht _ Ht) as Hht.
  assert (exists l x v h r, fill f t = T l x v h r /\ floc f = x /\ avl l /\ avl r
            /\ -2 <= ht r - ht l <= 2 /\ avl_ctx c h
            /\ (forall t', avl t' ->
                  ((-1 <= ht r - ht l <= 1 ->
                    ht t' = Z.max (ht l) (ht r) + 1) /\
                   Z.max (ht l) (ht r) <= ht t' <= Z.max (ht l) (ht r) + 1) ->
                  -1 <= ht t' - h <= 1))
    as (l & x & v & h & r & Hfill & Hx & Hl & Hr & Hd2 & Hc' & Harith).
  { destruct f as [x v h r|l x v h]; simpl in Hc |- *;
      destruct Hc as (Hsib & -> & Hb & Hc); do 5 eexists;
      (split; [reflexivity|]; split; [reflexivity|]; split; [done|];
       split; [done|]; split; [lia|]; split; [exact Hc|]);
      intros t' _ [He Hr].
    - destruct (decide (-1 <= ht r - ht t <= 1)) as [Hin|Hout];
        [rewrite (He Hin)|]; lia.
    - destruct (decide (-1 <= ht t - ht l <= 1)) as [Hin|Hout];
        [rewrite (He Hin)|]; lia. }
  cbn [ctx_parent walk_up]. rewrite walk_walk_up. cbn [plug] in Hs.
  rewrite Hfill in *. rewrite Hx. clear Hfill Hx.
  destruct (rebal_avl l x v h r Hl Hr Hd2) as (Ha & He & Hrg).
  destruct (balance_iter _ _ _ _ _ _ _ Hs Hl Hr Hd2)
    as (s1 & q & Hrun & Hs1 & Hz1 & Hq).
  rewrite Hrun.
  specialize (Harith _ Ha (conj He Hrg)).
  destruct Hq as [[_ ->]|[_ ->]].
  - destruct (IH _ _ s1 (S fuel) Hs1 Hc' Ha Harith ltac:(lia))
      as (s' & Hrun' & Hs' & Hz').
    exists s'. split_and!; [done|done|congruence].
  - destruct (rebal_node l x v h r) as (l' & x' & v' & h' & r' & Heq).
    rewrite Heq in *. cbn [rootof].
    pose proof Ha as (Hl' & Hr' & Hh' & Hd').
    destruct (balance_iter _ _ _ _ _ _ _ Hs1 Hl' Hr' ltac:(lia))
      as (s2 & q2 & Hrun2 & Hs2 & Hz2 & Hq2).
    rewrite Hrun2. rewrite (rebal_avl_id _ Ha) in Hs2.
    destruct Hq2 as [[_ ->]|[Hn _]]; [|lia].
    destruct (IH _ _ s2 fuel Hs2 Hc' Ha Harith ltac:(lia))
      as (s' & Hrun' & Hs' & Hz').
    exists s'. split_and!; [done|done|congruence].
Qed.

Lemma balance_spec c t s fuel ho x :
  srepr s (plug c t) -> rootof t = Some x -> avl_ctx c ho -> avl t ->
  -1 <= ht t - ho <= 1 -> (2 * length c + 1 <= fuel)%nat ->
  exists s', balance fuel x s = (Ok tt, s')
    /\ srepr s' (walk c t) /\ size_ s' = size_ s.
Proof.
  intros Hs Hx Hc Ht Hd Hfuel. unfold balance.
  destruct t as [|l x' v h r]; [done|]. injection Hx as ->.
  destruct fuel as [|fuel]; [lia|].
  pose proof Ht as (Hl & Hr & Hh & Hd').
  destruct (balance_iter _ _ _ _ _ _ _ Hs Hl Hr ltac:(lia))
    as (s1 & q & Hrun & Hs1 & Hz1 & Hq).
  rewrite Hrun. rewrite walk_walk_up. rewrite (rebal_avl_id _ Ht) in *.
  destruct Hq as [[_ ->]|[Hn _]]; [|lia].
  destruct (balance_loop_tail c _ _ s1 fuel Hs1 Hc Ht Hd ltac:(lia))
    as (s' & Hrun' & Hs' & Hz').
  exists s'. split_and!; [done|done|congruence].
Qed.
Lemma search_loop_None fuel sn res s :
  search_loop fuel sn None res s = (Ok res, s).
Proof. by destruct fuel. Qed.

Lemma search_loop_spec t : forall c p s fuel sn nsn x0,
  rootof t = Some x0 ->
  repr (heap s) p t -> heap s !! sn = Some nsn ->
  (depth t <= fuel)%nat ->
  search_loop fuel sn (rootof t) (mkResult None None) s
  = (Ok (result_of (descend (value nsn) c t)), s).
Proof.
  induction t as [|l IHl x v h r IHr]; intros c p s fuel sn nsn x0 Hx0;
    [done|].
  intros (Hx & Hl & Hr) Hsn Hfuel. cbn [depth] in Hfuel.
  destruct fuel as [|fuel]; [lia|].
  cbn [rootof search_loop descend].
  erewrite bind_getf by eassumption. erewrite bind_getf by eassumption.
  cbn [value insert_place searched_node].
  destruct (v =? value nsn); [done|].
  destruct (value nsn <? v).
  - erewrite bind_getf by eassumption. cbn [left].
    destruct l as [|ll lx lv lh lr].
    + cbn [rootof]. by rewrite search_loop_None.
    + eapply IHl; [done|exact Hl|exact Hsn|lia].
  - erewrite bind_getf by eassumption. cbn [right].
    destruct r as [|rl rx rv rh rr].
    + cbn [rootof]. by rewrite search_loop_None.
    + eapply IHr; [done|exact Hr|exact Hsn|lia].
Qed.

Lemma search_node_spec t s fuel sn nsn :
  srepr s t -> heap s !! sn = Some nsn -> (depth t <= fuel)%nat ->
  search_node fuel sn s
  = (Ok (result_of (descend (value nsn) [] t)), s).
Proof.
  intros (Hroot & Hrepr & _) Hsn Hfuel. unfold search_node.
  rewrite bind_get_root, Hroot.
  destruct t as [|l x v h r].
  - by rewrite search_loop_None.
  - by eapply search_loop_spec.
Qed.

Lemma depth_le_length t : (depth t <= length (locs t))%nat.
Proof.
  induction t as [|l IHl x v h r IHr]; simpl; [lia|].
  rewrite length_app. simpl. lia.
Qed.
(** ** The search path *)

Lemma descend_plug k t : forall c c' t',
  descend k c t = (c', t') -> plug c' t' = plug c t.
Proof.
  induction t as [|l IHl x v h r IHr]; intros c c' t'; simpl.
  - by intros [= <- <-].
  - destruct (v =? k); [by intros [= <- <-]|].
    destruct (k <? v); intros H; [apply IHl in H|apply IHr in H]; done.
Qed.

Lemma descend_found k t : forall c c' l x v h r,
  descend k c t = (c', T l x v h r) -> v = k.
Proof.
  induction t as [|tl IHl tx tv th tr IHr]; intros c c' l x v h r; simpl.
  - done.
  - destruct (Z.eqb_spec tv k); [by intros [= <- <- <- <- <- <-]|].
    destruct (k <? tv); eauto.
Qed.

Lemma descend_dir k t : forall c c' t',
  descend k c t = (c', t') -> Forall (dir_ok k) c -> Forall (dir_ok k) c'.
Proof.
  induction t as [|l IHl x v h r IHr]; intros c c' t'; simpl.
  - by intros [= <- <-].
  - destruct (Z.eqb_spec v k); [by intros [= <- <-]|].
    destruct (Z.ltb_spec k v); intros Hd Hc.
    + eapply IHl; [exact Hd|]. constructor; [simpl; lia|done].
    + eapply IHr; [exact Hd|]. constructor; [simpl; lia|done].
Qed.

Lemma descend_bounds k t : forall c c' t',
  sorted (keys t) -> descend k c t = (c', t') ->
  Forall (fun j => j < k) (lkeys c) -> Forall (fun j => k < j) (rkeys c) ->
  Forall (fun j => j < k) (lkeys c') /\ Forall (fun j => k < j) (rkeys c').
Proof.
  induction t as [|l IHl x v h r IHr]; intros c c' t'; simpl.
  - by intros _ [= <- <-].
  - intros Hs. apply sorted_app in Hs as (Hsl & [Hvr Hsr] & Hlr).
    destruct (Z.eqb_spec v k); [by intros [= <- <-]|].
    destruct (Z.ltb_spec k v); intros Hd Hlc Hrc.
    + eapply IHl; [exact Hsl|exact Hd|by simpl; rewrite app_nil_r|]. simpl.
      constructor; [done|]. apply Forall_app. split; [|done].
      eapply Forall_impl; [exact Hvr|]. simpl. lia.
    + eapply IHr; [exact Hsr|exact Hd| |done]. simpl.
      rewrite !Forall_app. split_and!; [done| |repeat constructor; lia].
      eapply Forall_impl; [exact Hlr|]. simpl. intros j Hj.
      apply Forall_cons in Hj as [Hj _]. lia.
Qed.

Lemma descend_length k t : forall c c' t',
  descend k c t = (c', t') ->
  (length c' + depth t' <= length c + depth t)%nat.
Proof.
  induction t as [|l IHl x v h r IHr]; intros c c' t'; simpl.
  - intros [= <- <-]. simpl. lia.
  - destruct (v =? k); [intros [= <- <-]; simpl; lia|].
    destruct (k <? v); intros H; [apply IHl in H|apply IHr in H];
      simpl in H; lia.
Qed.

(** What the search path says about membership. *)
Lemma descend_absent k t c :
  bst t -> descend k [] t = (c, E) ->
  (k ∉ keys t) /\ keys t = lkeys c ++ rkeys c
  /\ sorted (lkeys c ++ k :: rkeys c).
Proof.
  intros Hs Hd.
  destruct (descend_bounds k t [] c E Hs Hd) as [Hl Hr]; [constructor..|].
  apply descend_plug in Hd. simpl in Hd. subst t. unfold bst in Hs.
  rewrite keys_plug in *. simpl in *.
  rewrite Forall_forall in Hl. rewrite Forall_forall in Hr.
  split_and!; [|done|].
  - intros Hin. apply elem_of_app in Hin as [Hin|Hin];
      [apply Hl in Hin|apply Hr in Hin]; lia.
  - apply sorted_app in Hs as (Hsl & Hsr & Hlr).
    apply sorted_app. split_and!; [done| |].
    + simpl. split; [by apply Forall_forall|done].
    + rewrite Forall_forall in Hlr |- *. intros j Hj.
      constructor; [by apply Hl|by apply Hlr].
Qed.

Lemma descend_present k t c l x v h r :
  descend k [] t = (c, T l x v h r) -> v = k /\ k ∈ keys t.
Proof.
  intros Hd. pose proof (descend_found _ _ _ _ _ _ _ _ _ Hd) as ->.
  split; [done|]. apply descend_plug in Hd. simpl in Hd. subst t.
  rewrite keys_plug. simpl. set_solver.
Qed.
(** ** Insertion *)

Lemma NoDup_middle (x : loc) l1 l2 :
  NoDup (l1 ++ l2) -> x ∉ l1 ++ l2 -> NoDup (l1 ++ x :: l2).
Proof.
  intros Hnd Hx. rewrite <- Permutation_middle. by apply NoDup_cons.
Qed.

Lemma bst_insert_spec s t x k fuel :
  srepr s t -> heap s !! x = Some (new_Node k) -> x ∉ locs t ->
  (depth t <= fuel)%nat ->
  match descend k [] t with
  | (c, E) =>
    Forall (dir_ok k) c ->
    exists s', bst_insert fuel x s = (Ok true, s')
      /\ srepr s' (plug c (T E x k 0 E)) /\ size_ s' = size_ s + 1
  | (_, T _ _ _ _ _) => bst_insert fuel x s = (Ok false, s)
  end.
Proof.
  intros Hs Hx Hfresh Hfuel. unfold bst_insert.
  rewrite (bind_run _ _ _ _ _ (search_node_spec _ _ _ _ _ Hs Hx Hfuel)).
  cbn [value new_Node].
  destruct (descend k [] t) as [c [|l y v h r]] eqn:Hd; [|done].
  apply descend_plug in Hd. cbn [plug] in Hd. subst t.
  cbn [result_of is_found searched_node insert_place].
  intros Hdir.
  destruct s as [hp rt sz]. destruct Hs as (Hroot & Hrepr & Hnd).
  rewrite rootof_plug in Hroot. rewrite locs_plug in Hnd, Hfresh.
  apply repr_plug in Hrepr as (Hctx & _).
  unfold new_Node in Hx.
  destruct c as [|[p vp hp_ sib|sib p vp hp_] c'];
    cbn [repr repr_ctx rootof ctx_parent ctx_root floc heap] in *;
    cbn [locs llocs rlocs llocs_frame rlocs_frame] in Hnd, Hfresh;
    destruct_and?.
  - msteps. eexists; split; [reflexivity|]; split; [|done].
    split; [done|]. split; [|repeat constructor; set_solver].
    cbn [plug]. solve_repr.
  - apply Forall_cons in Hdir as [Hk _]. cbn [dir_ok] in Hk.
    apply Z.ltb_lt in Hk. msteps. rewrite Hk. msteps.
    eexists; split; [reflexivity|]; split; [|done].
    split; [by rewrite rootof_plug|]. split.
    + apply repr_plug. solve_repr.
    + rewrite locs_plug. cbn [locs llocs rlocs llocs_frame rlocs_frame].
      rewrite app_nil_r in *. cbn [app]. by apply NoDup_middle.
  - apply Forall_cons in Hdir as [Hk _]. cbn [dir_ok] in Hk.
    assert ((k <? vp) = false) as Hk' by lia. msteps. rewrite Hk'. msteps.
    eexists; split; [reflexivity|]; split; [|done].
    split; [by rewrite rootof_plug|]. split.
    + apply repr_plug. solve_repr.
    + rewrite locs_plug. cbn [locs llocs rlocs llocs_frame rlocs_frame].
      cbn [app] in *. by apply NoDup_middle.
Qed.
Lemma insert_tree_spec x k t :
  bst t -> avl t ->
  match insert_tree x k t with
  | Some t' =>
    (k ∉ keys t) /\ bst t' /\ avl t'
    /\ (exists l1 l2, keys t = l1 ++ l2 /\ keys t' = l1 ++ k :: l2)
    /\ (exists l1 l2, locs t = l1 ++ l2 /\ locs t' = l1 ++ x :: l2)
  | None => k ∈ keys t
  end.
Proof.
  intros Hb Ha. unfold insert_tree.
  destruct (descend k [] t) as [c [|l y v h r]] eqn:Hd.
  - destruct (descend_absent _ _ _ Hb Hd) as (Hk & Hkeys & Hsorted).
    apply descend_plug in Hd. cbn [plug] in Hd. subst t.
    apply avl_plug_inv in Ha as [_ Hc]. cbn [ht] in Hc.
    split_and!.
    + done.
    + unfold bst. rewrite keys_walk, keys_plug. exact Hsorted.
    + assert (avl (T E x k 0 E)) as Hleaf by (simpl; repeat split; lia).
      rewrite walk_walk_up, (rebal_avl_id _ Hleaf).
      eapply walk_up_avl; [exact Hc|exact Hleaf|simpl; lia].
    + exists (lkeys c), (rkeys c). rewrite keys_walk, !keys_plug. done.
    + exists (llocs c), (rlocs c). rewrite locs_walk, !locs_plug. done.
  - by destruct (descend_present _ _ _ _ _ _ _ _ Hd).
Qed.

Lemma alloc_srepr s t n :
  srepr s t ->
  let x := fresh (dom (heap s)) in
  let s' := mkState (<[x := n]> (heap s)) (root s) (size_ s) in
  alloc n s = (Ok x, s') /\ srepr s' t /\ (x ∉ locs t)
  /\ heap s ⊆ heap s' /\ heap s !! x = None.
Proof.
  intros (Hroot & Hrepr & Hnd) x s'.
  assert (heap s !! x = None) as Hx.
  { apply not_elem_of_dom. apply is_fresh. }
  assert (x ∉ locs t) as Hfresh.
  { intros Hin. destruct (repr_lookup _ _ _ _ Hrepr Hin) as [? ?]. congruence. }
  split_and!; [done| |done| |done].
  - split_and!; [done| |done]. eapply repr_frame; [|exact Hrepr].
    intros z Hz. cbn [heap s']. apply lookup_insert_ne. congruence.
  - by apply insert_subseteq.
Qed.

Lemma insert_spec s t k fuel :
  srepr s t -> bst t -> avl t -> (2 * depth t + 1 <= fuel)%nat ->
  exists s',
    match insert_tree (fresh (dom (heap s))) k t with
    | Some t' =>
      insert fuel (PyInt k) s = (Ok true, s')
      /\ srepr s' t' /\ size_ s' = size_ s + 1
    | None =>
      insert fuel (PyInt k) s = (Ok false, s')
      /\ srepr s' t /\ size_ s' = size_ s /\ root s' = root s
      /\ heap s ⊆ heap s'
    end.
Proof.
  intros Hs Hb Ha Hfuel.
  destruct (alloc_srepr s t (new_Node k) Hs) as (Hal & Hs0 & Hfresh & Hsub & Hnone).
  set (x := fresh (dom (heap s))) in *.
  set (s0 := mkState (<[x := new_Node k]> (heap s)) (root s) (size_ s)) in *.
  assert (heap s0 !! x = Some (new_Node k)) as Hx by apply lookup_insert_eq.
  pose proof (bst_insert_spec s0 t x k fuel Hs0 Hx Hfresh ltac:(lia)) as Hins.
  unfold insert, insert_tree. cbn [create_node_from_value].
  rewrite (bind_run _ _ _ _ _ Hal).
  destruct (descend k [] t) as [c [|l y v h r]] eqn:Hd.
  - destruct Hins as (s1 & Hrun & Hs1 & Hz1).
    { eapply descend_dir; [exact Hd|constructor]. }
    rewrite (bind_run _ _ _ _ _ Hrun). cbn [negb].
    pose proof (descend_length _ _ _ _ _ Hd) as Hlen. simpl in Hlen.
    apply descend_plug in Hd. cbn [plug] in Hd. subst t.
    apply avl_plug_inv in Ha as [_ Hc]. cbn [ht] in Hc.
    destruct (balance_spec c (T E x k 0 E) s1 fuel (-1) x Hs1 eq_refl Hc)
      as (s2 & Hrun2 & Hs2 & Hz2);
      [simpl; repeat split; lia|simpl; lia|lia|].
    rewrite (bind_run _ _ _ _ _ Hrun2).
    exists s2. split_and!; [done|done|by rewrite Hz2, Hz1].
  - rewrite (bind_run _ _ _ _ _ Hins). cbn [negb].
    exists s0. split_and!; done.
Qed.
(** ** Removal *)

Ltac nodup_sub :=
  let z := fresh "z" in
  apply NoDup_cnt; intros z;
  repeat match goal with
  | H : NoDup ?l |- _ => pose proof (proj1 (NoDup_cnt l) H z); clear H
  end;
  repeat first [rewrite cnt_app | rewrite cnt_cons | rewrite cnt_nil];
  cnt_norm; lia.

Lemma bst_remove_leaf_spec s c l x v h r :
  srepr s (plug c (T l x v h r)) ->
  match l, r with
  | E, E =>
    exists s', bst_remove_leaf x s = (Ok (Some x), s')
      /\ srepr s' (plug c E) /\ size_ s' = size_ s - 1
      /\ heap s' !! x = heap s !! x
  | _, _ => bst_remove_leaf x s = (Ok None, s)
  end.
Proof.
  destruct s as [hp rt sz]. intros (Hroot & Hrepr & Hnd).
  rewrite rootof_plug in Hroot. rewrite locs_plug in Hnd.
  apply repr_plug in Hrepr as (Hctx & Hx).
  unfold bst_remove_leaf.
  destruct l as [|ll lx lv lh lr]; destruct r as [|rl rx rv rh rr];
    cbn [repr rootof] in Hx; destruct Hx as (Hx & Hl & Hr);
    [|by msteps..].
  destruct c as [|[p vp hp_ sib|sib p vp hp_] c'];
    cbn [repr repr_ctx rootof ctx_parent ctx_root floc heap] in *;
    cbn [locs llocs rlocs llocs_frame rlocs_frame] in Hnd;
    destruct_and?; msteps;
    (eexists; split; [reflexivity|]; split; [|split; [done|]]).
  - split; [done|]. split; [done|constructor].
  - done.
  - split; [by rewrite rootof_plug|]. split; [apply repr_plug; solve_repr|].
    rewrite locs_plug. cbn [locs llocs rlocs llocs_frame rlocs_frame].
    nodup_sub.
  - solve_lookup.
  - split; [by rewrite rootof_plug|]. split; [apply repr_plug; solve_repr|].
    rewrite locs_plug. cbn [locs llocs rlocs llocs_frame rlocs_frame].
    nodup_sub.
  - solve_lookup.
Qed.
Lemma bst_remove_one_child_spec s c l x v h r :
  srepr s (plug c (T l x v h r)) ->
  match one_child l r with
  | Some ch =>
    exists s', bst_remove_one_child_node x s = (Ok (Some x), s')
      /\ srepr s' (plug c ch) /\ size_ s' = size_ s - 1
      /\ heap s' !! x = heap s !! x
  | None => bst_remove_one_child_node x s = (Ok None, s)
  end.
Proof.
  destruct s as [hp rt sz]. intros (Hroot & Hrepr & Hnd).
  rewrite rootof_plug in Hroot. rewrite locs_plug in Hnd.
  apply repr_plug in Hrepr as (Hctx & Hx).
  unfold bst_remove_one_child_node.
  destruct l as [|ll lx lv lh lr]; destruct r as [|rl rx rv rh rr];
    cbn [repr rootof one_child] in Hx |- *; destruct Hx as (Hx & Hl & Hr).
  - msteps. by rewrite bool_decide_eq_true_2.
  - msteps. rewrite bool_decide_eq_false_2 by (intros [H1 _]; by specialize (H1 eq_refl)).
    destruct c as [|[p vp hp_ sib|sib p vp hp_] c'];
    cbn [repr repr_ctx rootof ctx_parent ctx_root floc heap] in *;
    cbn [locs llocs rlocs llocs_frame rlocs_frame] in Hnd;
    destruct_and?; msteps;
    (eexists; split; [reflexivity|]; split; [|split; [done|solve_lookup]]);
    (split; [by rewrite rootof_plug|]; split; [apply repr_plug; solve_repr|]);
    rewrite locs_plug; cbn [locs llocs rlocs llocs_frame rlocs_frame];
    nodup_sub.
  - msteps. rewrite bool_decide_eq_false_2 by (intros [_ H1]; by specialize (H1 eq_refl)).
    destruct c as [|[p vp hp_ sib|sib p vp hp_] c'];
    cbn [repr repr_ctx rootof ctx_parent ctx_root floc heap] in *;
    cbn [locs llocs rlocs llocs_frame rlocs_frame] in Hnd;
    destruct_and?; msteps;
    (eexists; split; [reflexivity|]; split; [|split; [done|solve_lookup]]);
    (split; [by rewrite rootof_plug|]; split; [apply repr_plug; solve_repr|]);
    rewrite locs_plug; cbn [locs llocs rlocs llocs_frame rlocs_frame];
    nodup_sub.
  - msteps. rewrite bool_decide_eq_true_2; [done|]. split; discriminate.
Qed.
Lemma spine_plug l : forall c x v h r c' sx sv sh sr,
  spine c l x v h r = (c', (sx, sv, sh, sr)) ->
  plug c' (T E sx sv sh sr) = plug c (T l x v h r).
Proof.
  induction l as [|ll IHl lx lv lh lr _]; intros c x v h r c' sx sv sh sr;
    simpl.
  - by intros [= <- <- <- <- <-].
  - intros H. by apply IHl in H.
Qed.

Lemma spine_app l : forall c x v h r,
  spine c l x v h r
  = (fst (spine [] l x v h r) ++ c, snd (spine [] l x v h r)).
Proof.
  induction l as [|ll IHl lx lv lh lr _]; intros c x v h r; simpl; [done|].
  rewrite IHl, (IHl [_]). simpl. by rewrite <- app_assoc.
Qed.

Lemma spine_length l : forall c x v h r,
  (length (fst (spine c l x v h r)) <= length c + depth l)%nat.
Proof.
  induction l as [|ll IHl lx lv lh lr _]; intros c x v h r; simpl; [lia|].
  specialize (IHl (InL x v h r :: c) lx lv lh lr). simpl in IHl. lia.
Qed.

Lemma successor_loop_spec l : forall c x v h r p s fuel,
  repr (heap s) p (T l x v h r) -> (depth l <= fuel)%nat ->
  successor_loop fuel x s
  = (Ok (fst (fst (fst (snd (spine c l x v h r))))), s).
Proof.
  induction l as [|ll IHl lx lv lh lr _]; intros c x v h r p s fuel.
  - intros (Hx & _) _. destruct fuel; simpl;
      by erewrite bind_getf by eassumption.
  - intros (Hx & Hl & _) Hfuel. cbn [depth] in Hfuel.
    destruct fuel as [|fuel]; [lia|]. cbn [successor_loop spine].
    erewrite bind_getf by eassumption. cbn [left rootof].
    eapply IHl; [exact Hl|lia].
Qed.

Lemma set_value_spec s c l x v h r v' :
  srepr s (plug c (T l x v h r)) ->
  exists s', setf (with_value v') x s = (Ok tt, s')
    /\ srepr s' (plug c (T l x v' h r)) /\ size_ s' = size_ s.
Proof.
  destruct s as [hp rt sz]. intros (Hroot & Hrepr & Hnd).
  rewrite rootof_plug in Hroot. rewrite locs_plug in Hnd.
  apply repr_plug in Hrepr as (Hctx & Hx).
  cbn [repr rootof locs] in *. destruct Hx as (Hx & Hl & Hr).
  msteps.
  eexists; split; [reflexivity|]; split; [|done].
  split; [by rewrite rootof_plug|split; [|by rewrite locs_plug]].
  apply repr_plug. solve_repr.
Qed.

Lemma bst_remove_two_child_spec s c ll lx lv lh lr x v h rl rx rv rh rr fuel :
  let l := T ll lx lv lh lr in
  let r := T rl rx rv rh rr in
  srepr s (plug c (T l x v h r)) -> (depth r <= fuel)%nat ->
  forall sc sx sv sh sr,
  spine [] rl rx rv rh rr = (sc, (sx, sv, sh, sr)) ->
  exists s' n, bst_remove_two_child_node fuel x s = (Ok (Some sx), s')
    /\ srepr s' (plug (sc ++ InR l x sv h :: c) sr)
    /\ size_ s' = size_ s - 1
    /\ heap s' !! sx = Some n
    /\ parent n = ctx_parent (sc ++ InR l x sv h :: c).
Proof.
  intros l r Hs Hfuel sc sx sv sh sr Hsp.
  pose proof (srepr_focus _ _ _ _ _ _ _ Hs) as (Hx & Hl & Hr).
  pose proof (successor_loop_spec rl [] rx rv rh rr _ s fuel Hr
                ltac:(simpl in Hfuel; lia)) as Hsucc.
  rewrite Hsp in Hsucc. cbn [fst snd] in Hsucc.
  pose proof (spine_plug _ _ _ _ _ _ _ _ _ _ _ Hsp) as Hplug.
  cbn [plug] in Hplug.
  unfold bst_remove_two_child_node.
  erewrite bind_getf by eassumption. erewrite bind_getf by eassumption.
  cbn [left right rootof l r].
  rewrite (bind_run _ _ _ _ _ Hsucc).
  assert (forall w, plug c (T l x w h r)
                    = plug (sc ++ InR l x w h :: c) (T E sx sv sh sr)) as Hre.
  { intros w. rewrite plug_app. cbn [plug fill]. by rewrite Hplug. }
  rewrite Hre in Hs.
  erewrite getf_focus by exact Hs. cbn [value].
  rewrite <- Hre in Hs.
  destruct (set_value_spec _ _ _ _ _ _ _ sv Hs) as (s1 & Hset & Hs1 & Hz1).
  rewrite (bind_run _ _ _ _ _ Hset).
  rewrite Hre in Hs1.
  pose proof (srepr_focus _ _ _ _ _ _ _ Hs1) as (Hsx & _).
  pose proof (bst_remove_one_child_spec _ _ _ _ _ _ _ Hs1) as Hone.
  pose proof (bst_remove_leaf_spec _ _ _ _ _ _ _ Hs1) as Hleaf.
  destruct sr as [|sl sx' sv' sh' sr']; cbn [one_child] in Hone.
  - rewrite (bind_run _ _ _ _ _ Hone).
    destruct Hleaf as (s2 & Hrun & Hs2 & Hz2 & Hsame).
    rewrite bind_assoc, (bind_run _ _ _ _ _ Hrun), !bind_ret.
    eexists s2, _. split_and!; [done|done|lia|by rewrite Hsame|done].
  - destruct Hone as (s2 & Hrun & Hs2 & Hz2 & Hsame).
    rewrite (bind_run _ _ _ _ _ Hrun), !bind_ret.
    eexists s2, _. split_and!; [done|done|lia|by rewrite Hsame|done].
Qed.
Lemma bst_remove_spec s t sn nsn fuel :
  srepr s t -> heap s !! sn = Some nsn -> (depth t <= fuel)%nat ->
  match descend (value nsn) [] t with
  | (_, E) => bst_remove fuel sn s = (Ok None, s)
  | (c, T l x v h r) =>
    exists s' n, bst_remove fuel sn s = (Ok (Some (victim l x r)), s')
      /\ srepr s' (plug (fst (unlink c l x h r)) (snd (unlink c l x h r)))
      /\ size_ s' = size_ s - 1
      /\ heap s' !! victim l x r = Some n
      /\ parent n = ctx_parent (fst (unlink c l x h r))
  end.
Proof.
  intros Hs Hsn Hfuel. unfold bst_remove.
  rewrite (bind_run _ _ _ _ _ (search_node_spec _ _ _ _ _ Hs Hsn Hfuel)).
  destruct (descend (value nsn) [] t) as [c [|l x v h r]] eqn:Hd; [done|].
  cbn [result_of searched_node].
  pose proof (descend_length _ _ _ _ _ Hd) as Hlen.
  cbn [length depth] in Hlen.
  apply descend_plug in Hd. cbn [plug] in Hd. subst t.
  pose proof (srepr_focus _ _ _ _ _ _ _ Hs) as (Hx & _).
  pose proof (bst_remove_leaf_spec _ _ _ _ _ _ _ Hs) as Hleaf.
  pose proof (bst_remove_one_child_spec _ _ _ _ _ _ _ Hs) as Hone.
  destruct l as [|ll lx lv lh lr]; destruct r as [|rl rx rv rh rr];
    cbn [one_child unlink victim fst snd] in *.
  - destruct Hleaf as (s1 & Hrun & Hs1 & Hz1 & Hsame).
    rewrite (bind_run _ _ _ _ _ Hrun).
    eexists s1, _. split_and!; [done|done|done|by rewrite Hsame|done].
  - rewrite (bind_run _ _ _ _ _ Hleaf).
    destruct Hone as (s1 & Hrun & Hs1 & Hz1 & Hsame).
    rewrite (bind_run _ _ _ _ _ Hrun).
    eexists s1, _. split_and!; [done|done|done|by rewrite Hsame|done].
  - rewrite (bind_run _ _ _ _ _ Hleaf).
    destruct Hone as (s1 & Hrun & Hs1 & Hz1 & Hsame).
    rewrite (bind_run _ _ _ _ _ Hrun).
    eexists s1, _. split_and!; [done|done|done|by rewrite Hsame|done].
  - rewrite (bind_run _ _ _ _ _ Hleaf), (bind_run _ _ _ _ _ Hone).
    destruct (spine [] rl rx rv rh rr) as [sc [[[sx sv] sh] sr]] eqn:Hsp.
    destruct (bst_remove_two_child_spec s c ll lx lv lh lr x v h rl rx rv rh rr
                fuel Hs ltac:(cbn [length depth] in Hlen |- *; lia) _ _ _ _ _ Hsp)
      as (s1 & n & Hrun & Hs1 & Hz1 & Hn & Hp).
    rewrite (bind_run _ _ _ _ _ Hrun).
    eexists s1, n. split_and!; done.
Qed.

(** Cached heights and balance do not depend on the keys. *)
Lemma avl_ctx_value c1 l x v v' h c2 ho :
  avl_ctx (c1 ++ InR l x v h :: c2) ho ->
  avl_ctx (c1 ++ InR l x v' h :: c2) ho.
Proof.
  revert ho. induction c1 as [|f c1 IH]; intros ho; simpl; [done|].
  destruct f; intros (? & ? & ? & ?); repeat split; auto; lia.
Qed.

Lemma unlink_avl c l x v h r :
  avl (plug c (T l x v h r)) ->
  exists ho, avl_ctx (fst (unlink c l x h r)) ho
    /\ avl (snd (unlink c l x h r))
    /\ -1 <= ht (snd (unlink c l x h r)) - ho <= 1.
Proof.
  intros Ha.
  destruct l as [|ll lx lv lh lr]; [|destruct r as [|rl rx rv rh rr]];
    cbn [unlink fst snd].
  - apply avl_plug_inv in Ha as [(_ & Hr & Hh & _) Hc]. cbn [ht] in *.
    apply avl_ht in Hr as ?. exists h. split_and!; [done|done|lia|lia].
  - apply avl_plug_inv in Ha as [(Hl & _ & Hh & _) Hc].
    apply avl_ht in Hl as ?. cbn [ht] in *.
    exists h. split_and!; [done|done|lia|lia].
  - destruct (spine [] rl rx rv rh rr) as [sc [[[sx sv] sh] sr]] eqn:Hsp.
    apply spine_plug in Hsp. cbn [plug fst snd] in *.
    rewrite <- Hsp in Ha.
    change (plug c (T ?l x v h (plug sc ?t)))
      with (plug (InR l x v h :: c) (plug sc t)) in Ha.
    rewrite <- plug_app in Ha.
    apply avl_plug_inv in Ha as [(_ & Hr & Hh & _) Hc]. cbn [ht] in *.
    apply avl_ht in Hr as ?. exists sh.
    split_and!; [by eapply avl_ctx_value|done|lia|lia].
Qed.

Lemma spine_lkeys l : forall c x v h r,
  lkeys (fst (spine c l x v h r)) = lkeys c.
Proof.
  induction l as [|ll IHl lx lv lh lr _]; intros c x v h r; simpl; [done|].
  rewrite IHl. simpl. by rewrite app_nil_r.
Qed.

Lemma unlink_keys c l x v h r :
  exists l1 l2, keys (plug c (T l x v h r)) = l1 ++ v :: l2
    /\ keys (plug (fst (unlink c l x h r)) (snd (unlink c l x h r)))
       = l1 ++ l2.
Proof.
  destruct l as [|ll lx lv lh lr]; [|destruct r as [|rl rx rv rh rr]];
    cbn [unlink fst snd].
  - exists (lkeys c), (keys r ++ rkeys c). by rewrite !keys_plug.
  - exists (lkeys c ++ keys (T ll lx lv lh lr)), (rkeys c).
    rewrite !keys_plug. cbn [keys]. by rewrite <- !app_assoc.
  - destruct (spine [] rl rx rv rh rr) as [sc [[[sx sv] sh] sr]] eqn:Hsp.
    pose proof (spine_lkeys rl [] rx rv rh rr) as Hlk.
    rewrite Hsp in Hlk. cbn [fst lkeys] in Hlk.
    apply spine_plug in Hsp. cbn [plug fst snd] in *.
    rewrite <- Hsp. rewrite plug_app. cbn [plug fill].
    exists (lkeys c ++ keys (T ll lx lv lh lr)), (sv :: keys (plug sc sr) ++ rkeys c).
    rewrite !keys_plug. cbn [keys]. rewrite !keys_plug. cbn [keys].
    rewrite Hlk.
    split; repeat first [rewrite <- app_assoc | progress cbn [app]]; done.
Qed.

Lemma sorted_remove_middle l1 k l2 :
  sorted (l1 ++ k :: l2) -> sorted (l1 ++ l2) /\ (k ∉ l1 ++ l2).
Proof.
  intros Hs. pose proof (sorted_NoDup _ Hs) as Hnd.
  apply sorted_app in Hs as (H1 & [Hk H2] & H12). split.
  - apply sorted_app. split_and!; [done|done|].
    eapply Forall_impl; [exact H12|]. simpl. intros a Ha.
    by apply Forall_cons in Ha as [_ Ha].
  - apply NoDup_app in Hnd as (_ & Hd & Hnd). apply NoDup_cons in Hnd as [Hk2 _].
    intros Hin. apply elem_of_app in Hin as [Hin|Hin]; [|done].
    apply (Hd _ Hin). set_solver.
Qed.

Lemma remove_tree_spec k t :
  bst t -> avl t ->
  match remove_tree k t with
  | Some t' =>
    bst t' /\ avl t'
    /\ (exists l1 l2, keys t = l1 ++ k :: l2 /\ keys t' = l1 ++ l2)
    /\ (k ∉ keys t')
  | None => k ∉ keys t
  end.
Proof.
  intros Hb Ha. unfold remove_tree.
  destruct (descend k [] t) as [c [|l x v h r]] eqn:Hd.
  - by destruct (descend_absent _ _ _ Hb Hd).
  - pose proof (descend_found _ _ _ _ _ _ _ _ _ Hd) as ->.
    apply descend_plug in Hd. cbn [plug] in Hd. subst t.
    destruct (unlink_avl _ _ _ _ _ _ Ha) as (ho & Hc & Ht' & Hd').
    destruct (unlink_keys c l x k h r) as (l1 & l2 & Hk1 & Hk2).
    destruct (unlink c l x h r) as [c' t'] eqn:Hu. cbn [fst snd] in *.
    unfold bst in *. rewrite keys_walk_up, Hk2. rewrite Hk1 in Hb.
    destruct (sorted_remove_middle _ _ _ Hb) as [Hs Hni].
    split_and!; [done|by eapply walk_up_avl| |done].
    exists l1, l2. by rewrite Hk1.
Qed.
Lemma unlink_length c l x v h r :
  (length (fst (unlink c l x h r)) + 1
   <= length c + depth (T l x v h r))%nat.
Proof.
  destruct l as [|ll lx lv lh lr]; [|destruct r as [|rl rx rv rh rr]];
    cbn [unlink fst depth]; [lia..|].
  pose proof (spine_length rl [] rx rv rh rr) as Hlen.
  destruct (spine [] rl rx rv rh rr) as [sc [[[sx sv] sh] sr]].
  cbn [fst length] in *. rewrite length_app. cbn [length]. lia.
Qed.

Lemma remove_spec s t k fuel :
  srepr s t -> bst t -> avl t -> (2 * depth t + 1 <= fuel)%nat ->
  exists s',
    match remove_tree k t with
    | Some t' =>
      remove fuel (PyInt k) s = (Ok true, s')
      /\ srepr s' t' /\ size_ s' = size_ s - 1
    | None =>
      remove fuel (PyInt k) s = (Ok false, s')
      /\ srepr s' t /\ size_ s' = size_ s /\ root s' = root s
      /\ heap s ⊆ heap s'
    end.
Proof.
  intros Hs Hb Ha Hfuel.
  destruct (alloc_srepr s t (new_Node k) Hs) as (Hal & Hs0 & Hfresh & Hsub & Hnone).
  set (x := fresh (dom (heap s))) in *.
  set (s0 := mkState (<[x := new_Node k]> (heap s)) (root s) (size_ s)) in *.
  assert (heap s0 !! x = Some (new_Node k)) as Hx by apply lookup_insert_eq.
  pose proof (bst_remove_spec s0 t x _ fuel Hs0 Hx ltac:(lia)) as Hrem.
  unfold remove, remove_tree. cbn [create_node_from_value].
  rewrite (bind_run _ _ _ _ _ Hal). cbn [value new_Node] in Hrem.
  destruct (descend k [] t) as [c [|l y v h r]] eqn:Hd.
  - rewrite (bind_run _ _ _ _ _ Hrem). exists s0. split_and!; done.
  - destruct Hrem as (s1 & n & Hrun & Hs1 & Hz1 & Hn & Hp).
    rewrite (bind_run _ _ _ _ _ Hrun).
    erewrite bind_getf by exact Hn. rewrite Hp.
    pose proof (descend_length _ _ _ _ _ Hd) as Hlen. cbn [length] in Hlen.
    pose proof (unlink_length c l y v h r) as Hlen'.
    apply descend_plug in Hd. cbn [plug] in Hd. subst t.
    destruct (unlink_avl _ _ _ _ _ _ Ha) as (ho & Hc & Ht' & Hd').
    destruct (unlink c l y h r) as [c' t'] eqn:Hu. cbn [fst snd] in *.
    destruct (balance_loop_tail c' t' ho s1 fuel Hs1 Hc Ht' Hd' ltac:(lia))
      as (s2 & Hrun2 & Hs2 & Hz2).
    destruct c' as [|f c'']; cbn [ctx_parent] in *.
    + rewrite bind_ret. exists s1. split_and!; done.
    + unfold balance. rewrite (bind_run _ _ _ _ _ Hrun2).
      exists s2. split_and!; [done|done|by rewrite Hz2, Hz1].
Qed.
(** ** From trees back to the store *)

Lemma below_locs_1 h o y :
  below h o y -> forall p t, repr h p t -> rootof t = o -> y ∈ locs t.
Proof.
  induction 1 as [x|x n y Hx Hb IH|x n y Hx Hb IH]; intros p t Hr Ho;
    destruct t as [|l x' v ht_ r]; try done;
    injection Ho as ->; destruct Hr as (Hx' & Hl & Hr); simpl.
  - set_solver.
  - rewrite Hx' in Hx. injection Hx as <-. simpl in *.
    specialize (IH _ _ Hl eq_refl). set_solver.
  - rewrite Hx' in Hx. injection Hx as <-. simpl in *.
    specialize (IH _ _ Hr eq_refl). set_solver.
Qed.

Lemma below_locs_2 h t : forall p y,
  repr h p t -> y ∈ locs t -> below h (rootof t) y.
Proof.
  induction t as [|l IHl x v ht_ r IHr]; intros p y; simpl.
  - intros _ Hy. by apply elem_of_nil in Hy.
  - intros (Hx & Hl & Hr) Hy.
    apply elem_of_app in Hy as [Hy|Hy].
    { eapply below_left; [exact Hx|]. simpl. by eapply IHl. }
    apply elem_of_cons in Hy as [->|Hy]; [constructor|].
    eapply below_right; [exact Hx|]. simpl. by eapply IHr.
Qed.

Lemma below_locs h p t y :
  repr h p t -> below h (rootof t) y <-> y ∈ locs t.
Proof.
  intros Hr. split; [intros Hb; by eapply below_locs_1|by eapply below_locs_2].
Qed.

Lemma reachable_locs s t x : srepr s t -> reachable s x <-> x ∈ locs t.
Proof.
  intros (Hroot & Hr & _). unfold reachable. rewrite Hroot.
  by eapply below_locs.
Qed.

Lemma locs_focus t x :
  x ∈ locs t -> exists c l v h r, t = plug c (T l x v h r).
Proof.
  induction t as [|l IHl y v h r IHr]; simpl.
  - intros Hx. by apply elem_of_nil in Hx.
  - intros Hx. apply elem_of_app in Hx as [Hx|Hx].
    { destruct (IHl Hx) as (c & l' & v' & h' & r' & ->).
      exists (c ++ [InL y v h r]), l', v', h', r'. by rewrite plug_app. }
    apply elem_of_cons in Hx as [->|Hx].
    { by exists [], l, v, h, r. }
    destruct (IHr Hx) as (c & l' & v' & h' & r' & ->).
    exists (c ++ [InR l y v h]), l', v', h', r'. by rewrite plug_app.
Qed.

Lemma cells_fst t : (cells t).*1 = locs t.
Proof.
  induction t as [|l IHl x v h r IHr]; simpl; [done|].
  by rewrite fmap_app, fmap_cons, IHl, IHr.
Qed.

Lemma cells_snd t : (cells t).*2 = keys t.
Proof.
  induction t as [|l IHl x v h r IHr]; simpl; [done|].
  by rewrite fmap_app, fmap_cons, IHl, IHr.
Qed.

Lemma repr_cells h t : forall p x n,
  repr h p t -> x ∈ locs t -> h !! x = Some n -> (x, value n) ∈ cells t.
Proof.
  induction t as [|l IHl y v ht_ r IHr]; intros p x n; simpl.
  - intros _ Hx. by apply elem_of_nil in Hx.
  - intros (Hy & Hl & Hr) Hx Hn.
    apply elem_of_app in Hx as [Hx|Hx].
    { apply elem_of_app. left. by eapply IHl. }
    apply elem_of_app. right.
    apply elem_of_cons in Hx as [->|Hx].
    { rewrite Hy in Hn. injection Hn as <-. simpl. set_solver. }
    apply elem_of_cons. right. by eapply IHr.
Qed.

Lemma repr_key h p t x n :
  repr h p t -> x ∈ locs t -> h !! x = Some n -> value n ∈ keys t.
Proof.
  intros Hr Hx Hn. rewrite <- cells_snd.
  apply list_elem_of_fmap. exists (x, value n). split; [done|].
  by eapply repr_cells.
Qed.

Lemma cells_key t k : k ∈ keys t -> exists x, (x, k) ∈ cells t.
Proof.
  rewrite <- cells_snd. intros Hk. apply list_elem_of_fmap in Hk.
  destruct Hk as ([x k'] & -> & Hin). by exists x.
Qed.

Lemma cells_lookup h t : forall p x k,
  repr h p t -> (x, k) ∈ cells t ->
  exists n, h !! x = Some n /\ value n = k /\ x ∈ locs t.
Proof.
  induction t as [|l IHl y v ht_ r IHr]; intros p x k; simpl.
  - intros _ Hx. by apply elem_of_nil in Hx.
  - intros (Hy & Hl & Hr) Hx.
    apply elem_of_app in Hx as [Hx|Hx].
    { destruct (IHl _ _ _ Hl Hx) as (n & ? & ? & ?). exists n. set_solver. }
    apply elem_of_cons in Hx as [[= -> ->]|Hx].
    { eexists. split; [exact Hy|]. set_solver. }
    destruct (IHr _ _ _ Hr Hx) as (n & ? & ? & ?). exists n. set_solver.
Qed.

Lemma present_keys s t k : srepr s t -> present s k <-> k ∈ keys t.
Proof.
  intros Hs. pose proof Hs as (_ & Hr & _). split.
  - intros (x & n & Hx & Hn & <-).
    eapply repr_key; [exact Hr| |exact Hn]. by apply (reachable_locs s t).
  - intros Hk. apply cells_key in Hk as [x Hx].
    destruct (cells_lookup _ _ _ _ _ Hr Hx) as (n & Hn & Hv & Hl).
    exists x, n. split_and!; [|done|done]. by apply (reachable_locs s t).
Qed.
Lemma NoDup_snd_inj (l : list (loc * Z)) x y k :
  NoDup (l.*2) -> (x, k) ∈ l -> (y, k) ∈ l -> x = y.
Proof.
  induction l as [|[z j] l IH]; simpl.
  - intros _ Hx. by apply elem_of_nil in Hx.
  - intros Hnd Hx Hy. apply NoDup_cons in Hnd as [Hj Hnd].
    apply elem_of_cons in Hx as [Hx|Hx];
      apply elem_of_cons in Hy as [Hy|Hy]; simplify_eq; auto.
    + destruct Hj. apply list_elem_of_fmap. by exists (y, j).
    + destruct Hj. apply list_elem_of_fmap. by exists (x, j).
Qed.

Lemma wf_bst_order s t : wf s t -> bst_order s.
Proof.
  intros (Hs & Hb & _) x n Hx Hn.
  apply (reachable_locs s t x Hs) in Hx.
  destruct (locs_focus _ _ Hx) as (c & l & v & h & r & ->).
  destruct (srepr_focus _ _ _ _ _ _ _ Hs) as (Hx' & Hl & Hr).
  rewrite Hx' in Hn. injection Hn as <-. cbn [left right value].
  unfold bst in Hb. rewrite keys_plug in Hb.
  apply sorted_app in Hb as (_ & Hb & _).
  apply sorted_app in Hb as (Hb & _ & _). cbn [keys] in Hb.
  apply sorted_app in Hb as (_ & [Hvr _] & Hlv).
  rewrite Forall_forall in Hvr. rewrite Forall_forall in Hlv.
  split; intros y m Hy Hm.
  - apply (below_locs _ _ _ _ Hl) in Hy.
    pose proof (repr_key _ _ _ _ _ Hl Hy Hm) as Hk.
    specialize (Hlv _ Hk). by apply Forall_cons in Hlv as [? _].
  - apply (below_locs _ _ _ _ Hr) in Hy.
    pose proof (repr_key _ _ _ _ _ Hr Hy Hm) as Hk. by apply Hvr.
Qed.

Lemma wf_avl_balance s t : wf s t -> avl_balance s.
Proof.
  intros (Hs & _ & Ha) x Hx.
  apply (reachable_locs s t x Hs) in Hx.
  destruct (locs_focus _ _ Hx) as (c & l & v & h & r & ->).
  exists (ht r - ht l). split; [by eapply balance_factor_spec|].
  apply avl_plug_inv in Ha as [(_ & _ & _ & Hd) _]. exact Hd.
Qed.

Lemma srepr_height_correct_at s c l x v h r :
  srepr s (plug c (T l x v h r)) -> h = Z.max (ht l) (ht r) + 1 ->
  height_correct_at s x.
Proof.
  intros Hs Hh.
  destruct (srepr_focus _ _ _ _ _ _ _ Hs) as (Hx' & Hl & Hr).
  destruct s as [hp rt sz]. cbn [heap] in *.
  eexists _, (ht l), (ht r). split; [exact Hx'|]. cbn [left right height].
  split_and!; [by eapply height_or_minus1_run|by eapply height_or_minus1_run|].
  lia.
Qed.

Lemma wf_height_correct s t : wf s t -> height_correct s.
Proof.
  intros (Hs & _ & Ha) x Hx.
  apply (reachable_locs s t x Hs) in Hx.
  destruct (locs_focus _ _ Hx) as (c & l & v & h & r & ->).
  apply avl_plug_inv in Ha as [(_ & _ & Hh & _) _].
  by eapply srepr_height_correct_at.
Qed.

Lemma srepr_parent_consistent s t : srepr s t -> parent_consistent s.
Proof.
  intros Hs. split_and!.
  - intros x n Hroot Hn. destruct Hs as (Hroot' & Hr & _).
    rewrite Hroot' in Hroot. destruct t as [|l x' v h r]; [done|].
    injection Hroot as ->. destruct Hr as (Hx & _).
    rewrite Hx in Hn. by injection Hn as <-.
  - intros x n p Hx Hn Hp.
    apply (reachable_locs s t x Hs) in Hx.
    destruct (locs_focus _ _ Hx) as (c & l & v & h & r & ->).
    destruct (srepr_focus _ _ _ _ _ _ _ Hs) as (Hx' & Hl & Hr).
    rewrite Hx' in Hn. injection Hn as <-. cbn [parent] in Hp.
    destruct c as [|f c]; [done|]. injection Hp as <-.
    pose proof Hs as (_ & _ & Hnd). rewrite locs_plug in Hnd.
    destruct f as [p vp hp_ sib|sib p vp hp_]; cbn [plug fill] in Hs;
      destruct (srepr_focus _ _ _ _ _ _ _ Hs) as (Hp & Hl' & Hr');
      (eexists; split_and!; [|exact Hp|]).
    + apply (reachable_locs _ _ _ Hs). rewrite locs_plug. simpl. set_solver.
    + left. cbn [left right rootof floc]. split; [done|].
      intros Hsib. apply rootof_locs in Hsib.
      cbn [llocs rlocs llocs_frame rlocs_frame locs] in Hnd. disj.
    + apply (reachable_locs _ _ _ Hs). rewrite locs_plug. simpl. set_solver.
    + right. cbn [left right rootof floc]. split; [|done].
      intros Hsib. apply rootof_locs in Hsib.
      cbn [llocs rlocs llocs_frame rlocs_frame locs] in Hnd. disj.
  - intros x n y Hx Hn Hy.
    apply (reachable_locs s t x Hs) in Hx.
    destruct (locs_focus _ _ Hx) as (c & l & v & h & r & ->).
    destruct (srepr_focus _ _ _ _ _ _ _ Hs) as (Hx' & Hl & Hr).
    rewrite Hx' in Hn. injection Hn as <-. cbn [left right] in Hy.
    destruct Hy as [Hy|Hy].
    + destruct l as [|ll y' lv lh lr]; [done|]. injection Hy as ->.
      destruct Hl as (Hy & _). eexists. by split; [exact Hy|].
    + destruct r as [|rl y' rv rh rr]; [done|]. injection Hy as ->.
      destruct Hr as (Hy & _). eexists. by split; [exact Hy|].
Qed.

Lemma wf_unique_keys s t : wf s t -> unique_keys s.
Proof.
  intros (Hs & Hb & _) x y n m Hx Hy Hn Hm Hv.
  apply (reachable_locs s t _ Hs) in Hx, Hy.
  pose proof Hs as (_ & Hr & _).
  pose proof (repr_cells _ _ _ _ _ Hr Hx Hn) as Hcx.
  pose proof (repr_cells _ _ _ _ _ Hr Hy Hm) as Hcy.
  rewrite Hv in Hcx. eapply NoDup_snd_inj; [|exact Hcx|exact Hcy].
  rewrite cells_snd. by apply sorted_NoDup.
Qed.

Lemma wf_invariants s t : wf s t -> invariants s.
Proof.
  intros Hwf. split_and!.
  - by eapply wf_bst_order.
  - by eapply wf_avl_balance.
  - by eapply wf_height_correct.
  - destruct Hwf as (Hs & _). by eapply srepr_parent_consistent.
  - by eapply wf_unique_keys.
Qed.

(** ** The public methods on well-formed states *)

Lemma length_keys_locs t : length (keys t) = length (locs t).
Proof.
  induction t as [|l IHl x v h r IHr]; simpl; [done|].
  rewrite !length_app. simpl. lia.
Qed.

Lemma depth_le_keys t : (depth t <= length (keys t))%nat.
Proof. rewrite length_keys_locs. apply depth_le_length. Qed.

Lemma insert_wf s t k fuel :
  wf s t -> (2 * length (keys t) + 1 <= fuel)%nat ->
  exists s' t',
    insert fuel (PyInt k) s = (Ok (bool_decide (k ∉ keyset t)), s')
    /\ wf s' t' /\ keyset t' = {[k]} ∪ keyset t
    /\ (k ∈ keyset t -> unchanged s s')
    /\ (length (keys t') <= S (length (keys t)))%nat
    /\ size_ s' - Z.of_nat (length (keys t'))
       = size_ s - Z.of_nat (length (keys t)).
Proof.
  intros (Hs & Hb & Ha) Hfuel.
  pose proof (depth_le_keys t) as Hdep.
  destruct (insert_spec s t k fuel Hs Hb Ha ltac:(lia)) as (s' & Hrun).
  pose proof (insert_tree_spec (fresh (dom (heap s))) k t Hb Ha) as Hpure.
  destruct (insert_tree (fresh (dom (heap s))) k t) as [t'|].
  - destruct Hrun as (Hrun & Hs' & Hz').
    destruct Hpure as (Hk & Hb' & Ha' & (l1 & l2 & Hk1 & Hk2) & _).
    exists s', t'. unfold keyset.
    rewrite bool_decide_eq_true_2 by (by rewrite elem_of_list_to_set).
    split_and!; [done|done| | | |].
    + rewrite Hk1, Hk2. apply set_eq. intros j.
      rewrite !elem_of_union, !elem_of_list_to_set, !elem_of_app,
        elem_of_cons, elem_of_singleton. tauto.
    + rewrite elem_of_list_to_set. done.
    + rewrite Hk1, Hk2, !length_app. simpl. lia.
    + rewrite Hz', Hk1, Hk2, !length_app. simpl. lia.
  - destruct Hrun as (Hrun & Hs' & Hz' & Hroot & Hsub).
    exists s', t. unfold keyset.
    rewrite bool_decide_eq_false_2
      by (rewrite elem_of_list_to_set; intros Hn; by apply Hn).
    split_and!; [done|done| |done|lia|lia].
    apply set_eq. intros j.
    rewrite !elem_of_union, !elem_of_list_to_set, elem_of_singleton.
    split; [tauto|]. intros [->|?]; done.
Qed.

Lemma remove_wf s t k fuel :
  wf s t -> (2 * length (keys t) + 1 <= fuel)%nat ->
  exists s' t',
    remove fuel (PyInt k) s = (Ok (bool_decide (k ∈ keyset t)), s')
    /\ wf s' t' /\ keyset t' = keyset t ∖ {[k]}
    /\ (k ∉ keyset t -> unchanged s s')
    /\ (length (keys t') <= length (keys t))%nat
    /\ size_ s' - Z.of_nat (length (keys t'))
       = size_ s - Z.of_nat (length (keys t)).
Proof.
  intros (Hs & Hb & Ha) Hfuel.
  pose proof (depth_le_keys t) as Hdep.
  destruct (remove_spec s t k fuel Hs Hb Ha ltac:(lia)) as (s' & Hrun).
  pose proof (remove_tree_spec k t Hb Ha) as Hpure.
  destruct (remove_tree k t) as [t'|].
  - destruct Hrun as (Hrun & Hs' & Hz').
    destruct Hpure as (Hb' & Ha' & (l1 & l2 & Hk1 & Hk2) & Hk).
    exists s', t'. unfold keyset.
    rewrite bool_decide_eq_true_2
      by (rewrite elem_of_list_to_set, Hk1; set_solver).
    split_and!; [done|done| | | |].
    + rewrite Hk2 in Hk. rewrite Hk1, Hk2. apply set_eq. intros j.
      rewrite elem_of_difference, !elem_of_list_to_set, !elem_of_app,
        elem_of_cons, elem_of_singleton.
      rewrite elem_of_app in Hk. split; [|tauto].
      intros Hj. split; [tauto|]. intros ->. tauto.
    + rewrite elem_of_list_to_set, Hk1. set_solver.
    + rewrite Hk1, Hk2, !length_app. simpl. lia.
    + rewrite Hz', Hk1, Hk2, !length_app. simpl. lia.
  - destruct Hrun as (Hrun & Hs' & Hz' & Hroot & Hsub).
    exists s', t. unfold keyset.
    rewrite bool_decide_eq_false_2 by (by rewrite elem_of_list_to_set).
    split_and!; [done|done| |done|lia|lia].
    apply set_eq. intros j.
    rewrite elem_of_difference, !elem_of_list_to_set, elem_of_singleton.
    split; [|tauto]. intros Hj. split; [done|]. by intros ->.
Qed.

Lemma run_op_wf s t o fuel :
  wf s t -> (2 * length (keys t) + 1 <= fuel)%nat ->
  exists s' t',
    run_op fuel o s = (Ok (model_result o (keyset t)), s')
    /\ wf s' t' /\ keyset t' = model_op o (keyset t)
    /\ (model_result o (keyset t) = false -> unchanged s s')
    /\ (length (keys t') <= S (length (keys t)))%nat
    /\ size_ s' - Z.of_nat (length (keys t'))
       = size_ s - Z.of_nat (length (keys t)).
Proof.
  intros Hwf Hfuel. destruct o as [k|k]; cbn [run_op model_result model_op].
  - destruct (insert_wf s t k fuel Hwf Hfuel)
      as (s' & t' & ? & ? & ? & Hu & ? & ?).
    exists s', t'. split_and!; [done..| |done|done].
    intros Hf. apply bool_decide_eq_false in Hf. apply Hu.
    by apply dec_stable.
  - destruct (remove_wf s t k fuel Hwf Hfuel)
      as (s' & t' & ? & ? & ? & Hu & ? & ?).
    exists s', t'. split_and!; [done..| |lia|done].
    intros Hf. apply bool_decide_eq_false in Hf. by apply Hu.
Qed.

Lemma run_ops_wf ops : forall s t fuel,
  wf s t -> (2 * (length (keys t) + length ops) + 1 <= fuel)%nat ->
  exists s' t',
    run_ops fuel ops s = (Ok (model_results ops (keyset t)), s')
    /\ wf s' t' /\ keyset t' = model ops (keyset t)
    /\ (length (keys t') <= length (keys t) + length ops)%nat
    /\ size_ s' - Z.of_nat (length (keys t'))
       = size_ s - Z.of_nat (length (keys t)).
Proof.
  induction ops as [|o ops IH]; intros s t fuel Hwf Hfuel.
  - exists s, t. cbn. split_and!; [done..|lia|done].
  - cbn [length] in Hfuel.
    destruct (run_op_wf s t o fuel Hwf ltac:(lia))
      as (s1 & t1 & Hrun1 & Hwf1 & Hk1 & _ & Hlen1 & Hz1).
    destruct (IH s1 t1 fuel Hwf1 ltac:(lia))
      as (s2 & t2 & Hrun2 & Hwf2 & Hk2 & Hlen2 & Hz2).
    exists s2, t2. cbn [run_ops model_results model length].
    rewrite (bind_run _ _ _ _ _ Hrun1), (bind_run _ _ _ _ _ Hrun2).
    rewrite <- Hk1. split_and!; [done..|lia|lia].
Qed.

Lemma wf_empty : wf empty_tree E.
Proof. repeat split; constructor. Qed.
(** ** Lookup *)

Lemma find_spec s t k fuel :
  wf s t -> (depth t <= fuel)%nat ->
  exists r s',
    find fuel (PyInt k) s = (Ok r, s') /\ unchanged s s'
    /\ (k ∈ keys t ->
        exists x n, r = Some x /\ reachable s x
          /\ heap s' !! x = Some n /\ value n = k)
    /\ (k ∉ keys t -> r = None).
Proof.
  intros (Hs & Hb & _) Hfuel.
  destruct (alloc_srepr s t (new_Node k) Hs) as (Hal & Hs0 & Hfresh & Hsub & Hnone).
  set (x := fresh (dom (heap s))) in *.
  set (s0 := mkState (<[x := new_Node k]> (heap s)) (root s) (size_ s)) in *.
  assert (heap s0 !! x = Some (new_Node k)) as Hx by apply lookup_insert_eq.
  pose proof (search_node_spec t s0 fuel x _ Hs0 Hx Hfuel) as Hsearch.
  cbn [value new_Node] in Hsearch.
  unfold find. cbn [create_node_from_value].
  rewrite (bind_run _ _ _ _ _ Hal), (bind_run _ _ _ _ _ Hsearch).
  eexists _, s0. split; [reflexivity|]. split; [done|].
  destruct (descend k [] t) as [c [|l y v h r]] eqn:Hd;
    cbn [result_of is_found searched_node].
  - destruct (descend_absent _ _ _ Hb Hd) as (Hk & _). split; done.
  - destruct (descend_present _ _ _ _ _ _ _ _ Hd) as (-> & Hk).
    split; [|done]. intros _.
    apply descend_plug in Hd. cbn [plug] in Hd. subst t.
    destruct (srepr_focus _ _ _ _ _ _ _ Hs0) as (Hy & _).
    eexists y, _. split_and!; [done| |exact Hy|done].
    apply (reachable_locs _ _ _ Hs). rewrite locs_plug. simpl. set_solver.
Qed.

(** ** The key set after a sequence of calls *)

Lemma model_app ops1 ops2 K : model (ops1 ++ ops2) K = model ops2 (model ops1 K).
Proof. revert K. induction ops1 as [|o ops1 IH]; intros K; simpl; auto. Qed.

Lemma model_keeps ops : forall k K,
  Remove k ∉ ops -> k ∈ K -> k ∈ model ops K.
Proof.
  induction ops as [|o ops IH]; intros k K Hno Hk; simpl; [done|].
  apply not_elem_of_cons in Hno as [Ho Hno]. apply IH; [done|].
  destruct o as [j|j]; simpl; [set_solver|].
  apply elem_of_difference. split; [done|].
  rewrite elem_of_singleton. congruence.
Qed.

Lemma model_stays_out ops : forall k K,
  Insert k ∉ ops -> k ∉ K -> k ∉ model ops K.
Proof.
  induction ops as [|o ops IH]; intros k K Hno Hk; simpl; [done|].
  apply not_elem_of_cons in Hno as [Ho Hno]. apply IH; [done|].
  destruct o as [j|j]; simpl; [|set_solver].
  rewrite elem_of_union, elem_of_singleton. intros [->|?]; congruence.
Qed.

(** ** Sequences of calls from the empty tree *)

Lemma run_ops_empty ops fuel :
  (2 * length ops + 1 <= fuel)%nat ->
  exists s' t',
    run_ops fuel ops empty_tree = (Ok (model_results ops ∅), s')
    /\ wf s' t' /\ keyset t' = model ops ∅
    /\ (length (keys t') <= length ops)%nat
    /\ size_ s' = Z.of_nat (length (keys t')).
Proof.
  intros Hfuel.
  destruct (run_ops_wf ops empty_tree E fuel wf_empty ltac:(simpl; lia))
    as (s' & t' & Hrun & Hwf & Hk & Hlen & Hz).
  exists s', t'. split_and!; [done..|]. simpl in Hz. lia.
Qed.

(** C1. For every sequence of insert and remove calls with integer keys on
    an initially empty tree, and after each call of the sequence (that is,
    for every prefix), the calls return and the state satisfies the five
    invariants of the data model: BST order, balance factors in [-1..1],
    correct cached heights, consistent parent references, unique keys. *)
Theorem C1_invariants_after_every_call (ops pre : list op) (fuel : nat) :
  (2 * length ops + 1 <= fuel)%nat -> pre `prefix_of` ops ->
  exists bs s',
    run_ops fuel pre empty_tree = (Ok bs, s') /\ invariants s'.
Proof.
  intros Hfuel Hpre. apply prefix_length in Hpre.
  destruct (run_ops_empty pre fuel ltac:(lia)) as (s' & t' & Hrun & Hwf & _).
  exists (model_results pre ∅), s'. split; [done|]. by eapply wf_invariants.
Qed.

Lemma C1_witness :
  (2 * length [Insert 2; Insert 1; Remove 2] + 1 <= 7)%nat
  /\ [Insert 2; Insert 1] `prefix_of` [Insert 2; Insert 1; Remove 2]
  /\ exists bs s',
       run_ops 7 [Insert 2; Insert 1] empty_tree = (Ok bs, s')
       /\ invariants s'.
Proof.
  assert ((2 * length [Insert 2; Insert 1; Remove 2] + 1 <= 7)%nat) as H1
    by (simpl; lia).
  assert ([Insert 2; Insert 1] `prefix_of` [Insert 2; Insert 1; Remove 2])
    as H2 by (by exists [Remove 2]).
  split; [exact H1|]. split; [exact H2|].
  exact (C1_invariants_after_every_call _ _ _ H1 H2).
Defined.

(** C3. After any sequence of insert and remove calls on an initially empty
    tree: a key that was inserted and not removed afterwards is found, in a
    node of the tree that holds it; a key that was never inserted, or was
    removed after its last insertion, is not found. *)
Theorem C3_membership_round_trip (ops : list op) (k : Z) (fuel : nat) :
  (2 * length ops + 1 <= fuel)%nat ->
  exists bs s',
    run_ops fuel ops empty_tree = (Ok bs, s')
    /\ ((exists pre post, ops = pre ++ Insert k :: post /\ Remove k ∉ post) ->
        exists x n s'',
          find fuel (PyInt k) s' = (Ok (Some x), s'')
          /\ reachable s' x /\ heap s'' !! x = Some n /\ value n = k)
    /\ ((Insert k ∉ ops
         \/ exists pre post, ops = pre ++ Remove k :: post /\ Insert k ∉ post) ->
        exists s'', find fuel (PyInt k) s' = (Ok None, s'')).
Proof.
  intros Hfuel.
  destruct (run_ops_empty ops fuel Hfuel)
    as (s' & t' & Hrun & Hwf & Hk & Hlen & _).
  pose proof (depth_le_keys t') as Hdep.
  destruct (find_spec s' t' k fuel Hwf ltac:(lia))
    as (r & s'' & Hfind & _ & Hin & Hout).
  exists (model_results ops ∅), s'. split; [done|]. split.
  - intros (pre & post & -> & Hno).
    destruct Hin as (x & n & -> & Hx & Hn & Hv).
    { apply (elem_of_list_to_set (C:=gset Z)). fold (keyset t'). rewrite Hk.
      rewrite model_app. simpl. apply model_keeps; [done|]. set_solver. }
    by exists x, n, s''.
  - intros Hcase. exists s''. rewrite Hfind, Hout; [done|].
    rewrite <- (elem_of_list_to_set (C:=gset Z)). fold (keyset t'). rewrite Hk.
    destruct Hcase as [Hno|(pre & post & -> & Hno)].
    + by apply model_stays_out.
    + rewrite model_app. simpl. apply model_stays_out; [done|]. set_solver.
Qed.

Lemma C3_witness :
  (2 * length [Insert 5; Insert 3; Remove 5] + 1 <= 7)%nat
  /\ exists bs s',
    run_ops 7 [Insert 5; Insert 3; Remove 5] empty_tree = (Ok bs, s')
    /\ ((exists pre post, [Insert 5; Insert 3; Remove 5]
                          = pre ++ Insert 3 :: post /\ Remove 3 ∉ post) ->
        exists x n s'',
          find 7 (PyInt 3) s' = (Ok (Some x), s'')
          /\ reachable s' x /\ heap s'' !! x = Some n /\ value n = 3)
    /\ ((Insert 3 ∉ [Insert 5; Insert 3; Remove 5]
         \/ exists pre post, [Insert 5; Insert 3; Remove 5]
                             = pre ++ Remove 3 :: post /\ Insert 3 ∉ post) ->
        exists s'', find 7 (PyInt 3) s' = (Ok None, s'')).
Proof.
  assert ((2 * length [Insert 5; Insert 3; Remove 5] + 1 <= 7)%nat) as H1
    by (simpl; lia).
  split; [exact H1|].
  exact (C3_membership_round_trip [Insert 5; Insert 3; Remove 5] 3 7 H1).
Defined.

(** C4. After any sequence of insert and remove calls on an initially empty
    tree, and after each call of it, [size] returns the number of distinct
    keys held by the nodes reachable from the root. *)
Theorem C4_size_counts_keys (ops pre : list op) (fuel : nat) :
  (2 * length ops + 1 <= fuel)%nat -> pre `prefix_of` ops ->
  exists bs s' (K : gset Z),
    run_ops fuel pre empty_tree = (Ok bs, s')
    /\ (forall k, k ∈ K <-> present s' k)
    /\ size s' = (Ok (Z.of_nat (base.size K)), s').
Proof.
  intros Hfuel Hpre. apply prefix_length in Hpre.
  destruct (run_ops_empty pre fuel ltac:(lia))
    as (s' & t' & Hrun & Hwf & _ & _ & Hz).
  exists (model_results pre ∅), s', (keyset t'). split; [done|].
  destruct Hwf as (Hs & Hb & _). split.
  - intros k. unfold keyset. rewrite elem_of_list_to_set.
    symmetry. by apply present_keys.
  - unfold size, keyset. rewrite size_list_to_set by (by apply sorted_NoDup).
    by rewrite Hz.
Qed.

Lemma C4_witness :
  (2 * length [Insert 2; Insert 2; Remove 7] + 1 <= 7)%nat
  /\ [Insert 2; Insert 2] `prefix_of` [Insert 2; Insert 2; Remove 7]
  /\ exists bs s' (K : gset Z),
       run_ops 7 [Insert 2; Insert 2] empty_tree = (Ok bs, s')
       /\ (forall k, k ∈ K <-> present s' k)
       /\ size s' = (Ok (Z.of_nat (base.size K)), s').
Proof.
  assert ((2 * length [Insert 2; Insert 2; Remove 7] + 1 <= 7)%nat) as H1
    by (simpl; lia).
  assert ([Insert 2; Insert 2] `prefix_of` [Insert 2; Insert 2; Remove 7])
    as H2 by (by exists [Remove 7]).
  split; [exact H1|]. split; [exact H2|].
  exact (C4_size_counts_keys _ _ _ H1 H2).
Defined.
(** ** From the invariants back to a tree

    The five invariants of the data model, stated on the store, are enough
    to read a well-formed tree off it. *)

Lemma below_trans h o x y :
  below h o x -> below h (Some x) y -> below h o y.
Proof.
  induction 1 as [x|x n z Hx Hb IH|x n z Hx Hb IH]; intros Hy; [done| |].
  - eapply below_left; [exact Hx|]. by apply IH.
  - eapply below_right; [exact Hx|]. by apply IH.
Qed.

Lemma balance_factor_in_heap s x b :
  balance_factor x s = (Ok b, s) -> is_Some (heap s !! x).
Proof.
  unfold balance_factor, bind, getf. destruct (heap s !! x); [eauto|done].
Qed.

Lemma invariants_extract s :
  bst_order s -> avl_balance s -> parent_consistent s ->
  forall (n : nat) (S : gset loc) o p,
    (base.size S <= n)%nat ->
    (forall y, below (heap s) o y -> y ∈ S /\ reachable s y) ->
    (forall x nx, o = Some x -> heap s !! x = Some nx -> parent nx = p) ->
    exists t, rootof t = o /\ repr (heap s) p t
      /\ (forall y, y ∈ locs t -> below (heap s) o y).
Proof.
  intros Hbst Hbal (_ & _ & Hback).
  induction n as [|n IH]; intros S o p Hsize Hsub Hpar.
  - destruct o as [x|].
    + destruct (Hsub x (below_here _ _)) as [Hx _].
      assert (base.size S = 0%nat) as H0 by lia.
      apply size_empty_inv in H0. set_solver.
    + exists E. split_and!; [done|done|]. intros y Hy. by apply elem_of_nil in Hy.
  - destruct o as [x|].
    2:{ exists E. split_and!; [done|done|]. intros y Hy. by apply elem_of_nil in Hy. }
    destruct (Hsub x (below_here _ _)) as [HxS Hxr].
    destruct (Hbal x Hxr) as (b & Hb & _).
    destruct (balance_factor_in_heap _ _ _ Hb) as [nx Hnx].
    destruct (Hbst x nx Hxr Hnx) as [Hlt Hgt].
    assert (forall o', (o' = left nx \/ o' = right nx) ->
              exists t, rootof t = o' /\ repr (heap s) (Some x) t
                /\ (forall y, y ∈ locs t -> below (heap s) o' y)) as Hsubtree.
    { intros o' Ho'. apply (IH (S ∖ {[x]})).
      - assert (base.size S = base.size (S ∖ {[x]}) + 1)%nat.
        { rewrite (union_difference_L {[x]} S) at 1 by set_solver.
          rewrite size_union by set_solver. rewrite size_singleton. lia. }
        lia.
      - intros y Hy.
        assert (below (heap s) (Some x) y) as Hy'.
        { destruct Ho' as [-> | ->];
            [eapply below_left|eapply below_right]; eauto. }
        destruct (Hsub y Hy') as [HyS Hyr]. split; [|done].
        apply elem_of_difference. split; [done|].
        rewrite elem_of_singleton. intros ->.
        destruct Ho' as [-> | ->].
        + specialize (Hlt _ _ Hy Hnx). lia.
        + specialize (Hgt _ _ Hy Hnx). lia.
      - intros y ny -> Hny.
        destruct (Hback x nx y Hxr Hnx) as (m & Hm & Hp).
        { destruct Ho' as [<- | <-]; auto. }
        rewrite Hm in Hny. by injection Hny as <-. }
    destruct (Hsubtree (left nx) (or_introl eq_refl)) as (tl & Hrl & Hreprl & Hbl).
    destruct (Hsubtree (right nx) (or_intror eq_refl)) as (tr & Hrr & Hreprr & Hbr).
    exists (T tl x (value nx) (height nx) tr). split_and!.
    + done.
    + cbn [repr]. rewrite Hrl, Hrr. split_and!; [|done|done].
      rewrite Hnx. f_equal. pose proof (Hpar x _ eq_refl Hnx) as Hp.
      destruct nx as [v p' l r h]. cbn in *. by rewrite Hp.
    + intros y Hy. cbn [locs] in Hy.
      apply elem_of_app in Hy as [Hy|Hy].
      { eapply below_left; [exact Hnx|]. by apply Hbl. }
      apply elem_of_cons in Hy as [->|Hy]; [constructor|].
      eapply below_right; [exact Hnx|]. by apply Hbr.
Qed.
Lemma balance_factor_repr s p l x v h r :
  repr (heap s) p (T l x v h r) ->
  balance_factor x s = (Ok (ht r - ht l), s).
Proof.
  destruct s as [hp rt sz]. cbn [heap repr]. intros (Hx & Hl & Hr).
  unfold balance_factor. msteps. done.
Qed.

Lemma repr_sorted s t : forall p,
  bst_order s -> repr (heap s) p t ->
  (forall y, y ∈ locs t -> reachable s y) -> sorted (keys t).
Proof.
  intros p Hbst. revert p.
  induction t as [|l IHl x v h r IHr]; intros p; simpl; [done|].
  intros (Hx & Hl & Hr) Hreach.
  destruct (Hbst x _ (Hreach x ltac:(set_solver)) Hx) as [Hlt Hgt].
  cbn [left right value] in Hlt, Hgt.
  assert (forall k, k ∈ keys l -> k < v) as Hkl.
  { intros k Hk. apply cells_key in Hk as [y Hy].
    destruct (cells_lookup _ _ _ _ _ Hl Hy) as (n & Hn & <- & Hin).
    eapply Hlt; [|exact Hn]. by eapply below_locs_2. }
  assert (forall k, k ∈ keys r -> v < k) as Hkr.
  { intros k Hk. apply cells_key in Hk as [y Hy].
    destruct (cells_lookup _ _ _ _ _ Hr Hy) as (n & Hn & <- & Hin).
    eapply Hgt; [|exact Hn]. by eapply below_locs_2. }
  apply sorted_app. split_and!.
  - eapply IHl; [exact Hl|]. intros y Hy. apply Hreach. set_solver.
  - simpl. split; [by apply Forall_forall|].
    eapply IHr; [exact Hr|]. intros y Hy. apply Hreach. set_solver.
  - apply Forall_forall. intros a Ha. specialize (Hkl _ Ha).
    constructor; [done|]. apply Forall_forall. intros b Hb.
    specialize (Hkr _ Hb). lia.
Qed.

Lemma repr_NoDup h t : forall p,
  repr h p t -> sorted (keys t) -> NoDup (locs t).
Proof.
  induction t as [|l IHl x v ht_ r IHr]; intros p; simpl; [constructor|].
  intros (Hx & Hl & Hr) Hs.
  apply sorted_app in Hs as (Hsl & [Hvr Hsr] & Hlv).
  rewrite Forall_forall in Hvr. rewrite Forall_forall in Hlv.
  assert (forall y, y ∈ locs l -> exists n, h !! y = Some n /\ value n < v)
    as Hkl.
  { intros y Hy. destruct (repr_lookup _ _ _ _ Hl Hy) as [n Hn].
    exists n. split; [done|].
    pose proof (repr_key _ _ _ _ _ Hl Hy Hn) as Hk.
    specialize (Hlv _ Hk). by apply Forall_cons in Hlv as [? _]. }
  assert (forall y, y ∈ locs r -> exists n, h !! y = Some n /\ v < value n)
    as Hkr.
  { intros y Hy. destruct (repr_lookup _ _ _ _ Hr Hy) as [n Hn].
    exists n. split; [done|]. apply Hvr. by eapply repr_key. }
  apply NoDup_app. split_and!.
  - by eapply IHl.
  - intros y Hy Hy'. destruct (Hkl _ Hy) as (n & Hn & Hlt).
    apply elem_of_cons in Hy' as [->|Hy'].
    + rewrite Hx in Hn. injection Hn as <-. simpl in Hlt. lia.
    + destruct (Hkr _ Hy') as (n' & Hn' & Hgt).
      rewrite Hn in Hn'. injection Hn' as <-. lia.
  - apply NoDup_cons. split; [|by eapply IHr].
    intros Hy'. destruct (Hkr _ Hy') as (n' & Hn' & Hgt).
    rewrite Hx in Hn'. injection Hn' as <-. simpl in Hgt. lia.
Qed.

Lemma repr_avl s t : forall p,
  avl_balance s -> height_correct s -> repr (heap s) p t ->
  (forall y, y ∈ locs t -> reachable s y) -> avl t.
Proof.
  intros p Hbal Hht. revert p.
  induction t as [|l IHl x v h r IHr]; intros p; [done|].
  intros Hrepr Hreach. pose proof Hrepr as (Hx & Hl & Hr).
  assert (reachable s x) as Hxr by (apply Hreach; simpl; set_solver).
  cbn [avl]. split; [|split; [|split]].
  - eapply IHl; [exact Hl|]. intros y Hy. apply Hreach. simpl. set_solver.
  - eapply IHr; [exact Hr|]. intros y Hy. apply Hreach. simpl. set_solver.
  - destruct (Hht x Hxr) as (n & hl & hr & Hn & Hhl & Hhr & Hh).
    rewrite Hx in Hn. injection Hn as <-. cbn [left right height] in *.
    destruct s as [hp rt sz]. cbn [heap] in *.
    rewrite (height_or_minus1_run _ _ _ _ _ Hl) in Hhl.
    rewrite (height_or_minus1_run _ _ _ _ _ Hr) in Hhr.
    injection Hhl as <-. injection Hhr as <-. lia.
  - destruct (Hbal x Hxr) as (b & Hb & Hrange).
    rewrite (balance_factor_repr _ _ _ _ _ _ _ Hrepr) in Hb.
    injection Hb as <-. exact Hrange.
Qed.

Lemma repr_length_le h p t :
  repr h p t -> NoDup (locs t) -> (length (locs t) <= base.size h)%nat.
Proof.
  intros Hr Hnd.
  rewrite <- (size_list_to_set (C:=gset loc)) by done.
  rewrite <- size_dom. apply subseteq_size.
  intros y Hy. apply elem_of_list_to_set in Hy. apply elem_of_dom.
  by eapply repr_lookup.
Qed.

(** The invariants of the data model are exactly what it takes for the
    store to hold a well-formed tree. *)
Lemma invariants_wf s : invariants s -> exists t, wf s t.
Proof.
  intros (Hbst & Hbal & Hht & Hpar & Huniq).
  destruct (invariants_extract s Hbst Hbal Hpar (base.size (dom (heap s)))
              (dom (heap s)) (root s) None)
    as (t & Hroot & Hrepr & Hbelow); [lia| | |].
  - intros y Hy. split; [|exact Hy].
    destruct (Hbal y Hy) as (b & Hb & _).
    apply elem_of_dom. by eapply balance_factor_in_heap.
  - destruct Hpar as (Hp & _). intros x nx Hx Hnx. by eapply Hp.
  - assert (forall y, y ∈ locs t -> reachable s y) as Hreach
      by (intros y Hy; by apply Hbelow).
    assert (sorted (keys t)) as Hs by (by eapply repr_sorted).
    exists t. split_and!.
    + split_and!; [done|done|]. by eapply repr_NoDup.
    + exact Hs.
    + by eapply repr_avl.
Qed.

Lemma wf_store_size s t :
  wf s t -> (length (keys t) <= base.size (heap s))%nat.
Proof.
  intros ((_ & Hr & Hnd) & _). rewrite length_keys_locs.
  by eapply repr_length_le.
Qed.

Lemma invariants_iff s : invariants s <-> exists t, wf s t.
Proof.
  split; [apply invariants_wf|]. intros [t Hwf]. by eapply wf_invariants.
Qed.
(** C2. On a state that satisfies the invariants of the data model,
    [insert] returns true exactly when the key was absent and [remove]
    returns true exactly when it was present; a call that returns false
    leaves root, size and every object of the store as they were. *)
Theorem C2_results_and_no_mutation (s : State) (k : Z) (fuel : nat) :
  invariants s -> (2 * base.size (heap s) + 1 <= fuel)%nat ->
  (exists b s',
     insert fuel (PyInt k) s = (Ok b, s')
     /\ (b = true <-> ~ present s k)
     /\ (b = false -> unchanged s s'))
  /\ (exists b s',
        remove fuel (PyInt k) s = (Ok b, s')
        /\ (b = true <-> present s k)
        /\ (b = false -> unchanged s s')).
Proof.
  intros Hinv Hfuel. destruct (invariants_wf s Hinv) as [t Hwf].
  pose proof (wf_store_size s t Hwf) as Hsz. pose proof Hwf as (Hs & _).
  pose proof (present_keys s t k Hs) as Hp.
  assert (k ∈ keyset t <-> present s k) as Hk.
  { unfold keyset. by rewrite elem_of_list_to_set, Hp. }
  split.
  - destruct (insert_wf s t k fuel Hwf ltac:(lia))
      as (s' & t' & Hrun & _ & _ & Hu & _).
    eexists _, s'. split; [exact Hrun|]. split.
    + rewrite bool_decide_eq_true. by rewrite Hk.
    + intros Hf. apply bool_decide_eq_false in Hf. apply Hu.
      by apply dec_stable.
  - destruct (remove_wf s t k fuel Hwf ltac:(lia))
      as (s' & t' & Hrun & _ & _ & Hu & _).
    eexists _, s'. split; [exact Hrun|]. split.
    + rewrite bool_decide_eq_true. by rewrite Hk.
    + intros Hf. apply bool_decide_eq_false in Hf. by apply Hu.
Qed.

Lemma bst_remove_two_child_declines s c l x v h r fuel :
  srepr s (plug c (T l x v h r)) -> l = E \/ r = E ->
  bst_remove_two_child_node fuel x s = (Ok None, s).
Proof.
  intros Hs Hlr. destruct (srepr_focus _ _ _ _ _ _ _ Hs) as (Hx & _).
  unfold bst_remove_two_child_node.
  erewrite bind_getf by eassumption. erewrite bind_getf by eassumption.
  cbn [left right]. destruct Hlr as [-> | ->]; [done|]. by destruct l.
Qed.

Lemma exactly_one_case_holds s t x fuel :
  srepr s t -> reachable s x -> (depth t <= fuel)%nat ->
  exactly_one_case fuel x s.
Proof.
  intros Hs Hx Hfuel. apply (reachable_locs s t x Hs) in Hx.
  destruct (locs_focus _ _ Hx) as (c & l & v & h & r & ->).
  pose proof (bst_remove_leaf_spec _ _ _ _ _ _ _ Hs) as H1.
  pose proof (bst_remove_one_child_spec _ _ _ _ _ _ _ Hs) as H2.
  pose proof (bst_remove_two_child_declines s c l x v h r fuel Hs) as H3.
  assert (depth (T l x v h r) <= fuel)%nat as Hdep.
  { clear -Hfuel. revert Hfuel. generalize (T l x v h r). intros t0.
    induction c as [|f c IH] in t0 |- *; simpl; [done|].
    intros H. apply IH in H. destruct f; simpl in H; lia. }
  unfold exactly_one_case, applies, declines.
  destruct l as [|ll lx lv lh lr]; destruct r as [|rl rx rv rh rr];
    cbn [one_child] in *.
  - left. destruct H1 as (s' & H1 & _). split_and!; eauto.
  - right; left. destruct H2 as (s' & H2 & _). split_and!; eauto.
  - right; left. destruct H2 as (s' & H2 & _). split_and!; eauto.
  - right; right.
    destruct (spine [] rl rx rv rh rr) as [sc [[[sx sv] sh] sr]] eqn:Hsp.
    destruct (bst_remove_two_child_spec s c ll lx lv lh lr x v h rl rx rv rh rr
                fuel Hs ltac:(simpl in *; lia) _ _ _ _ _ Hsp)
      as (s1 & n & Hrun & _).
    split_and!; eauto.
Qed.

(** C7. Under the invariants of the data model the error branches are not
    reached: [insert] and [remove] return normally (no rotation is asked of
    a node that lacks the child it needs, and the removal dispatcher finds
    its case), and at every node of the tree exactly one of the three
    removal cases applies while the other two decline without touching the
    state. *)
Theorem C7_error_branches_unreachable (s : State) (k : Z) (fuel : nat) :
  invariants s -> (2 * base.size (heap s) + 1 <= fuel)%nat ->
  (exists b s', insert fuel (PyInt k) s = (Ok b, s'))
  /\ (exists b s', remove fuel (PyInt k) s = (Ok b, s'))
  /\ (forall x, reachable s x -> exactly_one_case fuel x s).
Proof.
  intros Hinv Hfuel. destruct (invariants_wf s Hinv) as [t Hwf].
  pose proof (wf_store_size s t Hwf) as Hsz. pose proof Hwf as (Hs & _).
  split_and!.
  - destruct (insert_wf s t k fuel Hwf ltac:(lia)) as (s' & t' & Hrun & _).
    eauto.
  - destruct (remove_wf s t k fuel Hwf ltac:(lia)) as (s' & t' & Hrun & _).
    eauto.
  - intros x Hx. eapply exactly_one_case_holds; [exact Hs|exact Hx|].
    pose proof (depth_le_keys t). lia.
Qed.

(** The error branches themselves: what the guarded code does when its
    precondition fails. *)
Lemma rotate_right_without_left s x n :
  heap s !! x = Some n -> left n = None ->
  rotate_right x s = (Raise TypeError, s).
Proof.
  intros Hx Hl. unfold rotate_right. erewrite bind_getf by exact Hx.
  by rewrite Hl.
Qed.

Lemma rotate_left_without_right s x n :
  heap s !! x = Some n -> right n = None ->
  rotate_left x s = (Raise TypeError, s).
Proof.
  intros Hx Hr. unfold rotate_left. erewrite bind_getf by exact Hx.
  by rewrite Hr.
Qed.
Lemma sample_wf : wf sample_state sample_tree.
Proof.
  split_and!.
  - split_and!.
    + vm_compute. reflexivity.
    + vm_compute. repeat split.
    + simpl. repeat constructor; set_solver.
  - unfold bst. simpl. repeat constructor; lia.
  - simpl. lia.
Defined.

Lemma C2_witness :
  invariants sample_state
  /\ (2 * base.size (heap sample_state) + 1 <= 7)%nat
  /\ (exists b s',
        insert 7 (PyInt 1) sample_state = (Ok b, s')
        /\ (b = true <-> ~ present sample_state 1)
        /\ (b = false -> unchanged sample_state s'))
  /\ (exists b s',
        remove 7 (PyInt 1) sample_state = (Ok b, s')
        /\ (b = true <-> present sample_state 1)
        /\ (b = false -> unchanged sample_state s')).
Proof.
  assert (invariants sample_state) as H1
    by exact (wf_invariants _ _ sample_wf).
  assert ((2 * base.size (heap sample_state) + 1 <= 7)%nat) as H2
    by (vm_compute; lia).
  split; [exact H1|]. split; [exact H2|].
  exact (C2_results_and_no_mutation sample_state 1 7 H1 H2).
Defined.
(** ** Rotations *)

Lemma inorder_from_keys h t : forall p fuel,
  repr h p t -> (depth t <= fuel)%nat ->
  inorder_from fuel h (rootof t) = keys t.
Proof.
  induction t as [|l IHl x v ht_ r IHr]; intros p fuel; simpl.
  - intros _ _. by destruct fuel.
  - intros (Hx & Hl & Hr) Hfuel. destruct fuel as [|fuel]; [lia|].
    simpl. rewrite Hx. simpl.
    by rewrite (IHl (Some x)), (IHr (Some x)) by (done || lia).
Qed.

Lemma srepr_inorder s t m :
  srepr s t -> (length (keys t) <= m)%nat ->
  inorder_from m (heap s) (root s) = keys t.
Proof.
  intros (Hroot & Hr & _) Hm. rewrite Hroot.
  eapply inorder_from_keys; [exact Hr|]. pose proof (depth_le_keys t). lia.
Qed.

(** C6. In a tree held by the store, at every node with a left child
    [rotate_right] returns normally, leaves the in-order sequence of keys as
    it was, and leaves the cached heights of the rotated node and of the
    promoted child equal to 1 + the maximum of their children's heights; the
    same holds for [rotate_left] at every node with a right child. *)
Theorem C6_rotations (s : State) (t : tree) (x : loc) (n : Node) (m : nat) :
  srepr s t -> reachable s x -> heap s !! x = Some n ->
  (length (keys t) <= m)%nat ->
  (forall y, left n = Some y ->
     exists s',
       rotate_right x s = (Ok tt, s')
       /\ (exists t', srepr s' t' /\ keys t' = keys t)
       /\ inorder_from m (heap s') (root s')
          = inorder_from m (heap s) (root s)
       /\ height_correct_at s' x /\ height_correct_at s' y)
  /\ (forall y, right n = Some y ->
        exists s',
          rotate_left x s = (Ok tt, s')
          /\ (exists t', srepr s' t' /\ keys t' = keys t)
          /\ inorder_from m (heap s') (root s')
             = inorder_from m (heap s) (root s)
          /\ height_correct_at s' x /\ height_correct_at s' y).
Proof.
  intros Hs Hx Hn Hm. apply (reachable_locs s t x Hs) in Hx.
  destruct (locs_focus _ _ Hx) as (c & l & v & h & r & ->).
  destruct (srepr_focus _ _ _ _ _ _ _ Hs) as (Hx' & _).
  rewrite Hx' in Hn. injection Hn as <-. cbn [left right].
  split; intros y Hy.
  - destruct l as [|a y' vy hy b]; [done|]. injection Hy as ->.
    destruct (rotate_right_spec _ _ _ _ _ _ _ _ _ _ _ Hs) as (s' & Hrun & Hs' & _).
    assert (keys (plug c (rotR (T (T a y vy hy b) x v h r)))
            = keys (plug c (T (T a y vy hy b) x v h r))) as Hk.
    { by rewrite !keys_plug, keys_rotR. }
    exists s'. split_and!.
    + done.
    + by eexists.
    + rewrite (srepr_inorder _ _ _ Hs Hm).
      rewrite (srepr_inorder _ _ _ Hs') by (by rewrite Hk). done.
    + cbn [rotR] in Hs'.
      by eapply (srepr_height_correct_at s' (InR _ _ _ _ :: c)).
    + cbn [rotR] in Hs'. by eapply (srepr_height_correct_at s' c).
  - destruct r as [|b y' vy hy cc]; [done|]. injection Hy as ->.
    destruct (rotate_left_spec _ _ _ _ _ _ _ _ _ _ _ Hs) as (s' & Hrun & Hs' & _).
    assert (keys (plug c (rotL (T l x v h (T b y vy hy cc))))
            = keys (plug c (T l x v h (T b y vy hy cc)))) as Hk.
    { by rewrite !keys_plug, keys_rotL. }
    exists s'. split_and!.
    + done.
    + by eexists.
    + rewrite (srepr_inorder _ _ _ Hs Hm).
      rewrite (srepr_inorder _ _ _ Hs') by (by rewrite Hk). done.
    + cbn [rotL] in Hs'.
      by eapply (srepr_height_correct_at s' (InL _ _ _ _ :: c)).
    + cbn [rotL] in Hs'. by eapply (srepr_height_correct_at s' c).
Qed.

Lemma C6_witness :
  srepr sample_state sample_tree
  /\ reachable sample_state 1%positive
  /\ heap sample_state !! 1%positive
     = Some (mkNode 2 None (Some 2%positive) (Some 3%positive) 1)
  /\ (length (keys sample_tree) <= 3)%nat
  /\ exists s',
       rotate_right 1%positive sample_state = (Ok tt, s')
       /\ (exists t', srepr s' t' /\ keys t' = keys sample_tree)
       /\ inorder_from 3 (heap s') (root s')
          = inorder_from 3 (heap sample_state) (root sample_state)
       /\ height_correct_at s' 1%positive
       /\ height_correct_at s' 2%positive.
Proof.
  pose proof sample_wf as (H1 & _).
  assert (reachable sample_state 1%positive) as H2 by (vm_compute; constructor).
  assert (heap sample_state !! 1%positive
          = Some (mkNode 2 None (Some 2%positive) (Some 3%positive) 1)) as H3
    by (vm_compute; reflexivity).
  assert ((length (keys sample_tree) <= 3)%nat) as H4 by (simpl; lia).
  split; [exact H1|]. split; [exact H2|]. split; [exact H3|].
  split; [exact H4|].
  exact (proj1 (C6_rotations sample_state sample_tree 1%positive _ 3
                  H1 H2 H3 H4) 2%positive eq_refl).
Defined.
(** ** Removal of a node with two children *)

Lemma locs_ctx_value c1 l x v v' h c2 t :
  locs (plug (c1 ++ InR l x v h :: c2) t)
  = locs (plug (c1 ++ InR l x v' h :: c2) t).
Proof. rewrite !plug_app. cbn [plug fill]. by rewrite !locs_plug. Qed.

Lemma ctx_parent_value c1 l x v v' h c2 :
  ctx_parent (c1 ++ InR l x v h :: c2)
  = ctx_parent (c1 ++ InR l x v' h :: c2).
Proof. by destruct c1. Qed.

Lemma sorted_next (A B : list Z) k s :
  sorted (A ++ k :: s :: B) ->
  k < s /\ forall j, j ∈ A ++ k :: s :: B -> k < j -> s <= j.
Proof.
  intros Hs. apply sorted_app in Hs as (_ & [Hk [Hsb _]] & HA).
  rewrite Forall_forall in HA. rewrite Forall_forall in Hsb.
  apply Forall_cons in Hk as [Hks Hk]. split; [done|].
  intros j Hj Hlt. apply elem_of_app in Hj as [Hj|Hj].
  { specialize (HA _ Hj). apply Forall_cons in HA as [? _]. lia. }
  apply elem_of_cons in Hj as [->|Hj]; [lia|].
  apply elem_of_cons in Hj as [->|Hj]; [lia|].
  specialize (Hsb _ Hj). lia.
Qed.

Lemma two_children_keys c l x k h rl rx rv rh rr sc sx sv sh sr :
  spine [] rl rx rv rh rr = (sc, (sx, sv, sh, sr)) ->
  keys (plug c (T l x k h (T rl rx rv rh rr)))
  = (lkeys c ++ keys l) ++ k :: sv :: (keys (plug sc sr) ++ rkeys c).
Proof.
  intros Hsp. pose proof (spine_lkeys rl [] rx rv rh rr) as Hlk.
  rewrite Hsp in Hlk. cbn [fst lkeys] in Hlk.
  apply spine_plug in Hsp. cbn [plug] in Hsp. rewrite <- Hsp.
  rewrite !keys_plug. cbn [keys]. rewrite !keys_plug. cbn [keys].
  rewrite Hlk.
  repeat first [rewrite <- app_assoc | progress cbn [app]]; done.
Qed.

Lemma two_children_removal s t x nx k fuel :
  wf s t -> reachable s x -> heap s !! x = Some nx -> value nx = k ->
  left nx <> None -> right nx <> None ->
  (2 * base.size (heap s) + 1 <= fuel)%nat ->
  exists rx sx sn p s1 s2 nx',
    right nx = Some rx
    /\ successor_loop fuel rx s = (Ok sx, s)
    /\ heap s !! sx = Some sn /\ left sn = None /\ parent sn = Some p
    /\ k < value sn
    /\ (forall j, present s j -> k < j -> value sn <= j)
    /\ bst_remove fuel (probe s) (with_probe k s) = (Ok (Some sx), s1)
    /\ ~ reachable s1 sx
    /\ reachable s1 x /\ root s1 = root s
    /\ heap s1 !! x = Some nx'
    /\ value nx' = value sn /\ parent nx' = parent nx
    /\ left nx' = left nx /\ height nx' = height nx
    /\ size_ s1 = size_ s - 1
    /\ balance fuel p s1 = (Ok tt, s2)
    /\ remove fuel (PyInt k) s = (Ok true, s2)
    /\ size_ s2 = size_ s - 1.
Proof.
  intros Hwf Hx Hnx Hk Hl Hr Hfuel.
  pose proof Hwf as (Hs & Hb & Ha).
  pose proof (wf_store_size s t Hwf) as Hsz.
  pose proof (depth_le_keys t) as Hdep.
  (* the search ends at [x] *)
  assert (k ∈ keys t) as Hin by (apply (present_keys s t k Hs); by exists x, nx).
  destruct (descend k [] t) as [c [|l x' v h r]] eqn:Hd.
  { by destruct (descend_absent _ _ _ Hb Hd). }
  pose proof (descend_found _ _ _ _ _ _ _ _ _ Hd) as ->.
  pose proof (descend_length _ _ _ _ _ Hd) as Hlen. cbn [length] in Hlen.
  pose proof Hd as Hplug. apply descend_plug in Hplug. cbn [plug] in Hplug.
  subst t.
  destruct (srepr_focus _ _ _ _ _ _ _ Hs) as (Hx' & Hrl & Hrr).
  assert (x' = x) as ->.
  { eapply (wf_unique_keys _ _ Hwf); [|exact Hx|exact Hx'|exact Hnx|done].
    apply (reachable_locs _ _ _ Hs). rewrite locs_plug. simpl. set_solver. }
  rewrite Hx' in Hnx. injection Hnx as <-. cbn [left right value parent height] in *.
  destruct l as [|ll lx lv lh lr]; [done|].
  destruct r as [|rl rx rv rh rr]; [done|].
  destruct (spine [] rl rx rv rh rr) as [sc [[[sx sv] sh] sr]] eqn:Hsp.
  pose proof (spine_plug _ _ _ _ _ _ _ _ _ _ _ Hsp) as Hsplug.
  cbn [plug] in Hsplug.
  assert (forall w t0,
            plug c (T (T ll lx lv lh lr) x w h (plug sc t0))
            = plug (sc ++ InR (T ll lx lv lh lr) x w h :: c) t0) as Hre.
  { intros w t0. by rewrite plug_app. }
  (* the successor in the original state *)
  pose proof Hs as Hs_succ. rewrite <- Hsplug, Hre in Hs_succ.
  destruct (srepr_focus _ _ _ _ _ _ _ Hs_succ) as (Hsx & _).
  pose proof (successor_loop_spec rl [] rx rv rh rr _ s fuel Hrr
                ltac:(cbn [depth] in Hlen; lia)) as Hsucc.
  rewrite Hsp in Hsucc. cbn [fst snd] in Hsucc.
  (* the unlinking *)
  destruct (alloc_srepr s _ (new_Node k) Hs) as (Hal & Hs0 & Hfresh & Hsub & Hnone).
  fold (probe s) in Hal, Hs0, Hfresh, Hnone. fold (with_probe k s) in Hal, Hs0.
  assert (heap (with_probe k s) !! probe s = Some (new_Node k)) as Hpr
    by apply lookup_insert_eq.
  pose proof (bst_remove_spec _ _ _ _ fuel Hs0 Hpr ltac:(lia)) as Hrem.
  cbn [value new_Node] in Hrem. rewrite Hd in Hrem.
  cbn [victim unlink] in Hrem. rewrite Hsp in Hrem.
  cbn [fst snd] in Hrem.
  destruct Hrem as (s1 & n & Hrun & Hs1 & Hz1 & Hn & Hp).
  (* the walk *)
  destruct (unlink_avl c (T ll lx lv lh lr) x k h (T rl rx rv rh rr) Ha)
    as (ho & Hc & Ht' & Hd').
  pose proof (unlink_length c (T ll lx lv lh lr) x k h (T rl rx rv rh rr))
    as Hlen'.
  cbn [unlink] in Hc, Ht', Hd', Hlen'.
  rewrite Hsp in Hc, Ht', Hd', Hlen'.
  cbn [fst snd] in Hc, Ht', Hd', Hlen'.
  destruct (balance_loop_tail _ _ ho s1 fuel Hs1 Hc Ht' Hd' ltac:(lia))
    as (s2 & Hrun2 & Hs2 & Hz2).
  assert (exists p, ctx_parent (sc ++ InR (T ll lx lv lh lr) x sv h :: c)
                    = Some p) as [p Hpar].
  { destruct sc; simpl; eauto. }
  rewrite Hpar in Hp, Hrun2.
  pose proof Hs1 as Hs1x. rewrite <- Hre in Hs1x.
  destruct (srepr_focus _ _ _ _ _ _ _ Hs1x) as (Hx1 & _).
  eexists rx, sx, _, p, s1, s2, _. split_and!.
  - done.
  - exact Hsucc.
  - exact Hsx.
  - done.
  - cbn [parent]. rewrite <- Hpar. apply ctx_parent_value.
  - unfold bst in Hb. rewrite (two_children_keys _ _ _ _ _ _ _ _ _ _ _ _ _ _ _ Hsp) in Hb.
    by destruct (sorted_next _ _ _ _ Hb).
  - intros j Hj. apply (present_keys _ _ _ Hs) in Hj.
    unfold bst in Hb.
    rewrite (two_children_keys _ _ _ _ _ _ _ _ _ _ _ _ _ _ _ Hsp) in Hb, Hj.
    destruct (sorted_next _ _ _ _ Hb) as [_ Hleast]. by apply Hleast.
  - exact Hrun.
  - intros Hreach. apply (reachable_locs _ _ _ Hs1) in Hreach.
    pose proof Hs_succ as (_ & _ & Hnd).
    rewrite (locs_ctx_value _ _ _ _ sv) in Hnd.
    rewrite locs_plug in Hnd, Hreach. cbn [locs] in Hnd.
    apply NoDup_app in Hnd as (_ & Hnl & Hnd).
    apply NoDup_app in Hnd as (Hnd & Hnr & _).
    apply NoDup_cons in Hnd as (Hsr & _).
    apply elem_of_app in Hreach as [Hreach|Hreach].
    { apply (Hnl _ Hreach). set_solver. }
    apply elem_of_app in Hreach as [Hreach|Hreach]; [done|].
    apply (Hnr sx); [set_solver|done].
  - apply (reachable_locs _ _ _ Hs1x). rewrite locs_plug. simpl. set_solver.
  - destruct Hs1x as (Hroot1 & _). destruct Hs as (Hroot & _).
    rewrite Hroot1, Hroot, !rootof_plug. done.
  - exact Hx1.
  - done.
  - done.
  - done.
  - done.
  - exact Hz1.
  - exact Hrun2.
  - unfold remove. cbn [create_node_from_value].
    rewrite (bind_run _ _ _ _ _ Hal), (bind_run _ _ _ _ _ Hrun).
    erewrite bind_getf by exact Hn. rewrite Hp.
    unfold balance in Hrun2 |- *. by rewrite (bind_run _ _ _ _ _ Hrun2).
  - by rewrite Hz2, Hz1.
Qed.
(** ** More fuel changes nothing *)

Lemma bind_inv {A B} (m : M A) (k : A -> M B) s b s' :
  bind m k s = (Ok b, s') ->
  exists a s1, m s = (Ok a, s1) /\ k a s1 = (Ok b, s').
Proof.
  unfold bind. destruct (m s) as [[a| | |] s1]; try done. eauto.
Qed.

Lemma mono_const {A} (m : M A) : mono (fun _ => m).
Proof. by intros fuel fuel' s a s' _ H. Qed.

Lemma mono_bind {A B} (f : nat -> M A) (g : nat -> A -> M B) :
  mono f -> (forall a, mono (fun fuel => g fuel a)) ->
  mono (fun fuel => bind (f fuel) (g fuel)).
Proof.
  intros Hf Hg fuel fuel' s b s' Hle Hrun.
  apply bind_inv in Hrun as (a & s1 & Hm & Hk).
  rewrite (bind_run _ _ _ _ _ (Hf _ _ _ _ _ Hle Hm)).
  by eapply (Hg a).
Qed.

Lemma search_loop_mono sn cur res :
  mono (fun fuel => search_loop fuel sn cur res).
Proof.
  intros fuel. revert cur res.
  induction fuel as [|fuel IH]; intros cur res fuel' s a s' Hle Hrun;
    destruct cur as [cur|]; try done.
  - by destruct fuel'.
  - destruct fuel' as [|fuel']; [lia|]. cbn [search_loop] in *.
    apply bind_inv in Hrun as (cv & s1 & H1 & Hrun).
    rewrite (bind_run _ _ _ _ _ H1).
    apply bind_inv in Hrun as (sv & s2 & H2 & Hrun).
    rewrite (bind_run _ _ _ _ _ H2).
    destruct (cv =? sv); [done|].
    apply bind_inv in Hrun as (nx & s3 & H3 & Hrun).
    rewrite (bind_run _ _ _ _ _ H3).
    eapply IH; [|exact Hrun]. lia.
  - by destruct fuel'.
Qed.

Lemma successor_loop_mono x : mono (fun fuel => successor_loop fuel x).
Proof.
  intros fuel. revert x.
  induction fuel as [|fuel IH]; intros x fuel' s a s' Hle Hrun.
  - cbn [successor_loop] in Hrun.
    apply bind_inv in Hrun as (l & s1 & H1 & Hrun).
    destruct l; [done|].
    destruct fuel'; cbn [successor_loop]; by rewrite (bind_run _ _ _ _ _ H1).
  - destruct fuel' as [|fuel']; [lia|]. cbn [successor_loop] in *.
    apply bind_inv in Hrun as (l & s1 & H1 & Hrun).
    rewrite (bind_run _ _ _ _ _ H1). destruct l; [|done].
    eapply IH; [|exact Hrun]. lia.
Qed.

Lemma balance_loop_mono cur : mono (fun fuel => balance_loop fuel cur).
Proof.
  intros fuel. revert cur.
  induction fuel as [|fuel IH]; intros cur fuel' s a s' Hle Hrun;
    destruct cur as [cur|]; try done.
  - by destruct fuel'.
  - destruct fuel' as [|fuel']; [lia|]. cbn [balance_loop] in *.
    apply bind_inv in Hrun as (? & s1 & H1 & Hrun).
    rewrite (bind_run _ _ _ _ _ H1).
    apply bind_inv in Hrun as (bf & s2 & H2 & Hrun).
    rewrite (bind_run _ _ _ _ _ H2).
    apply bind_inv in Hrun as (? & s3 & H3 & Hrun).
    rewrite (bind_run _ _ _ _ _ H3).
    apply bind_inv in Hrun as (p & s4 & H4 & Hrun).
    rewrite (bind_run _ _ _ _ _ H4).
    eapply IH; [|exact Hrun]. lia.
  - by destruct fuel'.
Qed.

Lemma search_node_mono sn : mono (fun fuel => search_node fuel sn).
Proof.
  unfold search_node. apply mono_bind; [apply mono_const|intros cur].
  apply search_loop_mono.
Qed.

Lemma bst_insert_mono node : mono (fun fuel => bst_insert fuel node).
Proof.
  unfold bst_insert. apply mono_bind; [apply search_node_mono|intros r].
  apply mono_const.
Qed.

Lemma bst_remove_two_child_mono node :
  mono (fun fuel => bst_remove_two_child_node fuel node).
Proof.
  unfold bst_remove_two_child_node.
  apply mono_bind; [apply mono_const|intros l].
  apply mono_bind; [apply mono_const|intros r].
  destruct l; [|apply mono_const]. destruct r; [|apply mono_const].
  apply mono_bind; [apply successor_loop_mono|intros ?]. apply mono_const.
Qed.

Lemma bst_remove_mono node : mono (fun fuel => bst_remove fuel node).
Proof.
  unfold bst_remove. apply mono_bind; [apply search_node_mono|intros r].
  destruct (searched_node r); [|apply mono_const].
  apply mono_bind; [apply mono_const|intros d1].
  destruct d1; [apply mono_const|].
  apply mono_bind; [apply mono_const|intros d2].
  destruct d2; [apply mono_const|].
  apply mono_bind; [apply bst_remove_two_child_mono|intros d3].
  apply mono_const.
Qed.

Lemma find_mono v : mono (fun fuel => find fuel v).
Proof.
  unfold find. apply mono_bind; [apply mono_const|intros node].
  apply mono_bind; [apply search_node_mono|intros r]. apply mono_const.
Qed.

Lemma insert_mono v : mono (fun fuel => insert fuel v).
Proof.
  unfold insert. apply mono_bind; [apply mono_const|intros node].
  apply mono_bind; [apply bst_insert_mono|intros b].
  destruct (negb b); [apply mono_const|].
  apply mono_bind; [apply balance_loop_mono|intros ?]. apply mono_const.
Qed.

Lemma remove_mono v : mono (fun fuel => remove fuel v).
Proof.
  unfold remove. apply mono_bind; [apply mono_const|intros node].
  apply mono_bind; [apply bst_remove_mono|intros d].
  destruct d; [|apply mono_const].
  apply mono_bind; [apply mono_const|intros dp].
  apply mono_bind; [|intros ?; apply mono_const].
  destruct dp; [apply balance_loop_mono|apply mono_const].
Qed.

Lemma run_ops_mono ops : mono (fun fuel => run_ops fuel ops).
Proof.
  induction ops as [|o ops IH]; cbn [run_ops]; [apply mono_const|].
  apply mono_bind; [destruct o; [apply insert_mono|apply remove_mono]|].
  intros b. apply mono_bind; [exact IH|intros bs]. apply mono_const.
Qed.
(** ** Single calls and concrete scenarios *)

Lemma scenario_C_wf : wf scenario_C_state scenario_C_tree.
Proof.
  split_and!.
  - split_and!.
    + vm_compute. reflexivity.
    + vm_compute. repeat split.
    + simpl. repeat constructor; set_solver.
  - unfold bst. simpl. repeat constructor; lia.
  - simpl. lia.
Defined.

(** C5. Removing a key whose node has two children: the in-order successor
    (the node the successor loop reaches from the right child; it has no
    left child and holds the least key above the removed one) is the node
    that [__bst_remove] returns and unlinks; the
    target node stays reachable at its place, with its parent, left child
    and cached height untouched and its value overwritten by the
    successor's; the size drops by one; and [remove] then runs the
    rebalancing walk from the successor's former parent.  In scenario C
    (10, 5, 15, 3, 7, 12, 18 inserted, then 10 removed) the node that held
    10 is still the root and holds 12, the size goes from 7 to 6 and the
    in-order traversal is 3, 5, 7, 12, 15, 18. *)
Theorem C5_two_children_removal :
  (forall (s : State) (x : loc) (nx : Node) (k : Z) (fuel : nat),
     invariants s -> reachable s x -> heap s !! x = Some nx ->
     value nx = k -> left nx <> None -> right nx <> None ->
     (2 * base.size (heap s) + 1 <= fuel)%nat ->
     exists rx sx sn p s1 s2 nx',
       right nx = Some rx
       /\ successor_loop fuel rx s = (Ok sx, s)
       /\ heap s !! sx = Some sn /\ left sn = None /\ parent sn = Some p
       /\ k < value sn
       /\ (forall j, present s j -> k < j -> value sn <= j)
       /\ bst_remove fuel (probe s) (with_probe k s) = (Ok (Some sx), s1)
       /\ ~ reachable s1 sx
       /\ reachable s1 x /\ root s1 = root s
       /\ heap s1 !! x = Some nx'
       /\ value nx' = value sn /\ parent nx' = parent nx
       /\ left nx' = left nx /\ height nx' = height nx
       /\ size_ s1 = size_ s - 1
       /\ balance fuel p s1 = (Ok tt, s2)
       /\ remove fuel (PyInt k) s = (Ok true, s2)
       /\ size_ s2 = size_ s - 1)
  /\ (forall fuel : nat,
        (15 <= fuel)%nat ->
        run_ops fuel scenario_C_ops empty_tree
        = (Ok [true; true; true; true; true; true; true], scenario_C_state)
        /\ root scenario_C_state = Some 1%positive
        /\ root_value scenario_C_state = Some 10
        /\ size_ scenario_C_state = 7
        /\ remove fuel (PyInt 10) scenario_C_state
           = (Ok true, scenario_C_removed)
        /\ root scenario_C_removed = Some 1%positive
        /\ root_value scenario_C_removed = Some 12
        /\ size_ scenario_C_removed = 6
        /\ inorder_from 7 (heap scenario_C_removed) (root scenario_C_removed)
           = [3; 5; 7; 12; 15; 18]).
Proof.
  split.
  - intros s x nx k fuel Hinv. destruct (invariants_wf s Hinv) as [t Hwf].
    by eapply two_children_removal.
  - intros fuel Hfuel. split_and!.
    + eapply (run_ops_mono scenario_C_ops 15%nat); [exact Hfuel|].
      vm_compute. reflexivity.
    + vm_compute. reflexivity.
    + vm_compute. reflexivity.
    + vm_compute. reflexivity.
    + eapply (remove_mono (PyInt 10) 15%nat); [exact Hfuel|].
      vm_compute. reflexivity.
    + vm_compute. reflexivity.
    + vm_compute. reflexivity.
    + vm_compute. reflexivity.
    + vm_compute. reflexivity.
Qed.

Lemma C5_witness :
  (invariants scenario_C_state
   /\ reachable scenario_C_state 1%positive
   /\ heap scenario_C_state !! 1%positive
      = Some (mkNode 10 None (Some 2%positive) (Some 3%positive) 2)
   /\ (2 * base.size (heap scenario_C_state) + 1 <= 15)%nat
   /\ exists rx sx sn p s1 s2 nx',
       Some 3%positive = Some rx
       /\ successor_loop 15 rx scenario_C_state = (Ok sx, scenario_C_state)
       /\ heap scenario_C_state !! sx = Some sn
       /\ left sn = None /\ parent sn = Some p
       /\ 10 < value sn
       /\ (forall j, present scenario_C_state j -> 10 < j -> value sn <= j)
       /\ bst_remove 15 (probe scenario_C_state)
            (with_probe 10 scenario_C_state) = (Ok (Some sx), s1)
       /\ ~ reachable s1 sx
       /\ reachable s1 1%positive /\ root s1 = root scenario_C_state
       /\ heap s1 !! 1%positive = Some nx'
       /\ value nx' = value sn /\ parent nx' = None
       /\ left nx' = Some 2%positive /\ height nx' = 2
       /\ size_ s1 = size_ scenario_C_state - 1
       /\ balance 15 p s1 = (Ok tt, s2)
       /\ remove 15 (PyInt 10) scenario_C_state = (Ok true, s2)
       /\ size_ s2 = size_ scenario_C_state - 1)
  /\ ((15 <= 20)%nat
      /\ remove 20 (PyInt 10) scenario_C_state
         = (Ok true, scenario_C_removed)).
Proof.
  assert (invariants scenario_C_state) as H1
    by exact (wf_invariants _ _ scenario_C_wf).
  assert (reachable scenario_C_state 1%positive) as H2
    by (vm_compute; constructor).
  assert (heap scenario_C_state !! 1%positive
          = Some (mkNode 10 None (Some 2%positive) (Some 3%positive) 2)) as H3
    by (vm_compute; reflexivity).
  assert ((2 * base.size (heap scenario_C_state) + 1 <= 15)%nat) as H4
    by (vm_compute; lia).
  assert ((15 <= 20)%nat) as H5 by lia.
  split.
  - split; [exact H1|]. split; [exact H2|]. split; [exact H3|].
    split; [exact H4|].
    refine (proj1 C5_two_children_removal scenario_C_state 1%positive _ 10 15%nat
              H1 H2 H3 eq_refl _ _ H4); discriminate.
  - split; [exact H5|].
    exact (proj1 (proj2 (proj2 (proj2 (proj2
             (proj2 C5_two_children_removal 20%nat H5)))))).
Defined.

(** C8. Inserting 1, 2, 3, 4, 5, 6, 7 in ascending order into an empty tree
    succeeds seven times and leaves a tree whose root holds 4 and whose
    height is 2, both as cached in the root and as measured by a
    traversal. *)
Theorem C8_ascending_inserts (fuel : nat) :
  (15 <= fuel)%nat ->
  run_ops fuel scenario_B_ops empty_tree
  = (Ok [true; true; true; true; true; true; true], scenario_B_state)
  /\ root_value scenario_B_state = Some 4
  /\ root_height scenario_B_state = Some 2
  /\ measured_height 7 (heap scenario_B_state) (root scenario_B_state) = 2
  /\ inorder_from 7 (heap scenario_B_state) (root scenario_B_state)
     = [1; 2; 3; 4; 5; 6; 7].
Proof.
  intros Hfuel. split_and!.
  - eapply (run_ops_mono scenario_B_ops 15%nat); [exact Hfuel|].
    vm_compute. reflexivity.
  - vm_compute. reflexivity.
  - vm_compute. reflexivity.
  - vm_compute. reflexivity.
  - vm_compute. reflexivity.
Qed.

Lemma C8_witness :
  (15 <= 20)%nat
  /\ run_ops 20 scenario_B_ops empty_tree
     = (Ok [true; true; true; true; true; true; true], scenario_B_state)
  /\ root_value scenario_B_state = Some 4
  /\ root_height scenario_B_state = Some 2
  /\ measured_height 7 (heap scenario_B_state) (root scenario_B_state) = 2
  /\ inorder_from 7 (heap scenario_B_state) (root scenario_B_state)
     = [1; 2; 3; 4; 5; 6; 7].
Proof.
  assert ((15 <= 20)%nat) as H by lia.
  split; [exact H|]. exact (C8_ascending_inserts 20%nat H).
Defined.

(** C9. An argument that is neither an integer nor a node makes [find],
    [insert] and [remove] raise [TypeError] with the state exactly as it
    was. *)
Theorem C9_type_error (v : PyValue) (s : State) (fuel : nat) :
  is_int_or_node v = false ->
  find fuel v s = (Raise TypeError, s)
  /\ insert fuel v s = (Raise TypeError, s)
  /\ remove fuel v s = (Raise TypeError, s).
Proof. destruct v; done. Qed.

Lemma C9_witness :
  is_int_or_node (PyStr "7") = false
  /\ find 7 (PyStr "7") sample_state = (Raise TypeError, sample_state)
  /\ insert 7 (PyStr "7") sample_state = (Raise TypeError, sample_state)
  /\ remove 7 (PyStr "7") sample_state = (Raise TypeError, sample_state).
Proof.
  split; [reflexivity|].
  exact (C9_type_error (PyStr "7") sample_state 7%nat eq_refl).
Defined.

(** C10. [AVLTree(root)] with a root node sets the size to 1 whatever hangs
    below that node; on the three-node tree of [sample_state] this makes
    [size] differ from the number of distinct keys reachable from the
    root. *)
Theorem C10_init_size :
  (forall (objs : gmap loc Node) (r : loc),
     size (AVLTree_init objs (Some r)) = (Ok 1, AVLTree_init objs (Some r)))
  /\ (let s := AVLTree_init (heap sample_state) (root sample_state) in
      present s 1 /\ present s 2 /\ present s 3
      /\ size s = (Ok 1, s)
      /\ ~ exists K : gset Z,
             (forall k, k ∈ K <-> present s k)
             /\ size s = (Ok (Z.of_nat (base.size K)), s)).
Proof.
  split; [done|].
  pose proof sample_wf as ((Hroot & Hrepr & Hnd) & _).
  set (s := AVLTree_init (heap sample_state) (root sample_state)).
  assert (size_ s = 1) as Hz by (vm_compute; reflexivity).
  assert (srepr s sample_tree) as Hs by (split_and!; assumption).
  clearbody s. clear Hroot Hrepr Hnd.
  assert (forall k, k ∈ keys sample_tree -> present s k) as Hp
    by (intros k Hk; by apply (present_keys _ _ _ Hs)).
  unfold size. rewrite Hz. split_and!.
  - apply Hp. simpl. set_solver.
  - apply Hp. simpl. set_solver.
  - apply Hp. simpl. set_solver.
  - reflexivity.
  - intros (K & HK & Hsize).
    assert (base.size K = 1%nat) as H1.
    { injection Hsize as Hsize. lia. }
    apply size_1_elem_of in H1 as [k Hk].
    assert (1 ∈ K) as Ha by (apply HK, Hp; simpl; set_solver).
    assert (2 ∈ K) as Hb by (apply HK, Hp; simpl; set_solver).
    rewrite Hk in Ha, Hb. apply elem_of_singleton in Ha, Hb. congruence.
Qed.

Lemma C7_witness :
  invariants sample_state
  /\ (2 * base.size (heap sample_state) + 1 <= 7)%nat
  /\ (exists b s', insert 7 (PyInt 4) sample_state = (Ok b, s'))
  /\ (exists b s', remove 7 (PyInt 2) sample_state = (Ok b, s'))
  /\ (forall x, reachable sample_state x -> exactly_one_case 7 x sample_state).
Proof.
  assert (invariants sample_state) as H1
    by exact (wf_invariants _ _ sample_wf).
  assert ((2 * base.size (heap sample_state) + 1 <= 7)%nat) as H2
    by (vm_compute; lia).
  split; [exact H1|]. split; [exact H2|].
  pose proof (C7_error_branches_unreachable sample_state 4 7%nat H1 H2)
    as (Hi & _ & _).
  pose proof (C7_error_branches_unreachable sample_state 2 7%nat H1 H2)
    as (_ & Hr & He).
  split; [exact Hi|]. split; [exact Hr|exact He].
Defined.
(** * Further properties of the methods *)

(** ** Single calls on any valid state *)

Lemma keyset_size t : bst t -> base.size (keyset t) = length (keys t).
Proof. intros Hb. unfold keyset. apply size_list_to_set. by apply sorted_NoDup. Qed.

Lemma present_keyset s t k : srepr s t -> present s k <-> k ∈ keyset t.
Proof.
  intros Hs. unfold keyset. by rewrite elem_of_list_to_set, (present_keys s t k Hs).
Qed.

(** X1. From any state that satisfies the invariants (not only one built
    from the empty tree), [insert] of an integer returns normally, the
    invariants hold again, the keys present afterwards are the old ones plus
    the inserted one, and the size grows by one exactly when the call
    returns true. *)
Theorem X1_insert_on_valid_state (s : State) (k : Z) (fuel : nat) :
  invariants s -> (2 * base.size (heap s) + 1 <= fuel)%nat ->
  exists b s',
    insert fuel (PyInt k) s = (Ok b, s')
    /\ invariants s'
    /\ (forall j, present s' j <-> j = k \/ present s j)
    /\ size_ s' = size_ s + (if b then 1 else 0).
Proof.
  intros Hinv Hfuel. destruct (invariants_wf s Hinv) as [t Hwf].
  pose proof (wf_store_size s t Hwf) as Hsz. pose proof Hwf as (Hs & Hb & _).
  destruct (insert_wf s t k fuel Hwf ltac:(lia))
    as (s' & t' & Hrun & Hwf' & Hk & _ & _ & Hz).
  pose proof Hwf' as (Hs' & Hb' & _).
  eexists _, s'. split; [exact Hrun|]. split; [by eapply wf_invariants|].
  split.
  - intros j. rewrite (present_keyset s' t' j Hs'), (present_keyset s t j Hs), Hk.
    rewrite elem_of_union, elem_of_singleton. done.
  - pose proof (keyset_size t Hb) as H1. pose proof (keyset_size t' Hb') as H2.
    rewrite Hk in H2. case_bool_decide as Hin.
    + rewrite size_union in H2 by set_solver. rewrite size_singleton in H2. lia.
    + replace ({[k]} ∪ keyset t) with (keyset t) in H2 by set_solver. lia.
Qed.

(** X2. From any state that satisfies the invariants, [remove] of an integer
    returns normally, the invariants hold again, the keys present afterwards
    are the old ones without the removed one, and the size drops by one
    exactly when the call returns true. *)
Theorem X2_remove_on_valid_state (s : State) (k : Z) (fuel : nat) :
  invariants s -> (2 * base.size (heap s) + 1 <= fuel)%nat ->
  exists b s',
    remove fuel (PyInt k) s = (Ok b, s')
    /\ invariants s'
    /\ (forall j, present s' j <-> j <> k /\ present s j)
    /\ size_ s' = size_ s - (if b then 1 else 0).
Proof.
  intros Hinv Hfuel. destruct (invariants_wf s Hinv) as [t Hwf].
  pose proof (wf_store_size s t Hwf) as Hsz. pose proof Hwf as (Hs & Hb & _).
  destruct (remove_wf s t k fuel Hwf ltac:(lia))
    as (s' & t' & Hrun & Hwf' & Hk & _ & _ & Hz).
  pose proof Hwf' as (Hs' & Hb' & _).
  eexists _, s'. split; [exact Hrun|]. split; [by eapply wf_invariants|].
  split.
  - intros j. rewrite (present_keyset s' t' j Hs'), (present_keyset s t j Hs), Hk.
    rewrite elem_of_difference, elem_of_singleton. tauto.
  - pose proof (keyset_size t Hb) as H1. pose proof (keyset_size t' Hb') as H2.
    rewrite Hk in H2. case_bool_decide as Hin.
    + assert (base.size (keyset t)
              = (base.size (keyset t ∖ {[k]}) + 1)%nat) as H3.
      { rewrite (union_difference_L {[k]} (keyset t)) at 1 by set_solver.
        rewrite size_union by set_solver. rewrite size_singleton. lia. }
      lia.
    + replace (keyset t ∖ {[k]}) with (keyset t) in H2 by set_solver. lia.
Qed.

Lemma X1_witness :
  invariants sample_state
  /\ (2 * base.size (heap sample_state) + 1 <= 7)%nat
  /\ exists b s',
       insert 7 (PyInt 4) sample_state = (Ok b, s')
       /\ invariants s'
       /\ (forall j, present s' j <-> j = 4 \/ present sample_state j)
       /\ size_ s' = size_ sample_state + (if b then 1 else 0).
Proof.
  assert (invariants sample_state) as H1
    by exact (wf_invariants _ _ sample_wf).
  assert ((2 * base.size (heap sample_state) + 1 <= 7)%nat) as H2
    by (vm_compute; lia).
  split; [exact H1|]. split; [exact H2|].
  exact (X1_insert_on_valid_state sample_state 4 7%nat H1 H2).
Defined.

Lemma X2_witness :
  invariants sample_state
  /\ (2 * base.size (heap sample_state) + 1 <= 7)%nat
  /\ exists b s',
       remove 7 (PyInt 2) sample_state = (Ok b, s')
       /\ invariants s'
       /\ (forall j, present s' j <-> j <> 2 /\ present sample_state j)
       /\ size_ s' = size_ sample_state - (if b then 1 else 0).
Proof.
  assert (invariants sample_state) as H1
    by exact (wf_invariants _ _ sample_wf).
  assert ((2 * base.size (heap sample_state) + 1 <= 7)%nat) as H2
    by (vm_compute; lia).
  split; [exact H1|]. split; [exact H2|].
  exact (X2_remove_on_valid_state sample_state 2 7%nat H1 H2).
Defined.

(** ** [find] only reads *)

Lemma readonly_ret {A} (a : A) : readonly (ret a).
Proof. by intros s. Qed.

Lemma readonly_getf {A} (f : Node -> A) x : readonly (getf f x).
Proof. intros s. unfold getf. by destruct (heap s !! x). Qed.

Lemma readonly_bind {A B} (m : M A) (k : A -> M B) :
  readonly m -> (forall a, readonly (k a)) -> readonly (bind m k).
Proof.
  intros Hm Hk s. unfold bind. specialize (Hm s).
  destruct (m s) as [[a| | |] s1]; simpl in *; subst; try done. apply Hk.
Qed.

Lemma search_loop_readonly fuel sn : forall cur res,
  readonly (search_loop fuel sn cur res).
Proof.
  induction fuel as [|fuel IH]; intros [cur|] res; try (by intros s).
  cbn [search_loop].
  apply readonly_bind; [apply readonly_getf|intros cv].
  apply readonly_bind; [apply readonly_getf|intros sv].
  destruct (cv =? sv); [apply readonly_ret|].
  apply readonly_bind; [|intros nx; apply IH].
  destruct (sv <? cv); apply readonly_getf.
Qed.

Lemma search_node_readonly fuel sn : readonly (search_node fuel sn).
Proof.
  unfold search_node. apply readonly_bind; [by intros s|intros cur].
  apply search_loop_readonly.
Qed.

(** X3. [find] never changes the tree: on every store, well formed or not,
    for every argument and whatever it returns or raises, the root, the
    size and every object of the store are afterwards as they were (an
    integer argument only adds its unreferenced probe node). *)
Theorem X3_find_only_reads (fuel : nat) (v : PyValue) (s : State) :
  unchanged s (snd (find fuel v s)).
Proof.
  unfold find. destruct v as [k|x| |str]; cbn [create_node_from_value].
  - unfold bind at 1. cbn [alloc].
    set (s0 := mkState _ _ _).
    assert (unchanged s s0) as Hu.
    { split_and!; [done|done|]. apply insert_subseteq.
      apply not_elem_of_dom, is_fresh. }
    pose proof (readonly_bind (search_node fuel (fresh (dom (heap s))))
                  (fun r => ret (if is_found r then searched_node r else None))
                  (search_node_readonly _ _)
                  (fun r => readonly_ret _) s0) as Hro.
    by rewrite Hro.
  - rewrite bind_ret.
    pose proof (readonly_bind (search_node fuel x)
                  (fun r => ret (if is_found r then searched_node r else None))
                  (search_node_readonly _ _)
                  (fun r => readonly_ret _) s) as Hro.
    rewrite Hro. by split_and!.
  - by split_and!.
  - by split_and!.
Qed.

(** X4. On any state that satisfies the invariants, [find] of an integer
    returns a node of the tree that holds the key when the key is present
    and [None] when it is not. *)
Theorem X4_find_on_valid_state (s : State) (k : Z) (fuel : nat) :
  invariants s -> (2 * base.size (heap s) + 1 <= fuel)%nat ->
  exists r s',
    find fuel (PyInt k) s = (Ok r, s')
    /\ (present s k ->
        exists x n, r = Some x /\ reachable s x
          /\ heap s !! x = Some n /\ value n = k)
    /\ (~ present s k -> r = None).
Proof.
  intros Hinv Hfuel. destruct (invariants_wf s Hinv) as [t Hwf].
  pose proof (wf_store_size s t Hwf) as Hsz. pose proof Hwf as (Hs & _).
  pose proof (depth_le_keys t) as Hdep.
  destruct (find_spec s t k fuel Hwf ltac:(lia))
    as (r & s' & Hrun & (_ & _ & Hsub) & Hin & Hout).
  exists r, s'. split; [exact Hrun|]. split.
  - intros Hp. apply (present_keys s t k Hs) in Hp.
    destruct (Hin Hp) as (x & n & -> & Hx & Hn & Hv).
    exists x, n. split_and!; [done|done| |done].
    apply (reachable_locs s t x Hs) in Hx.
    destruct Hs as (_ & Hr & _).
    destruct (repr_lookup _ _ _ _ Hr Hx) as [n0 Hn0].
    pose proof (lookup_weaken _ _ _ _ Hn0 Hsub) as Hn0'.
    rewrite Hn in Hn0'. by injection Hn0' as ->.
  - intros Hp. apply Hout. by rewrite <- (present_keys s t k Hs).
Qed.

Lemma X4_witness :
  invariants sample_state
  /\ (2 * base.size (heap sample_state) + 1 <= 7)%nat
  /\ exists r s',
       find 7 (PyInt 3) sample_state = (Ok r, s')
       /\ (present sample_state 3 ->
           exists x n, r = Some x /\ reachable sample_state x
             /\ heap sample_state !! x = Some n /\ value n = 3)
       /\ (~ present sample_state 3 -> r = None).
Proof.
  assert (invariants sample_state) as H1
    by exact (wf_invariants _ _ sample_wf).
  assert ((2 * base.size (heap sample_state) + 1 <= 7)%nat) as H2
    by (vm_compute; lia).
  split; [exact H1|]. split; [exact H2|].
  exact (X4_find_on_valid_state sample_state 3 7%nat H1 H2).
Defined.
(** ** Measured height, cached height and the size of the tree *)

Lemma get_height_repr s t : forall p fuel,
  repr (heap s) p t -> (depth t <= fuel)%nat ->
  get_height fuel (rootof t) s = (Ok (Z.of_nat (depth t)), s).
Proof.
  induction t as [|l IHl x v h r IHr]; intros p fuel.
  - intros _ _. by destruct fuel.
  - intros (Hx & Hl & Hr) Hfuel. cbn [depth] in Hfuel.
    destruct fuel as [|fuel]; [lia|]. cbn [rootof get_height].
    erewrite bind_getf by exact Hx. cbn [left].
    rewrite (bind_run _ _ _ _ _ (IHl _ fuel Hl ltac:(lia))).
    erewrite bind_getf by exact Hx. cbn [right].
    rewrite (bind_run _ _ _ _ _ (IHr _ fuel Hr ltac:(lia))).
    unfold ret. do 2 f_equal. cbn [depth]. lia.
Qed.

Lemma avl_depth t : avl t -> Z.of_nat (depth t) = ht t + 1.
Proof.
  induction t as [|l IHl x v h r IHr]; simpl; [done|].
  intros (Hl & Hr & -> & _). specialize (IHl Hl). specialize (IHr Hr). lia.
Qed.

Lemma fib_SS n : fib (S (S n)) = (fib n + fib (S n))%nat.
Proof. done. Qed.

Lemma fib_mono n : (fib n <= fib (S n))%nat.
Proof. destruct n as [|n]; [simpl; lia|]. rewrite fib_SS. lia. Qed.

Lemma avl_fib t : avl t -> (fib (depth t + 2) <= length (keys t) + 1)%nat.
Proof.
  induction t as [|l IHl x v h r IHr]; [simpl; lia|].
  intros Ha. pose proof Ha as (Hl & Hr & Hh & Hd).
  specialize (IHl Hl). specialize (IHr Hr).
  pose proof (avl_depth _ Hl) as Hdl. pose proof (avl_depth _ Hr) as Hdr.
  cbn [depth keys]. rewrite length_app. cbn [length].
  replace (S (Nat.max (depth l) (depth r)) + 2)%nat
    with (S (S (S (Nat.max (depth l) (depth r))))) by lia.
  rewrite fib_SS.
  assert (depth l = depth r \/ depth l = S (depth r) \/ depth r = S (depth l))
    as [He|[He|He]] by lia.
  - rewrite He, Nat.max_id in *.
    replace (depth r + 2)%nat with (S (S (depth r))) in * by lia.
    pose proof (fib_mono (S (depth r))). lia.
  - rewrite He in *. rewrite Nat.max_l by lia.
    replace (depth r + 2)%nat with (S (S (depth r))) in * by lia.
    replace (S (depth r) + 2)%nat with (S (S (S (depth r)))) in * by lia.
    lia.
  - rewrite He in *. rewrite Nat.max_r by lia.
    replace (depth l + 2)%nat with (S (S (depth l))) in * by lia.
    replace (S (depth l) + 2)%nat with (S (S (S (depth l)))) in * by lia.
    lia.
Qed.

Lemma fib_pow2 g : (2 ^ ((g + 1) / 2) <= fib (g + 2))%nat.
Proof.
  induction g as [g IH] using lt_wf_ind.
  destruct g as [|[|g]]; [simpl; lia..|].
  replace (S (S g) + 2)%nat with (S (S (S (S g)))) by lia.
  replace ((S (S g) + 1) / 2)%nat with (S ((g + 1) / 2)).
  2:{ replace (S (S g) + 1)%nat with (g + 1 + 1 * 2)%nat by lia.
      rewrite Nat.div_add by lia. lia. }
  rewrite fib_SS. specialize (IH g ltac:(lia)).
  replace (g + 2)%nat with (S (S g)) in IH by lia.
  pose proof (fib_mono (S (S g))). rewrite Nat.pow_succ_r'. lia.
Qed.

(** X5. On any state that satisfies the invariants, [get_height] of
    [main.py], started at any node of the tree, returns the height cached in
    that node plus one (it counts levels where the cache counts edges), and
    changes nothing. *)
Theorem X5_get_height_matches_cache (s : State) (x : loc) (n : Node)
    (fuel : nat) :
  invariants s -> (base.size (heap s) <= fuel)%nat ->
  reachable s x -> heap s !! x = Some n ->
  get_height fuel (Some x) s = (Ok (height n + 1), s).
Proof.
  intros Hinv Hfuel Hx Hn. destruct (invariants_wf s Hinv) as [t Hwf].
  pose proof (wf_store_size s t Hwf) as Hsz. pose proof Hwf as (Hs & _ & Ha).
  pose proof (depth_le_keys t) as Hdep.
  apply (reachable_locs s t x Hs) in Hx.
  destruct (locs_focus _ _ Hx) as (c & l & v & h & r & ->).
  destruct (srepr_focus _ _ _ _ _ _ _ Hs) as (Hx' & Hl & Hr).
  rewrite Hx' in Hn. injection Hn as <-. cbn [height].
  apply avl_plug_inv in Ha as [Ha _].
  assert (repr (heap s) (ctx_parent c) (T l x v h r)) as Hrepr by done.
  assert (depth (T l x v h r) <= fuel)%nat as Hd.
  { assert (depth (T l x v h r) <= depth (plug c (T l x v h r)))%nat; [|lia].
    generalize (T l x v h r). clear. intros t0.
    induction c as [|f c IH] in t0 |- *; simpl; [done|].
    etrans; [|apply IH]. destruct f; simpl; lia. }
  pose proof (get_height_repr s _ _ fuel Hrepr Hd) as Hrun.
  cbn [rootof] in Hrun. rewrite Hrun, (avl_depth _ Ha). done.
Qed.

Lemma X5_witness :
  invariants sample_state
  /\ (base.size (heap sample_state) <= 3)%nat
  /\ reachable sample_state 1%positive
  /\ heap sample_state !! 1%positive
     = Some (mkNode 2 None (Some 2%positive) (Some 3%positive) 1)
  /\ get_height 3 (Some 1%positive) sample_state = (Ok (1 + 1), sample_state).
Proof.
  assert (invariants sample_state) as H1
    by exact (wf_invariants _ _ sample_wf).
  assert ((base.size (heap sample_state) <= 3)%nat) as H2
    by (vm_compute; lia).
  assert (reachable sample_state 1%positive) as H3 by (vm_compute; constructor).
  assert (heap sample_state !! 1%positive
          = Some (mkNode 2 None (Some 2%positive) (Some 3%positive) 1)) as H4
    by (vm_compute; reflexivity).
  split; [exact H1|]. split; [exact H2|]. split; [exact H3|].
  split; [exact H4|].
  exact (X5_get_height_matches_cache sample_state 1%positive _ 3%nat
           H1 H2 H3 H4).
Defined.

(** X6. The height is logarithmic in the number of keys: on any state that
    satisfies the invariants, if the tree holds the set [K] of keys and
    [get_height] counts [g] levels from the root, then
    [fib (g + 2) <= |K| + 1], hence [2 ^ ((g + 1) / 2) <= |K| + 1]. *)
Theorem X6_height_is_logarithmic (s : State) (K : gset Z) (fuel : nat) :
  invariants s -> (base.size (heap s) <= fuel)%nat ->
  (forall k, k ∈ K <-> present s k) ->
  exists g : nat,
    get_height fuel (root s) s = (Ok (Z.of_nat g), s)
    /\ (fib (g + 2) <= base.size K + 1)%nat
    /\ (2 ^ ((g + 1) / 2) <= base.size K + 1)%nat.
Proof.
  intros Hinv Hfuel HK. destruct (invariants_wf s Hinv) as [t Hwf].
  pose proof (wf_store_size s t Hwf) as Hsz. pose proof Hwf as (Hs & Hb & Ha).
  pose proof (depth_le_keys t) as Hdep.
  assert (K = keyset t) as ->.
  { apply set_eq. intros k. by rewrite HK, (present_keyset s t k Hs). }
  rewrite (keyset_size t Hb).
  exists (depth t). pose proof Hs as (Hroot & Hr & _). rewrite Hroot.
  split; [by eapply get_height_repr; [exact Hr|lia]|].
  pose proof (avl_fib t Ha). pose proof (fib_pow2 (depth t)). lia.
Qed.

Lemma X6_witness :
  invariants sample_state
  /\ (base.size (heap sample_state) <= 3)%nat
  /\ (forall k, k ∈ ({[1; 2; 3]} : gset Z) <-> present sample_state k)
  /\ exists g : nat,
       get_height 3 (root sample_state) sample_state
       = (Ok (Z.of_nat g), sample_state)
       /\ (fib (g + 2) <= base.size ({[1%Z; 2%Z; 3%Z]} : gset Z) + 1)%nat
       /\ (2 ^ ((g + 1) / 2) <= base.size ({[1%Z; 2%Z; 3%Z]} : gset Z) + 1)%nat.
Proof.
  assert (invariants sample_state) as H1
    by exact (wf_invariants _ _ sample_wf).
  assert ((base.size (heap sample_state) <= 3)%nat) as H2
    by (vm_compute; lia).
  assert (forall k, k ∈ ({[1; 2; 3]} : gset Z) <-> present sample_state k)
    as H3.
  { intros k. destruct sample_wf as (Hs & _).
    rewrite (present_keys _ _ k Hs). simpl. set_solver. }
  split; [exact H1|]. split; [exact H2|]. split; [exact H3|].
  exact (X6_height_is_logarithmic sample_state _ 3%nat H1 H2 H3).
Defined.
(** ** Rotations undo each other; rebalancing a balanced tree *)

Lemma repr_agree h h' t : forall p z,
  repr h p t -> repr h' p t -> z ∈ locs t -> h' !! z = h !! z.
Proof.
  induction t as [|l IHl x v ht_ r IHr]; intros p z; simpl.
  - intros _ _ Hz. by apply elem_of_nil in Hz.
  - intros (Hx & Hl & Hr) (Hx' & Hl' & Hr') Hz.
    apply elem_of_app in Hz as [Hz|Hz]; [by eapply IHl|].
    apply elem_of_cons in Hz as [->|Hz]; [congruence|by eapply IHr].
Qed.

Lemma srepr_agree s s' t :
  srepr s t -> srepr s' t ->
  root s' = root s /\ forall z, reachable s z -> heap s' !! z = heap s !! z.
Proof.
  intros Hs Hs'. pose proof Hs as (Hroot & Hr & _).
  pose proof Hs' as (Hroot' & Hr' & _). split; [congruence|].
  intros z Hz. apply (reachable_locs s t z Hs) in Hz. by eapply repr_agree.
Qed.

Lemma height_correct_at_focus s c l x v h r :
  srepr s (plug c (T l x v h r)) -> height_correct_at s x ->
  h = Z.max (ht l) (ht r) + 1.
Proof.
  intros Hs (n & hl & hr & Hn & Hhl & Hhr & Hh).
  destruct (srepr_focus _ _ _ _ _ _ _ Hs) as (Hx & Hl & Hr).
  rewrite Hx in Hn. injection Hn as <-. cbn [left right height] in *.
  destruct s as [hp rt sz]. cbn [heap] in *.
  rewrite (height_or_minus1_run _ _ _ _ _ Hl) in Hhl.
  rewrite (height_or_minus1_run _ _ _ _ _ Hr) in Hhr.
  injection Hhl as <-. injection Hhr as <-. lia.
Qed.

(** X7. The two rotations undo each other.  In a tree held by the store, at
    a node [x] with left child [y] whose cached heights are both right,
    [rotate_right x] followed by [rotate_left y] returns normally and leaves
    the root and every object of the tree exactly as they were; the same
    holds for [rotate_left x] followed by [rotate_right y] when [y] is the
    right child. *)
Theorem X7_rotations_are_inverse (s : State) (t : tree) (x y : loc)
    (n : Node) :
  srepr s t -> reachable s x -> heap s !! x = Some n ->
  height_correct_at s x -> height_correct_at s y ->
  (left n = Some y ->
   exists s1 s2,
     rotate_right x s = (Ok tt, s1) /\ rotate_left y s1 = (Ok tt, s2)
     /\ root s2 = root s
     /\ forall z, reachable s z -> heap s2 !! z = heap s !! z)
  /\ (right n = Some y ->
      exists s1 s2,
        rotate_left x s = (Ok tt, s1) /\ rotate_right y s1 = (Ok tt, s2)
        /\ root s2 = root s
        /\ forall z, reachable s z -> heap s2 !! z = heap s !! z).
Proof.
  intros Hs Hx Hn Hhx Hhy. apply (reachable_locs s t x Hs) in Hx.
  destruct (locs_focus _ _ Hx) as (c & l & v & h & r & ->).
  destruct (srepr_focus _ _ _ _ _ _ _ Hs) as (Hx' & _).
  rewrite Hx' in Hn. injection Hn as <-. cbn [left right].
  pose proof (height_correct_at_focus _ _ _ _ _ _ _ Hs Hhx) as Hh.
  split; intros Hy.
  - destruct l as [|a y' vy hy b]; [done|]. injection Hy as ->.
    pose proof (height_correct_at_focus s (InL x v h r :: c) _ _ _ _ _ Hs Hhy)
      as Hh'.
    destruct (rotate_right_spec _ _ _ _ _ _ _ _ _ _ _ Hs) as (s1 & Hrun1 & Hs1 & _).
    cbn [rotR] in Hs1.
    destruct (rotate_left_spec _ _ _ _ _ _ _ _ _ _ _ Hs1) as (s2 & Hrun2 & Hs2 & _).
    cbn [rotL ht] in Hs2, Hh. rewrite <- Hh', <- Hh in Hs2.
    exists s1, s2. split; [done|]. split; [done|]. by eapply srepr_agree.
  - destruct r as [|b y' vy hy cc]; [done|]. injection Hy as ->.
    pose proof (height_correct_at_focus s (InR l x v h :: c) _ _ _ _ _ Hs Hhy)
      as Hh'.
    destruct (rotate_left_spec _ _ _ _ _ _ _ _ _ _ _ Hs) as (s1 & Hrun1 & Hs1 & _).
    cbn [rotL] in Hs1.
    destruct (rotate_right_spec _ _ _ _ _ _ _ _ _ _ _ Hs1) as (s2 & Hrun2 & Hs2 & _).
    cbn [rotR ht] in Hs2, Hh. rewrite <- Hh', <- Hh in Hs2.
    exists s1, s2. split; [done|]. split; [done|]. by eapply srepr_agree.
Qed.

Lemma X7_witness :
  srepr sample_state sample_tree
  /\ reachable sample_state 1%positive
  /\ heap sample_state !! 1%positive
     = Some (mkNode 2 None (Some 2%positive) (Some 3%positive) 1)
  /\ height_correct_at sample_state 1%positive
  /\ height_correct_at sample_state 2%positive
  /\ exists s1 s2,
       rotate_right 1%positive sample_state = (Ok tt, s1)
       /\ rotate_left 2%positive s1 = (Ok tt, s2)
       /\ root s2 = root sample_state
       /\ forall z, reachable sample_state z ->
            heap s2 !! z = heap sample_state !! z.
Proof.
  pose proof sample_wf as (H1 & _).
  assert (reachable sample_state 1%positive) as H2 by (vm_compute; constructor).
  assert (heap sample_state !! 1%positive
          = Some (mkNode 2 None (Some 2%positive) (Some 3%positive) 1)) as H3
    by (vm_compute; reflexivity).
  assert (height_correct_at sample_state 1%positive) as H4.
  { exists (mkNode 2 None (Some 2%positive) (Some 3%positive) 1), 0, 0.
    vm_compute. repeat split; reflexivity. }
  assert (height_correct_at sample_state 2%positive) as H5.
  { exists (mkNode 1 (Some 1%positive) None None 0), (-1), (-1).
    vm_compute. repeat split; reflexivity. }
  split; [exact H1|]. split; [exact H2|]. split; [exact H3|].
  split; [exact H4|]. split; [exact H5|].
  exact (proj1 (X7_rotations_are_inverse sample_state sample_tree 1%positive
                  2%positive _ H1 H2 H3 H4 H5) eq_refl).
Defined.

Lemma walk_up_id c : forall t, avl (plug c t) -> walk_up c t = plug c t.
Proof.
  induction c as [|f c IH]; intros t Ha; [done|]. cbn [walk_up plug] in *.
  rewrite walk_walk_up. pose proof Ha as Ha'.
  apply avl_plug_inv in Ha' as [Hf _]. rewrite (rebal_avl_id _ Hf).
  by apply IH.
Qed.

(** X8. Rebalancing a tree that is already balanced changes nothing: on any
    state that satisfies the invariants, [__balance] started at any node of
    the tree returns normally and leaves the root, the size and every
    object of the tree as they were. *)
Theorem X8_balance_on_balanced_tree (s : State) (x : loc) (fuel : nat) :
  invariants s -> (2 * base.size (heap s) + 1 <= fuel)%nat ->
  reachable s x ->
  exists s',
    balance fuel x s = (Ok tt, s')
    /\ root s' = root s /\ size_ s' = size_ s
    /\ forall z, reachable s z -> heap s' !! z = heap s !! z.
Proof.
  intros Hinv Hfuel Hx. destruct (invariants_wf s Hinv) as [t Hwf].
  pose proof (wf_store_size s t Hwf) as Hsz. pose proof Hwf as (Hs & _ & Ha).
  pose proof (depth_le_keys t) as Hdep.
  apply (reachable_locs s t x Hs) in Hx.
  destruct (locs_focus _ _ Hx) as (c & l & v & h & r & ->).
  pose proof Ha as Ha'. apply avl_plug_inv in Ha' as [Ht Hc].
  assert (length c <= depth (plug c (T l x v h r)))%nat as Hlen.
  { generalize (T l x v h r). clear. intros t0.
    induction c as [|f c IH] in t0 |- *; simpl; [lia|].
    specialize (IH (fill f t0)).
    assert (1 <= depth (fill f t0))%nat by (destruct f; simpl; lia).
    assert (forall c t1, (depth t1 <= depth (plug c t1))%nat) as Hmono.
    { clear. intros c. induction c as [|f c IH]; intros t1; simpl; [done|].
      etrans; [|apply IH]. destruct f; simpl; lia. }
    clear IH. revert H. generalize (fill f t0). intros t1 H1.
    assert (length c + depth t1 <= depth (plug c t1))%nat; [|lia].
    clear H1. induction c as [|g c IH] in t1 |- *; simpl; [lia|].
    specialize (IH (fill g t1)).
    assert (S (depth t1) <= depth (fill g t1))%nat by (destruct g; simpl; lia).
    lia. }
  destruct (balance_spec c _ s fuel (ht (T l x v h r)) x Hs eq_refl Hc Ht
              ltac:(lia) ltac:(lia)) as (s' & Hrun & Hs' & Hz).
  rewrite walk_walk_up, (rebal_avl_id _ Ht), (walk_up_id _ _ Ha) in Hs'.
  exists s'. split; [done|].
  destruct (srepr_agree _ _ _ Hs Hs') as [Hroot Hag]. by split_and!.
Qed.

Lemma X8_witness :
  invariants sample_state
  /\ (2 * base.size (heap sample_state) + 1 <= 7)%nat
  /\ reachable sample_state 2%positive
  /\ exists s',
       balance 7 2%positive sample_state = (Ok tt, s')
       /\ root s' = root sample_state /\ size_ s' = size_ sample_state
       /\ forall z, reachable sample_state z ->
            heap s' !! z = heap sample_state !! z.
Proof.
  assert (invariants sample_state) as H1
    by exact (wf_invariants _ _ sample_wf).
  assert ((2 * base.size (heap sample_state) + 1 <= 7)%nat) as H2
    by (vm_compute; lia).
  assert (reachable sample_state 2%positive) as H3.
  { destruct sample_wf as (Hs & _). apply (reachable_locs _ _ _ Hs).
    simpl. set_solver. }
  split; [exact H1|]. split; [exact H2|]. split; [exact H3|].
  exact (X8_balance_on_balanced_tree sample_state 2%positive 7%nat H1 H2 H3).
Defined.

(** X9. When the rotations fail.  At a node [x] of a tree held by the
    store, [rotate_right] raises [TypeError] when [x] has no left child and
    returns normally when it has one; [rotate_left] raises [TypeError] when
    [x] has no right child and returns normally when it has one.  A failing
    rotation has written nothing: the state is exactly as before. *)
Theorem X9_rotation_failure (s : State) (t : tree) (x : loc) (n : Node) :
  srepr s t -> reachable s x -> heap s !! x = Some n ->
  (left n = None -> rotate_right x s = (Raise TypeError, s))
  /\ (left n <> None -> exists s', rotate_right x s = (Ok tt, s'))
  /\ (right n = None -> rotate_left x s = (Raise TypeError, s))
  /\ (right n <> None -> exists s', rotate_left x s = (Ok tt, s')).
Proof.
  intros Hs Hx Hn. split_and!.
  - intros Hc. by eapply rotate_right_without_left.
  - intros Hc. apply (reachable_locs s t x Hs) in Hx.
    destruct (locs_focus _ _ Hx) as (c & l & v & h & r & ->).
    destruct (srepr_focus _ _ _ _ _ _ _ Hs) as (Hx' & _).
    rewrite Hx' in Hn. injection Hn as <-. cbn [left] in Hc.
    destruct l as [|a y vy hy b]; [done|].
    destruct (rotate_right_spec _ _ _ _ _ _ _ _ _ _ _ Hs) as (s' & Hrun & _).
    by exists s'.
  - intros Hc. by eapply rotate_left_without_right.
  - intros Hc. apply (reachable_locs s t x Hs) in Hx.
    destruct (locs_focus _ _ Hx) as (c & l & v & h & r & ->).
    destruct (srepr_focus _ _ _ _ _ _ _ Hs) as (Hx' & _).
    rewrite Hx' in Hn. injection Hn as <-. cbn [right] in Hc.
    destruct r as [|b y vy hy cc]; [done|].
    destruct (rotate_left_spec _ _ _ _ _ _ _ _ _ _ _ Hs) as (s' & Hrun & _).
    by exists s'.
Qed.

Lemma X9_witness :
  srepr sample_state sample_tree
  /\ reachable sample_state 2%positive
  /\ heap sample_state !! 2%positive
     = Some (mkNode 1 (Some 1%positive) None None 0)
  /\ rotate_right 2%positive sample_state = (Raise TypeError, sample_state)
  /\ rotate_left 2%positive sample_state = (Raise TypeError, sample_state).
Proof.
  pose proof sample_wf as (H1 & _).
  assert (reachable sample_state 2%positive) as H2.
  { apply (reachable_locs _ _ _ H1). simpl. set_solver. }
  assert (heap sample_state !! 2%positive
          = Some (mkNode 1 (Some 1%positive) None None 0)) as H3
    by (vm_compute; reflexivity).
  pose proof (X9_rotation_failure sample_state sample_tree 2%positive _
                H1 H2 H3) as (Ha & _ & Hb & _).
  split; [exact H1|]. split; [exact H2|]. split; [exact H3|].
  split; [exact (Ha eq_refl)|exact (Hb eq_refl)].
Defined.
(** ** The empty tree *)

(** X10. Edge behaviour on the empty tree, for every key [k]: [find] gives
    [None], [remove] gives [False] and changes nothing; [insert] gives
    [True] and makes a fresh leaf (no parent, no children, height 0) the
    root, with size 1; removing [k] again gives [True] and leaves the root
    [None] and the size 0. *)
Theorem X10_empty_tree (k : Z) (fuel : nat) :
  (3 <= fuel)%nat ->
  fst (find fuel (PyInt k) empty_tree) = Ok None
  /\ (exists s', remove fuel (PyInt k) empty_tree = (Ok false, s')
        /\ unchanged empty_tree s')
  /\ exists x s1 s2,
       insert fuel (PyInt k) empty_tree = (Ok true, s1)
       /\ root s1 = Some x /\ heap s1 !! x = Some (new_Node k)
       /\ size_ s1 = 1
       /\ remove fuel (PyInt k) s1 = (Ok true, s2)
       /\ root s2 = None /\ size_ s2 = 0.
Proof.
  intros Hfuel. pose proof wf_empty as Hwf. pose proof Hwf as (Hs & Hb & Ha).
  split_and!.
  - destruct (find_spec empty_tree E k fuel Hwf ltac:(simpl; lia))
      as (r & s' & Hrun & _ & _ & Hnone).
    rewrite Hrun. cbn [fst]. f_equal. apply Hnone. simpl. apply not_elem_of_nil.
  - destruct (remove_spec empty_tree E k fuel Hs Hb Ha ltac:(simpl; lia))
      as (s' & Hrun). cbn in Hrun.
    destruct Hrun as (Hrun & _ & Hz & Hroot & Hsub).
    exists s'. split; [done|]. by split_and!.
  - destruct (insert_spec empty_tree E k fuel Hs Hb Ha ltac:(simpl; lia))
      as (s1 & Hrun).
    set (x := fresh (dom (heap empty_tree))) in *.
    assert (insert_tree x k E = Some (T E x k 0 E)) as Hins by reflexivity.
    rewrite Hins in Hrun. destruct Hrun as (Hrun & Hs1 & Hz1).
    assert (bst (T E x k 0 E)) as Hb1.
    { unfold bst. simpl. repeat constructor. }
    assert (avl (T E x k 0 E)) as Ha1 by (simpl; repeat split; lia).
    destruct (remove_spec s1 _ k fuel Hs1 Hb1 Ha1 ltac:(simpl; lia))
      as (s2 & Hrun2).
    unfold remove_tree in Hrun2. cbn [descend] in Hrun2.
    rewrite Z.eqb_refl in Hrun2. cbn in Hrun2.
    destruct Hrun2 as (Hrun2 & Hs2 & Hz2).
    destruct Hs1 as (Hroot1 & (Hx & _) & _). destruct Hs2 as (Hroot2 & _).
    exists x, s1, s2. split_and!; try done.
    rewrite Hz2, Hz1. reflexivity.
Qed.

Lemma X10_witness :
  (3 <= 3)%nat
  /\ fst (find 3 (PyInt 5) empty_tree) = Ok None
  /\ (exists s', remove 3 (PyInt 5) empty_tree = (Ok false, s')
        /\ unchanged empty_tree s')
  /\ exists x s1 s2,
       insert 3 (PyInt 5) empty_tree = (Ok true, s1)
       /\ root s1 = Some x /\ heap s1 !! x = Some (new_Node 5)
       /\ size_ s1 = 1
       /\ remove 3 (PyInt 5) s1 = (Ok true, s2)
       /\ root s2 = None /\ size_ s2 = 0.
Proof.
  assert ((3 <= 3)%nat) as H by lia.
  split; [exact H|]. exact (X10_empty_tree 5 3%nat H).
Defined.

(** ** How calls compose *)

Lemma wf_bound s t fuel n :
  wf s t -> (2 * base.size (heap s) + n <= fuel)%nat ->
  (2 * length (keys t) + n <= fuel)%nat.
Proof. intros Hwf Hf. pose proof (wf_store_size s t Hwf). lia. Qed.

(** X11. Repeating a call changes nothing.  On a state that satisfies the
    invariants, a second [insert] of the same key right after the first
    returns [False], and a second [remove] of the same key right after the
    first returns [False]; in both cases the second call leaves the root,
    the size and every object of the store as the first call left them. *)
Theorem X11_repeated_call (s : State) (k : Z) (fuel : nat) :
  invariants s -> (2 * base.size (heap s) + 3 <= fuel)%nat ->
  (exists b s1 s2,
     insert fuel (PyInt k) s = (Ok b, s1)
     /\ insert fuel (PyInt k) s1 = (Ok false, s2) /\ unchanged s1 s2)
  /\ (exists b s1 s2,
        remove fuel (PyInt k) s = (Ok b, s1)
        /\ remove fuel (PyInt k) s1 = (Ok false, s2) /\ unchanged s1 s2).
Proof.
  intros Hinv Hfuel. destruct (invariants_wf s Hinv) as [t Hwf].
  pose proof (wf_bound s t fuel 3 Hwf Hfuel) as Hf.
  split.
  - destruct (insert_wf s t k fuel Hwf ltac:(lia))
      as (s1 & t1 & Hrun1 & Hwf1 & Hk1 & _ & Hlen1 & _).
    destruct (insert_wf s1 t1 k fuel Hwf1 ltac:(lia))
      as (s2 & t2 & Hrun2 & _ & _ & Hun & _).
    assert (k ∈ keyset t1) as Hin by (rewrite Hk1; set_solver).
    rewrite bool_decide_false in Hrun2 by (intros Hn; by apply Hn).
    eexists _, s1, s2. split; [exact Hrun1|]. split; [exact Hrun2|].
    by apply Hun.
  - destruct (remove_wf s t k fuel Hwf ltac:(lia))
      as (s1 & t1 & Hrun1 & Hwf1 & Hk1 & _ & Hlen1 & _).
    destruct (remove_wf s1 t1 k fuel Hwf1 ltac:(lia))
      as (s2 & t2 & Hrun2 & _ & _ & Hun & _).
    assert (k ∉ keyset t1) as Hin by (rewrite Hk1; set_solver).
    rewrite bool_decide_false in Hrun2 by done.
    eexists _, s1, s2. split; [exact Hrun1|]. split; [exact Hrun2|].
    by apply Hun.
Qed.

Lemma X11_witness :
  invariants sample_state
  /\ (2 * base.size (heap sample_state) + 3 <= 9)%nat
  /\ (exists b s1 s2,
        insert 9 (PyInt 7) sample_state = (Ok b, s1)
        /\ insert 9 (PyInt 7) s1 = (Ok false, s2) /\ unchanged s1 s2)
  /\ (exists b s1 s2,
        remove 9 (PyInt 7) sample_state = (Ok b, s1)
        /\ remove 9 (PyInt 7) s1 = (Ok false, s2) /\ unchanged s1 s2).
Proof.
  assert (invariants sample_state) as H1
    by exact (wf_invariants _ _ sample_wf).
  assert ((2 * base.size (heap sample_state) + 3 <= 9)%nat) as H2
    by (vm_compute; lia).
  split; [exact H1|]. split; [exact H2|].
  exact (X11_repeated_call sample_state 7 9%nat H1 H2).
Defined.

(** X12. Insertion and removal undo each other on the key set.  On a state
    that satisfies the invariants: inserting an absent key and removing it
    again both return [True], and removing a present key and inserting it
    again both return [True]; either way the final state satisfies the
    invariants, holds exactly the keys it held before and has the size it
    had before. *)
Theorem X12_insert_remove_round_trip (s : State) (k : Z) (fuel : nat) :
  invariants s -> (2 * base.size (heap s) + 3 <= fuel)%nat ->
  (~ present s k ->
   exists s1 s2,
     insert fuel (PyInt k) s = (Ok true, s1)
     /\ remove fuel (PyInt k) s1 = (Ok true, s2)
     /\ invariants s2 /\ (forall j, present s2 j <-> present s j)
     /\ size_ s2 = size_ s)
  /\ (present s k ->
      exists s1 s2,
        remove fuel (PyInt k) s = (Ok true, s1)
        /\ insert fuel (PyInt k) s1 = (Ok true, s2)
        /\ invariants s2 /\ (forall j, present s2 j <-> present s j)
        /\ size_ s2 = size_ s).
Proof.
  intros Hinv Hfuel. destruct (invariants_wf s Hinv) as [t Hwf].
  pose proof (wf_bound s t fuel 3 Hwf Hfuel) as Hf.
  pose proof Hwf as (Hs & Hb & _).
  split; intros Hk; rewrite (present_keyset s t k Hs) in Hk.
  - destruct (insert_wf s t k fuel Hwf ltac:(lia))
      as (s1 & t1 & Hrun1 & Hwf1 & Hk1 & _ & Hlen1 & Hz1).
    destruct (remove_wf s1 t1 k fuel Hwf1 ltac:(lia))
      as (s2 & t2 & Hrun2 & Hwf2 & Hk2 & _ & Hlen2 & Hz2).
    rewrite bool_decide_true in Hrun1 by done.
    rewrite bool_decide_true in Hrun2 by (rewrite Hk1; set_solver).
    assert (keyset t2 = keyset t) as Hks by (rewrite Hk2, Hk1; set_solver).
    exists s1, s2. split; [done|]. split; [done|].
    split; [by eapply wf_invariants|]. split.
    + intros j. rewrite (present_keyset s2 t2 j (proj1 Hwf2)),
        (present_keyset s t j Hs), Hks. done.
    + pose proof Hwf2 as (_ & Hb2 & _).
      rewrite <- (keyset_size t2 Hb2), Hks, (keyset_size t Hb) in Hz2. lia.
  - destruct (remove_wf s t k fuel Hwf ltac:(lia))
      as (s1 & t1 & Hrun1 & Hwf1 & Hk1 & _ & Hlen1 & Hz1).
    destruct (insert_wf s1 t1 k fuel Hwf1 ltac:(lia))
      as (s2 & t2 & Hrun2 & Hwf2 & Hk2 & _ & Hlen2 & Hz2).
    rewrite bool_decide_true in Hrun1 by done.
    rewrite bool_decide_true in Hrun2 by (rewrite Hk1; set_solver).
    assert (keyset t2 = keyset t) as Hks.
    { rewrite Hk2, Hk1. apply set_eq. intros j.
      destruct (decide (j = k)) as [->|]; set_solver. }
    exists s1, s2. split; [done|]. split; [done|].
    split; [by eapply wf_invariants|]. split.
    + intros j. rewrite (present_keyset s2 t2 j (proj1 Hwf2)),
        (present_keyset s t j Hs), Hks. done.
    + pose proof Hwf2 as (_ & Hb2 & _).
      rewrite <- (keyset_size t2 Hb2), Hks, (keyset_size t Hb) in Hz2. lia.
Qed.

Lemma X12_witness :
  invariants sample_state
  /\ (2 * base.size (heap sample_state) + 3 <= 9)%nat
  /\ ~ present sample_state 7
  /\ exists s1 s2,
       insert 9 (PyInt 7) sample_state = (Ok true, s1)
       /\ remove 9 (PyInt 7) s1 = (Ok true, s2)
       /\ invariants s2
       /\ (forall j, present s2 j <-> present sample_state j)
       /\ size_ s2 = size_ sample_state.
Proof.
  assert (invariants sample_state) as H1
    by exact (wf_invariants _ _ sample_wf).
  assert ((2 * base.size (heap sample_state) + 3 <= 9)%nat) as H2
    by (vm_compute; lia).
  assert (~ present sample_state 7) as H3.
  { rewrite (present_keys _ _ 7 (proj1 sample_wf)). simpl.
    rewrite !elem_of_cons, elem_of_nil. lia. }
  split; [exact H1|]. split; [exact H2|]. split; [exact H3|].
  exact (proj1 (X12_insert_remove_round_trip sample_state 7 9%nat H1 H2) H3).
Defined.
(** ** Node objects as arguments; identity of the nodes *)

Lemma cells_rotR t : cells (rotR t) = cells t.
Proof.
  destruct t as [|[|a y vy hy b] x v h c]; simpl; auto.
  by rewrite <- app_assoc.
Qed.

Lemma cells_rotL t : cells (rotL t) = cells t.
Proof.
  destruct t as [|a x v h [|b y vy hy c]]; simpl; auto.
  by rewrite <- app_assoc.
Qed.

Lemma cells_rebal t : cells (rebal t) = cells t.
Proof.
  destruct t as [|l x v h r]; [done|]. unfold rebal.
  destruct (_ <? -1); [|destruct (1 <? _)];
    rewrite ?cells_rotR, ?cells_rotL; simpl; [| |done];
    case_match; by rewrite ?cells_rotR, ?cells_rotL.
Qed.

Lemma cells_plug_mono c : forall t1 t2 e,
  (forall e', e' ∈ cells t1 -> e' ∈ cells t2) ->
  e ∈ cells (plug c t1) -> e ∈ cells (plug c t2).
Proof.
  induction c as [|f c IH]; intros t1 t2 e Hsub; simpl; [apply Hsub|].
  apply IH. intros e'. destruct f; simpl;
    rewrite !elem_of_app, !elem_of_cons; specialize (Hsub e'); tauto.
Qed.

Lemma cells_plug_in c : forall t e, e ∈ cells t -> e ∈ cells (plug c t).
Proof.
  induction c as [|f c IH]; intros t e He; simpl; [done|].
  apply IH. destruct f; simpl; rewrite !elem_of_app, !elem_of_cons; tauto.
Qed.

Lemma cells_plug_congr c : forall t1 t2,
  cells t1 = cells t2 -> cells (plug c t1) = cells (plug c t2).
Proof.
  induction c as [|f c IH]; intros t1 t2 Heq; simpl; [done|].
  apply IH. destruct f; simpl; by rewrite Heq.
Qed.

Lemma cells_walk_up c : forall t, cells (walk_up c t) = cells (plug c t).
Proof.
  induction c as [|f c IH]; intros t; simpl; [done|].
  rewrite walk_walk_up, IH. apply cells_plug_congr, cells_rebal.
Qed.

Lemma cells_walk c t : cells (walk c t) = cells (plug c t).
Proof.
  rewrite walk_walk_up, cells_walk_up. apply cells_plug_congr, cells_rebal.
Qed.

Lemma insert_tree_cells x k t t' :
  insert_tree x k t = Some t' ->
  (x, k) ∈ cells t' /\ forall e, e ∈ cells t -> e ∈ cells t'.
Proof.
  unfold insert_tree.
  destruct (descend k [] t) as [c [|l y v h r]] eqn:Hd; [|done].
  intros [= <-]. apply descend_plug in Hd. cbn [plug] in Hd. subst t.
  rewrite cells_walk. split.
  - apply cells_plug_in. simpl. set_solver.
  - intros e. apply cells_plug_mono. intros e' He'. by apply elem_of_nil in He'.
Qed.

Lemma insert_node_spec s t x k fuel :
  srepr s t -> bst t -> avl t ->
  heap s !! x = Some (new_Node k) -> x ∉ locs t ->
  (2 * depth t + 1 <= fuel)%nat ->
  match insert_tree x k t with
  | Some t' =>
    exists s', insert fuel (PyNode x) s = (Ok true, s')
      /\ srepr s' t' /\ size_ s' = size_ s + 1
  | None => insert fuel (PyNode x) s = (Ok false, s)
  end.
Proof.
  intros Hs Hb Ha Hx Hfresh Hfuel.
  pose proof (bst_insert_spec s t x k fuel Hs Hx Hfresh ltac:(lia)) as Hins.
  unfold insert, insert_tree. cbn [create_node_from_value].
  rewrite bind_ret.
  destruct (descend k [] t) as [c [|l y v h r]] eqn:Hd.
  - destruct Hins as (s1 & Hrun & Hs1 & Hz1).
    { eapply descend_dir; [exact Hd|constructor]. }
    rewrite (bind_run _ _ _ _ _ Hrun). cbn [negb].
    pose proof (descend_length _ _ _ _ _ Hd) as Hlen. simpl in Hlen.
    apply descend_plug in Hd. cbn [plug] in Hd. subst t.
    apply avl_plug_inv in Ha as [_ Hc]. cbn [ht] in Hc.
    destruct (balance_spec c (T E x k 0 E) s1 fuel (-1) x Hs1 eq_refl Hc)
      as (s2 & Hrun2 & Hs2 & Hz2);
      [simpl; repeat split; lia|simpl; lia|lia|].
    rewrite (bind_run _ _ _ _ _ Hrun2).
    exists s2. split_and!; [done|done|by rewrite Hz2, Hz1].
  - by rewrite (bind_run _ _ _ _ _ Hins).
Qed.

Lemma find_node_spec s t x n fuel :
  wf s t -> heap s !! x = Some n -> (depth t <= fuel)%nat ->
  exists r,
    find fuel (PyNode x) s = (Ok r, s)
    /\ (x ∈ locs t -> r = Some x)
    /\ (value n ∉ keys t -> r = None).
Proof.
  intros (Hs & Hb & _) Hx Hfuel.
  pose proof (search_node_spec t s fuel x n Hs Hx Hfuel) as Hsearch.
  unfold find. cbn [create_node_from_value].
  rewrite bind_ret, (bind_run _ _ _ _ _ Hsearch).
  eexists. split; [reflexivity|].
  destruct (descend (value n) [] t) as [c [|l y v h r]] eqn:Hd;
    cbn [result_of is_found searched_node].
  - destruct (descend_absent _ _ _ Hb Hd) as (Hk & _). split; [|done].
    intros Hin. destruct Hs as (_ & Hr & _).
    by pose proof (repr_key _ _ _ _ _ Hr Hin Hx).
  - destruct (descend_present _ _ _ _ _ _ _ _ Hd) as (-> & Hk).
    split; [|done]. intros Hin. f_equal.
    pose proof Hs as (_ & Hr & _).
    pose proof (repr_cells _ _ _ _ _ Hr Hin Hx) as Hcx.
    apply descend_plug in Hd. cbn [plug] in Hd.
    assert ((y, value n) ∈ cells t) as Hcy.
    { rewrite <- Hd. apply cells_plug_in. simpl. set_solver. }
    eapply NoDup_snd_inj; [|exact Hcy|exact Hcx].
    rewrite cells_snd. by apply sorted_NoDup.
Qed.

Lemma remove_node_spec s t x n fuel :
  srepr s t -> bst t -> avl t -> heap s !! x = Some n ->
  (2 * depth t + 1 <= fuel)%nat ->
  match remove_tree (value n) t with
  | Some t' =>
    exists s', remove fuel (PyNode x) s = (Ok true, s')
      /\ srepr s' t' /\ size_ s' = size_ s - 1
  | None => remove fuel (PyNode x) s = (Ok false, s)
  end.
Proof.
  intros Hs Hb Ha Hx Hfuel.
  pose proof (bst_remove_spec s t x _ fuel Hs Hx ltac:(lia)) as Hrem.
  unfold remove, remove_tree. cbn [create_node_from_value].
  rewrite bind_ret.
  destruct (descend (value n) [] t) as [c [|l y v h r]] eqn:Hd.
  - by rewrite (bind_run _ _ _ _ _ Hrem).
  - destruct Hrem as (s1 & n1 & Hrun & Hs1 & Hz1 & Hn & Hp).
    rewrite (bind_run _ _ _ _ _ Hrun).
    erewrite bind_getf by exact Hn. rewrite Hp.
    pose proof (descend_length _ _ _ _ _ Hd) as Hlen. cbn [length] in Hlen.
    pose proof (unlink_length c l y v h r) as Hlen'.
    apply descend_plug in Hd. cbn [plug] in Hd. subst t.
    destruct (unlink_avl _ _ _ _ _ _ Ha) as (ho & Hc & Ht' & Hd').
    destruct (unlink c l y h r) as [c' t'] eqn:Hu. cbn [fst snd] in *.
    destruct (balance_loop_tail c' t' ho s1 fuel Hs1 Hc Ht' Hd' ltac:(lia))
      as (s2 & Hrun2 & Hs2 & Hz2).
    destruct c' as [|f c'']; cbn [ctx_parent] in *.
    + rewrite bind_ret. exists s1. split_and!; done.
    + unfold balance. rewrite (bind_run _ _ _ _ _ Hrun2).
      exists s2. split_and!; [done|done|by rewrite Hz2, Hz1].
Qed.

(** X13. [insert] accepts a [Node] object and links that very object.  On a
    state that satisfies the invariants, given a node [x] just built with
    [Node(k)] and not part of the tree: when [k] is present the call returns
    [False] and the state is exactly as before; when [k] is absent it
    returns [True], the invariants hold again, [x] itself is now a node of
    the tree and holds [k], the keys are the old ones plus [k], the size
    grew by one, and [find(x)] returns [x]. *)
Theorem X13_insert_node_object (s : State) (x : loc) (k : Z) (fuel : nat) :
  invariants s -> (2 * base.size (heap s) + 1 <= fuel)%nat ->
  heap s !! x = Some (new_Node k) -> ~ reachable s x ->
  (present s k -> insert fuel (PyNode x) s = (Ok false, s))
  /\ (~ present s k ->
      exists s' n',
        insert fuel (PyNode x) s = (Ok true, s')
        /\ invariants s'
        /\ reachable s' x /\ heap s' !! x = Some n' /\ value n' = k
        /\ (forall j, present s' j <-> j = k \/ present s j)
        /\ size_ s' = size_ s + 1
        /\ find fuel (PyNode x) s' = (Ok (Some x), s')).
Proof.
  intros Hinv Hfuel Hx Hnr. destruct (invariants_wf s Hinv) as [t Hwf].
  pose proof (wf_store_size s t Hwf) as Hsz. pose proof Hwf as (Hs & Hb & Ha).
  pose proof (depth_le_keys t) as Hdep.
  rewrite (reachable_locs s t x Hs) in Hnr.
  pose proof (insert_node_spec s t x k fuel Hs Hb Ha Hx Hnr ltac:(lia)) as Hrun.
  pose proof (insert_tree_spec x k t Hb Ha) as Hpure.
  pose proof (insert_tree_cells x k t) as Hcells.
  rewrite (present_keys s t k Hs).
  destruct (insert_tree x k t) as [t'|]; split; intros Hk; try done.
  - by destruct Hpure as (Hk' & _).
  - destruct Hrun as (s' & Hrun & Hs' & Hz').
    destruct Hpure as (_ & Hb' & Ha' & (l1 & l2 & Hk1 & Hk2)
                       & (m1 & m2 & Hl1 & Hl2)).
    destruct (Hcells t' eq_refl) as [Hc _].
    pose proof Hs' as (_ & Hr' & _).
    destruct (cells_lookup _ _ _ _ _ Hr' Hc) as (n' & Hn' & Hv' & Hin').
    assert (wf s' t') as Hwf' by done.
    exists s', n'. split_and!; try done.
    + by eapply wf_invariants.
    + by apply (reachable_locs s' t' x Hs').
    + intros j.
      rewrite (present_keys s' t' j Hs'), (present_keys s t j Hs), Hk1, Hk2.
      rewrite !elem_of_app, elem_of_cons. tauto.
    + assert (depth t' <= fuel)%nat as Hf'.
      { pose proof (depth_le_keys t'). rewrite Hk2, length_app in H.
        rewrite Hk1, length_app in Hsz, Hdep. simpl in H. lia. }
      destruct (find_node_spec s' t' x n' fuel Hwf' Hn' Hf')
        as (r & Hfind & Hr & _).
      by rewrite Hfind, (Hr Hin').
Qed.

Lemma X13_witness :
  let s := snd (alloc (new_Node 7) sample_state) in
  let x := fresh (dom (heap sample_state)) in
  invariants s
  /\ (2 * base.size (heap s) + 1 <= 9)%nat
  /\ heap s !! x = Some (new_Node 7) /\ ~ reachable s x
  /\ ~ present s 7
  /\ exists s' n',
       insert 9 (PyNode x) s = (Ok true, s')
       /\ invariants s'
       /\ reachable s' x /\ heap s' !! x = Some n' /\ value n' = 7
       /\ (forall j, present s' j <-> j = 7 \/ present s j)
       /\ size_ s' = size_ s + 1
       /\ find 9 (PyNode x) s' = (Ok (Some x), s').
Proof.
  intros s x.
  destruct (alloc_srepr sample_state sample_tree (new_Node 7)
              (proj1 sample_wf)) as (Hal & Hs0 & Hfresh & _ & _).
  fold x in Hal, Hs0, Hfresh.
  assert (s = mkState (<[x := new_Node 7]> (heap sample_state))
                (root sample_state) (size_ sample_state)) as Hs
    by (unfold s; by rewrite Hal).
  assert (srepr s sample_tree) as Hs1 by (rewrite Hs; exact Hs0).
  assert (wf s sample_tree) as Hwf
    by (split; [exact Hs1|exact (proj2 sample_wf)]).
  assert (invariants s) as H1 by exact (wf_invariants _ _ Hwf).
  assert ((2 * base.size (heap s) + 1 <= 9)%nat) as H2 by (vm_compute; lia).
  assert (heap s !! x = Some (new_Node 7)) as H3
    by (rewrite Hs; apply lookup_insert_eq).
  assert (~ reachable s x) as H4 by (by rewrite (reachable_locs _ _ _ Hs1)).
  assert (~ present s 7) as H5.
  { rewrite (present_keys _ _ 7 Hs1). simpl.
    rewrite !elem_of_cons, elem_of_nil. lia. }
  split; [exact H1|]. split; [exact H2|]. split; [exact H3|].
  split; [exact H4|]. split; [exact H5|].
  exact (proj2 (X13_insert_node_object s x 7 9%nat H1 H2 H3 H4) H5).
Defined.

(** X14. [find] and [remove] accept a [Node] object and act on the key it
    holds, without creating any object.  On a state that satisfies the
    invariants and for any node object [x] of the store: [find(x)] leaves
    the state exactly as it is, returns [x] itself when [x] is a node of the
    tree and [None] when the key of [x] is absent; [remove(x)] returns
    normally, returns [True] exactly when the key of [x] was present, keeps
    the invariants, takes exactly that key out and lowers the size by one
    exactly when it returns [True]. *)
Theorem X14_node_argument (s : State) (x : loc) (n : Node) (fuel : nat) :
  invariants s -> (2 * base.size (heap s) + 1 <= fuel)%nat ->
  heap s !! x = Some n ->
  (exists r,
     find fuel (PyNode x) s = (Ok r, s)
     /\ (reachable s x -> r = Some x)
     /\ (~ present s (value n) -> r = None))
  /\ exists b s',
       remove fuel (PyNode x) s = (Ok b, s')
       /\ (b = true <-> present s (value n))
       /\ invariants s'
       /\ (forall j, present s' j <-> j <> value n /\ present s j)
       /\ size_ s' = size_ s - (if b then 1 else 0).
Proof.
  intros Hinv Hfuel Hx. destruct (invariants_wf s Hinv) as [t Hwf].
  pose proof (wf_store_size s t Hwf) as Hsz. pose proof Hwf as (Hs & Hb & Ha).
  pose proof (depth_le_keys t) as Hdep. split.
  - destruct (find_node_spec s t x n fuel Hwf Hx ltac:(lia))
      as (r & Hrun & Hin & Hout).
    exists r. split; [done|].
    rewrite (reachable_locs s t x Hs), (present_keys s t _ Hs). done.
  - pose proof (remove_node_spec s t x n fuel Hs Hb Ha Hx ltac:(lia)) as Hrun.
    pose proof (remove_tree_spec (value n) t Hb Ha) as Hpure.
    pose proof (present_keys s t (value n) Hs) as Hpk.
    destruct (remove_tree (value n) t) as [t'|].
    + destruct Hrun as (s' & Hrun & Hs' & Hz').
      destruct Hpure as (Hb' & Ha' & (l1 & l2 & Hk1 & Hk2) & Hk).
      exists true, s'. split; [done|]. split.
      { split; [|done]. intros _. rewrite Hpk, Hk1. set_solver. }
      split; [by eapply (wf_invariants s' t')|]. split; [|lia].
      intros j.
      rewrite (present_keys s' t' j Hs'), (present_keys s t j Hs).
      rewrite Hk2 in Hk. rewrite Hk1, Hk2.
      rewrite !elem_of_app, elem_of_cons. rewrite elem_of_app in Hk.
      split; [|tauto]. intros Hj. split; [|tauto]. intros ->. tauto.
    + exists false, s. split; [done|]. split.
      { rewrite Hpk. split; [done|]. intros Hin. by destruct Hpure. }
      split; [done|]. split; [|lia]. intros j.
      rewrite (present_keys s t j Hs).
      split; [|tauto]. intros Hj. split; [|done]. by intros ->.
Qed.

Lemma X14_witness :
  invariants sample_state
  /\ (2 * base.size (heap sample_state) + 1 <= 7)%nat
  /\ heap sample_state !! 2%positive
     = Some (mkNode 1 (Some 1%positive) None None 0)
  /\ (exists r,
        find 7 (PyNode 2%positive) sample_state = (Ok r, sample_state)
        /\ (reachable sample_state 2%positive -> r = Some 2%positive)
        /\ (~ present sample_state
                (value (mkNode 1 (Some 1%positive) None None 0)) -> r = None))
  /\ exists b s',
       remove 7 (PyNode 2%positive) sample_state = (Ok b, s')
       /\ (b = true
           <-> present sample_state
                 (value (mkNode 1 (Some 1%positive) None None 0)))
       /\ invariants s'
       /\ (forall j, present s' j
           <-> j <> value (mkNode 1 (Some 1%positive) None None 0)
               /\ present sample_state j)
       /\ size_ s' = size_ sample_state - (if b then 1 else 0).
Proof.
  assert (invariants sample_state) as H1
    by exact (wf_invariants _ _ sample_wf).
  assert ((2 * base.size (heap sample_state) + 1 <= 7)%nat) as H2
    by (vm_compute; lia).
  assert (heap sample_state !! 2%positive
          = Some (mkNode 1 (Some 1%positive) None None 0)) as H3
    by (vm_compute; reflexivity).
  split; [exact H1|]. split; [exact H2|]. split; [exact H3|].
  exact (X14_node_argument sample_state 2%positive _ 7%nat H1 H2 H3).
Defined.

(** X15. [insert] never drops or re-keys a node.  On a state that satisfies
    the invariants, every node object of the tree is still a node of the
    tree after [insert] of any integer, and still holds the key it held. *)
Theorem X15_insert_keeps_nodes (s : State) (k : Z) (fuel : nat)
    (y : loc) (n : Node) :
  invariants s -> (2 * base.size (heap s) + 1 <= fuel)%nat ->
  reachable s y -> heap s !! y = Some n ->
  exists b s' n',
    insert fuel (PyInt k) s = (Ok b, s')
    /\ reachable s' y /\ heap s' !! y = Some n' /\ value n' = value n.
Proof.
  intros Hinv Hfuel Hy Hn. destruct (invariants_wf s Hinv) as [t Hwf].
  pose proof (wf_store_size s t Hwf) as Hsz. pose proof Hwf as (Hs & Hb & Ha).
  pose proof (depth_le_keys t) as Hdep.
  destruct (insert_spec s t k fuel Hs Hb Ha ltac:(lia)) as (s' & Hrun).
  pose proof (insert_tree_cells (fresh (dom (heap s))) k t) as Hcells.
  pose proof Hy as Hy'. rewrite (reachable_locs s t y Hs) in Hy'.
  pose proof Hs as (_ & Hr & _).
  pose proof (repr_cells _ _ _ _ _ Hr Hy' Hn) as Hc.
  destruct (insert_tree (fresh (dom (heap s))) k t) as [t'|].
  - destruct Hrun as (Hrun & Hs' & _).
    destruct (Hcells t' eq_refl) as [_ Hsub]. apply Hsub in Hc.
    pose proof Hs' as (_ & Hr' & _).
    destruct (cells_lookup _ _ _ _ _ Hr' Hc) as (n' & Hn' & Hv' & Hin').
    exists true, s', n'. split_and!; try done.
    by apply (reachable_locs s' t' y Hs').
  - destruct Hrun as (Hrun & Hs' & _ & _ & Hsub).
    exists false, s', n. split_and!; try done.
    + apply (reachable_locs s' t y Hs'). done.
    + eapply lookup_weaken; [exact Hn|exact Hsub].
Qed.

Lemma X15_witness :
  invariants sample_state
  /\ (2 * base.size (heap sample_state) + 1 <= 7)%nat
  /\ reachable sample_state 1%positive
  /\ heap sample_state !! 1%positive
     = Some (mkNode 2 None (Some 2%positive) (Some 3%positive) 1)
  /\ exists b s' n',
       insert 7 (PyInt 4) sample_state = (Ok b, s')
       /\ reachable s' 1%positive /\ heap s' !! 1%positive = Some n'
       /\ value n'
          = value (mkNode 2 None (Some 2%positive) (Some 3%positive) 1).
Proof.
  assert (invariants sample_state) as H1
    by exact (wf_invariants _ _ sample_wf).
  assert ((2 * base.size (heap sample_state) + 1 <= 7)%nat) as H2
    by (vm_compute; lia).
  assert (reachable sample_state 1%positive) as H3 by (vm_compute; constructor).
  assert (heap sample_state !! 1%positive
          = Some (mkNode 2 None (Some 2%positive) (Some 3%positive) 1)) as H4
    by (vm_compute; reflexivity).
  split; [exact H1|]. split; [exact H2|]. split; [exact H3|].
  split; [exact H4|].
  exact (X15_insert_keeps_nodes sample_state 4 7%nat 1%positive _ H1 H2 H3 H4).
Defined.
(** ** Sequences of calls from any valid state *)

(** X16. The tree behaves as a finite set of integers.  From any state that
    satisfies the invariants and holds the key set [K], a sequence of
    [insert] and [remove] calls returns normally, each call returns what
    the same operation on a set returns ([insert k] is true when [k] was
    not a member, [remove k] when it was), the final state satisfies the
    invariants and holds exactly the keys of the set after the same
    operations, and the difference between [size] and the number of keys is
    what it was at the start. *)
Theorem X16_sequence_refines_set (s : State) (K : gset Z) (ops : list op)
    (fuel : nat) :
  invariants s ->
  (2 * (base.size (heap s) + length ops) + 1 <= fuel)%nat ->
  (forall k, k ∈ K <-> present s k) ->
  exists s',
    run_ops fuel ops s = (Ok (model_results ops K), s')
    /\ invariants s'
    /\ (forall k, present s' k <-> k ∈ model ops K)
    /\ size_ s' - Z.of_nat (base.size (model ops K))
       = size_ s - Z.of_nat (base.size K).
Proof.
  intros Hinv Hfuel HK. destruct (invariants_wf s Hinv) as [t Hwf].
  pose proof (wf_store_size s t Hwf) as Hsz. pose proof Hwf as (Hs & Hb & _).
  assert (K = keyset t) as ->.
  { apply set_eq. intros k. by rewrite HK, (present_keyset s t k Hs). }
  destruct (run_ops_wf ops s t fuel Hwf ltac:(lia))
    as (s' & t' & Hrun & Hwf' & Hk & _ & Hz).
  pose proof Hwf' as (Hs' & Hb' & _).
  exists s'. split; [done|]. split; [by eapply wf_invariants|]. split.
  - intros k. by rewrite (present_keyset s' t' k Hs'), Hk.
  - rewrite <- Hk, (keyset_size t Hb), (keyset_size t' Hb'). done.
Qed.

Lemma X16_witness :
  invariants sample_state
  /\ (2 * (base.size (heap sample_state)
           + length [Insert 4; Remove 2; Insert 4]) + 1 <= 13)%nat
  /\ (forall k, k ∈ ({[1; 2; 3]} : gset Z) <-> present sample_state k)
  /\ exists s',
       run_ops 13 [Insert 4; Remove 2; Insert 4] sample_state
       = (Ok (model_results [Insert 4; Remove 2; Insert 4] {[1; 2; 3]}), s')
       /\ invariants s'
       /\ (forall k, present s' k
           <-> k ∈ model [Insert 4; Remove 2; Insert 4] ({[1; 2; 3]} : gset Z))
       /\ size_ s'
          - Z.of_nat (base.size (model [Insert 4; Remove 2; Insert 4]
                                   ({[1; 2; 3]} : gset Z)))
          = size_ sample_state - Z.of_nat (base.size ({[1; 2; 3]} : gset Z)).
Proof.
  assert (invariants sample_state) as H1
    by exact (wf_invariants _ _ sample_wf).
  assert ((2 * (base.size (heap sample_state)
                + length [Insert 4; Remove 2; Insert 4]) + 1 <= 13)%nat) as H2
    by (vm_compute; lia).
  assert (forall k, k ∈ ({[1; 2; 3]} : gset Z) <-> present sample_state k)
    as H3.
  { intros k. rewrite (present_keys _ _ k (proj1 sample_wf)). simpl.
    rewrite !elem_of_union, !elem_of_singleton, !elem_of_cons, elem_of_nil.
    tauto. }
  split; [exact H1|]. split; [exact H2|]. split; [exact H3|].
  exact (X16_sequence_refines_set sample_state _ _ 13%nat H1 H2 H3).
Defined.
(** ** Identity of the nodes under removal *)

Lemma cells_plug_split c : forall t e,
  e ∈ cells (plug c t) <-> e ∈ cells t \/ e ∈ cells (plug c E).
Proof.
  induction c as [|f c IH]; intros t e; simpl.
  - rewrite elem_of_nil. tauto.
  - rewrite (IH (fill f t)), (IH (fill f E)).
    destruct f; simpl; rewrite !elem_of_app, !elem_of_cons, ?elem_of_nil;
      tauto.
Qed.

Lemma cells_T l x v h r e :
  e ∈ cells (T l x v h r) <-> e ∈ cells l \/ e = (x, v) \/ e ∈ cells r.
Proof. simpl. rewrite elem_of_app, elem_of_cons. tauto. Qed.

Lemma cells_locs t y v : (y, v) ∈ cells t -> y ∈ locs t.
Proof.
  intros H. rewrite <- cells_fst. apply list_elem_of_fmap.
  by exists (y, v).
Qed.

Lemma remove_tree_nodes k t t' :
  NoDup (locs t) -> remove_tree k t = Some t' ->
  exists c l x h r,
    t = plug c (T l x k h r)
    /\ (victim l x r ∈ locs t) /\ (victim l x r ∉ locs t')
    /\ forall y v, (y, v) ∈ cells t -> y <> victim l x r ->
         y ∈ locs t' /\ (v <> k -> (y, v) ∈ cells t').
Proof.
  intros Hnd. unfold remove_tree.
  destruct (descend k [] t) as [c [|l x v h r]] eqn:Hd; [done|].
  pose proof (descend_found _ _ _ _ _ _ _ _ _ Hd) as ->.
  apply descend_plug in Hd. cbn [plug] in Hd. subst t.
  destruct (unlink c l x h r) as [c' u] eqn:Hu. intros [= <-].
  exists c, l, x, h, r. split; [done|].
  rewrite locs_walk_up.
  assert (forall y v, (y, v) ∈ cells (plug c' u) ->
            (y, v) ∈ cells (walk_up c' u)) as Hback
    by (intros y v; by rewrite cells_walk_up).
  assert (forall y v, (y, v) ∈ cells (plug c' u) -> y ∈ locs (plug c' u))
    as Hloc by (intros y v; apply cells_locs).
  unfold unlink in Hu. rewrite locs_plug in Hnd. cbn [locs] in Hnd.
  destruct l as [|ll lx lv lh lr].
  { injection Hu as <- <-. cbn [victim].
    split_and!; [rewrite locs_plug; cbn [locs]; set_solver
                |rewrite locs_plug; disj|].
    intros y v Hy Hne.
    assert ((y, v) ∈ cells (plug c r)) as Hin.
    { apply cells_plug_split in Hy as [Hy|Hy];
        apply cells_plug_split; [|by right].
      simpl in Hy. rewrite elem_of_cons in Hy.
      destruct Hy as [[= -> ->]|Hy]; [done|by left]. }
    split; [by eapply Hloc|intros _; by apply Hback]. }
  destruct r as [|rl rx rv rh rr].
  { injection Hu as <- <-. cbn [victim].
    split_and!; [rewrite locs_plug; cbn [locs]; set_solver
                |rewrite locs_plug; cbn [locs] in *; disj|].
    intros y v Hy Hne.
    assert ((y, v) ∈ cells (plug c (T ll lx lv lh lr))) as Hin.
    { apply cells_plug_split in Hy as [Hy|Hy];
        apply cells_plug_split; [|by right].
      simpl in Hy. apply elem_of_app in Hy as [Hy|Hy];
        [left; simpl; exact Hy|].
      apply elem_of_cons in Hy as [[= -> ->]|Hy]; [done|].
      by apply elem_of_nil in Hy. }
    split; [by eapply Hloc|intros _; by apply Hback]. }
  cbn [victim].
  destruct (spine [] rl rx rv rh rr) as [sc [[[sx sv] sh] sr]] eqn:Hsp.
  injection Hu as <- <-.
  pose proof (spine_plug _ _ _ _ _ _ _ _ _ _ _ Hsp) as Hsplug.
  cbn [plug] in Hsplug. rewrite <- Hsplug in *.
  rewrite plug_app in *. cbn [plug fill] in *.
  split_and!.
  { rewrite !locs_plug. cbn [locs]. rewrite !locs_plug. cbn [locs].
    set_solver. }
  { rewrite !locs_plug. cbn [locs]. rewrite !locs_plug.
    cbn [locs] in Hnd. rewrite !locs_plug in Hnd. cbn [locs] in Hnd. disj. }
  set (L := T ll lx lv lh lr) in *. intros y v Hy Hne.
  assert ((y = x /\ v = k)
          \/ (y, v) ∈ cells (plug c (T L x sv h (plug sc sr)))) as Hcase.
  { apply cells_plug_split in Hy as [Hy|Hy].
    - rewrite cells_T, cells_plug_split, cells_T in Hy.
      destruct Hy as [Hy|[[= -> ->]|[[Hy|[[= -> ->]|Hy]]|Hy]]].
      + right. apply cells_plug_split. left. rewrite cells_T. tauto.
      + by left.
      + by apply elem_of_nil in Hy.
      + done.
      + right. apply cells_plug_split. left.
        rewrite cells_T, cells_plug_split. tauto.
      + right. apply cells_plug_split. left.
        rewrite cells_T, cells_plug_split. tauto.
    - right. apply cells_plug_split. by right. }
  destruct Hcase as [[-> ->]|Hin].
  - split; [|done]. apply (Hloc x sv). apply cells_plug_split. left.
    rewrite cells_T. tauto.
  - split; [by eapply Hloc|intros _; by apply Hback].
Qed.

(** X17. [remove] of a present key takes exactly one node object out of the
    tree.  On a state that satisfies the invariants there is one object [d]
    that was a node of the tree and no longer is; when the node that holds
    the key has at most one child, [d] is that node.  Every other node
    object is still a node of the tree afterwards, and unless it held the
    removed key it still holds the key it held. *)
Theorem X17_remove_drops_one_node (s : State) (k : Z) (fuel : nat) :
  invariants s -> (2 * base.size (heap s) + 1 <= fuel)%nat ->
  present s k ->
  exists s' d,
    remove fuel (PyInt k) s = (Ok true, s')
    /\ reachable s d /\ ~ reachable s' d
    /\ (forall x nx, reachable s x -> heap s !! x = Some nx ->
          value nx = k -> left nx = None \/ right nx = None -> d = x)
    /\ (forall y n, reachable s y -> heap s !! y = Some n -> y <> d ->
          reachable s' y
          /\ (value n <> k ->
              exists n', heap s' !! y = Some n' /\ value n' = value n)).
Proof.
  intros Hinv Hfuel Hk. destruct (invariants_wf s Hinv) as [t Hwf].
  pose proof (wf_store_size s t Hwf) as Hsz. pose proof Hwf as (Hs & Hb & Ha).
  pose proof (depth_le_keys t) as Hdep.
  apply (present_keys s t k Hs) in Hk.
  destruct (remove_spec s t k fuel Hs Hb Ha ltac:(lia)) as (s' & Hrun).
  pose proof (remove_tree_spec k t Hb Ha) as Hpure.
  pose proof (remove_tree_nodes k t) as Hnodes.
  destruct (remove_tree k t) as [t'|]; [|done].
  destruct Hrun as (Hrun & Hs' & _).
  pose proof Hs as (_ & Hr & Hnd). pose proof Hs' as (_ & Hr' & _).
  destruct (Hnodes t' Hnd eq_refl)
    as (c & l & x & h & r & Ht & Hin & Hout & Hall).
  exists s', (victim l x r). split_and!.
  - done.
  - by apply (reachable_locs s t _ Hs).
  - by rewrite (reachable_locs s' t' _ Hs').
  - intros x' nx Hx' Hnx Hv Hchild.
    apply (reachable_locs s t _ Hs) in Hx'.
    pose proof (repr_cells _ _ _ _ _ Hr Hx' Hnx) as Hc'. rewrite Hv in Hc'.
    assert ((x, k) ∈ cells t) as Hc.
    { rewrite Ht. apply cells_plug_in. rewrite cells_T. tauto. }
    assert (x' = x) as ->.
    { eapply NoDup_snd_inj; [|exact Hc'|exact Hc].
      rewrite cells_snd. by apply sorted_NoDup. }
    subst t. destruct (srepr_focus _ _ _ _ _ _ _ Hs) as (Hx & _).
    rewrite Hx in Hnx. injection Hnx as <-. cbn [left right] in Hchild.
    destruct Hchild as [Hc0|Hc0].
    + by destruct l.
    + destruct r; [|done]. by destruct l.
  - intros y n Hy Hn Hne.
    apply (reachable_locs s t _ Hs) in Hy.
    pose proof (repr_cells _ _ _ _ _ Hr Hy Hn) as Hc.
    destruct (Hall _ _ Hc Hne) as [Hy' Hkeep]. split.
    + by apply (reachable_locs s' t' _ Hs').
    + intros Hv.
      destruct (cells_lookup _ _ _ _ _ Hr' (Hkeep Hv)) as (n' & Hn' & Hv' & _).
      by exists n'.
Qed.

Lemma X17_witness :
  invariants sample_state
  /\ (2 * base.size (heap sample_state) + 1 <= 7)%nat
  /\ present sample_state 1
  /\ exists s' d,
       remove 7 (PyInt 1) sample_state = (Ok true, s')
       /\ reachable sample_state d /\ ~ reachable s' d
       /\ (forall x nx, reachable sample_state x ->
             heap sample_state !! x = Some nx ->
             value nx = 1 -> left nx = None \/ right nx = None -> d = x)
       /\ (forall y n, reachable sample_state y ->
             heap sample_state !! y = Some n -> y <> d ->
             reachable s' y
             /\ (value n <> 1 ->
                 exists n', heap s' !! y = Some n' /\ value n' = value n)).
Proof.
  assert (invariants sample_state) as H1
    by exact (wf_invariants _ _ sample_wf).
  assert ((2 * base.size (heap sample_state) + 1 <= 7)%nat) as H2
    by (vm_compute; lia).
  assert (present sample_state 1) as H3.
  { rewrite (present_keys _ _ 1 (proj1 sample_wf)). simpl.
    rewrite !elem_of_cons. tauto. }
  split; [exact H1|]. split; [exact H2|]. split; [exact H3|].
  exact (X17_remove_drops_one_node sample_state 1 7%nat H1 H2 H3).
Defined.
